(** * Robosexuality research platform: the client-side core, verified

    A shallow embedding of [src/assets/scripts/main.js] (class
    [RobosexualityApp] and its modules) and of the scroll handler of the
    fallback script, followed by the properties of the particle field, the
    viewport observers, the statistic counter and the shared state.

    Conventions of the embedding.
    - A JavaScript number is an IEEE double; arithmetic is idealised in the
      exact rationals [Q].  [Math.sqrt] and [Math.random] are provided by the
      host and are taken from the class [Host].
    - A DOM element is a reference ([elem]); what the code mutates through a
      reference (a class list) lives in a store indexed by references, so
      that two entries for one element alias the same class list.
    - An object used as a record with string keys ([this.state]) is a
      [gmap string value].
    - Code that can raise a [TypeError] returns a [result]. *)

From Stdlib Require Import QArith Qround Qminmax Lia Lqa.
From stdpp Require Import gmap strings list fin_maps.
From stdpp Require Import pretty.
From Stdlib Require Qabs.

Local Open Scope string_scope.
Local Open Scope list_scope.

(** ** Values, elements, observer entries, the host *)

Inductive value : Type :=
| VUndefined
| VBool (b : bool)
| VNum (n : Q)
| VStr (s : string).

Definition elem : Type := nat.

(** An [IntersectionObserverEntry], as far as the handlers read it. *)
Record Entry : Type := { target : elem; isIntersecting : bool }.

(** What the host environment computes for the page.  [Math_random i] is
    the result of the [i]-th call of [Math.random()]. *)
Class Host : Type := {
  Math_sqrt : Q → Q;
  Math_random : nat → Q
}.

(** [Math.PI] is the double nearest to pi, an exact rational. *)
Definition Math_PI : Q := 884279719003555 # 281474976710656.

Definition Qltb (a b : Q) : bool := negb (Qle_bool b a).

(** Outcome of a handler that may raise: the store reached, and whether the
    handler returned or threw there. *)
Inductive result (A : Type) : Type :=
| Returned (w : A)
| Threw (err : string) (w : A).
Arguments Returned {A} w.
Arguments Threw {A} err w.

Definition store_of {A : Type} (r : result A) : A :=
  match r with Returned w => w | Threw _ w => w end.

Definition threw {A : Type} (r : result A) : bool :=
  match r with Returned _ => false | Threw _ _ => true end.

(** ** [DOMTokenList]: the class list of an element, an ordered set *)

Module ClassList.

Definition contains (c : string) (cl : list string) : bool :=
  bool_decide (c ∈ cl).

Definition add (c : string) (cl : list string) : list string :=
  if contains c cl then cl else cl ++ [c].

Definition remove (c : string) (cl : list string) : list string :=
  filter (λ d, d ≠ c) cl.

Definition toggle (c : string) (force : bool) (cl : list string) : list string :=
  if force then add c cl else remove c cl.

End ClassList.

(** ** The [IntersectionObserver] subscription set *)

Module Observer.

Definition observe (el : elem) (obs : gset elem) : gset elem := {[el]} ∪ obs.

Definition unobserve (el : elem) (obs : gset elem) : gset elem := obs ∖ {[el]}.

End Observer.

(** ** [RobosexualityApp]: shared state *)

Module App.

(** [this.state] as the constructor builds it. *)
Definition initial_state : gmap string value :=
  <["currentSection" := VStr "home"]>
  (<["genderVersion" := VStr "male"]>
  (<["animationPlaying" := VBool false]>
  (<["scrollPosition" := VNum 0]>
  (<["isMenuOpen" := VBool false]> ∅)))).

(** [this.config]. *)
Definition scrollThreshold : Q := 100.
Definition intersectionThreshold : Q := 1 # 10.

(** [getState() { return { ...this.state } }] *)
Definition getState (state : gmap string value) : gmap string value := state.

(** [setState(newState) { this.state = { ...this.state, ...newState } }]:
    the later spread wins on a common key. *)
Definition setState (newState state : gmap string value) : gmap string value :=
  newState ∪ state.

End App.

(** ** [NavigationModule]: the link set and its active marker *)

Module Navigation.

Record Link : Type := { href : string; link_classes : list string }.

(** [updateActiveLink(sectionId)]: a toggle over the whole link set. *)
Definition updateActiveLink (sectionId : string) (links : list Link) : list Link :=
  map (λ link,
         let isActive := bool_decide (href link = "#" +:+ sectionId) in
         {| href := href link;
            link_classes :=
              ClassList.toggle "nav__link--active" isActive (link_classes link) |})
      links.

Definition is_active (link : Link) : bool :=
  ClassList.contains "nav__link--active" (link_classes link).

End Navigation.

(** ** [AnalyticsModule]: the event log *)

Module Analytics.

(** The fields of an event that come from the caller; the others
    (timestamp, session id, user agent, url, referrer) are read from the
    host when the event is built and no handler below looks at them. *)
Record Event : Type := {
  category : string;
  action : string;
  label : string;
  event_value : Q
}.

(** [trackEvent(category, action, label = '', value = 0)] pushes an event. *)
Definition trackEvent (c a l : string) (v : Q) (events : list Event) : list Event :=
  events ++ [{| category := c; action := a; label := l; event_value := v |}].

Definition trackSectionView (sectionId : string) : list Event → list Event :=
  trackEvent "Section" "View" sectionId 0.

End Analytics.

(** ** The section watcher *)

Module Sections.

(** The part of the application a section report touches: [this.state] and
    the two modules reached through [this.modules.get(..)?.]. *)
Record Core : Type := {
  state : gmap string value;
  navigation : option (list Navigation.Link);
  analytics : option (list Analytics.Event)
}.

Section Handler.
(** The [id] attribute of an element; the handlers never write it. *)
Variable id_of : elem → string.

(** The body of the [forEach] callback. *)
Definition on_entry (app : Core) (entry : Entry) : Core :=
  if isIntersecting entry then
    let sectionId := id_of (target entry) in
    {| state := <["currentSection" := VStr sectionId]> (state app);
       navigation := Navigation.updateActiveLink sectionId <$> navigation app;
       analytics := Analytics.trackSectionView sectionId <$> analytics app |}
  else app.

Definition handleSectionIntersection (entries : list Entry) (app : Core) : Core :=
  foldl on_entry app entries.

(** The ids of the intersecting entries of a batch, in batch order. *)
Definition intersecting_ids (entries : list Entry) : list string :=
  map (λ e, id_of (target e)) (filter (λ e, isIntersecting e = true) entries).

End Handler.

(** The event [trackSectionView] logs for a section. *)
Definition section_event (sectionId : string) : Analytics.Event :=
  {| Analytics.category := "Section"; Analytics.action := "View";
     Analytics.label := sectionId; Analytics.event_value := 0 |}.

(** The application after the sections [ids] have been reported as
    intersecting, one after the other: the last of them is current, the
    navigation module has been told of each in turn, and so has the
    analytics module. *)
Definition after_ids (ids : list string) (app : Core) : Core :=
  {| state := match last ids with
              | Some s => <["currentSection" := VStr s]> (state app)
              | None => state app
              end;
     navigation :=
       (λ links, foldl (λ ls s, Navigation.updateActiveLink s ls) links ids)
       <$> navigation app;
     analytics :=
       (λ events : list Analytics.Event, (events ++ map section_event ids)%list)
       <$> analytics app |}.

End Sections.

(** ** The reveal watcher *)

Module Reveal.

(** The class lists of the page's elements and the subscription set of the
    observer stored under ['animations']. *)
Record Watcher : Type := {
  classes : gmap elem (list string);
  observed : gset elem
}.

(** What the callback does to the class list of an intersecting target. *)
Definition reveal (cl : list string) : list string :=
  let cl := ClassList.add "fade-in-up--visible" cl in
  let cl := if ClassList.contains "timeline__item" cl
            then ClassList.add "timeline__item--visible" cl else cl in
  let cl := if ClassList.contains "story-card" cl
            then ClassList.add "story-card--visible" cl else cl in
  if ClassList.contains "prediction-card" cl
  then ClassList.add "prediction-card--visible" cl else cl.

Definition on_entry (w : Watcher) (entry : Entry) : Watcher :=
  if isIntersecting entry then
    {| classes := alter reveal (target entry) (classes w);
       observed := observed w |}
  else w.

Definition handleAnimationIntersection (entries : list Entry) (w : Watcher) : Watcher :=
  foldl on_entry w entries.

(** The selector of [setupIntersectionObservers]:
    ['.timeline__item, .story-card, .prediction-card, .finding-card']. *)
Definition is_animated (cl : list string) : bool :=
  ClassList.contains "timeline__item" cl || ClassList.contains "story-card" cl
  || ClassList.contains "prediction-card" cl || ClassList.contains "finding-card" cl.

(** [setupIntersectionObservers], for the animation observer: every
    selected element is observed. *)
Definition setup (page : gmap elem (list string)) : Watcher :=
  {| classes := page;
     observed := dom (filter (λ kv, is_animated kv.2 = true) page) |}.

Definition class_list (w : Watcher) (el : elem) : list string :=
  default [] (classes w !! el).

Definition revealed (w : Watcher) (el : elem) : bool :=
  ClassList.contains "fade-in-up--visible" (class_list w el).

(** An element is settled when revealing it again changes nothing. *)
Definition settled (w : Watcher) (el : elem) : Prop :=
  reveal <$> classes w !! el = classes w !! el.

(** A run of the watcher: the batches the callback receives, in order. *)
Definition run (batches : list (list Entry)) (w : Watcher) : Watcher :=
  foldl (λ w b, handleAnimationIntersection b w) w batches.

(** The reading of the invariant of the data model that is tested below:
    a revealed element is no longer observed. *)
Definition unsubscribed_once_revealed (w : Watcher) : Prop :=
  ∀ el, revealed w el = true → el ∉ observed w.

(** A page with one story card and one heading. *)
Definition sample_page : gmap elem (list string) :=
  <[0%nat := ["story-card"]]> (<[1%nat := ["section__title"]]> ∅).

End Reveal.

(** ** The statistic counter ([animateStatistics], for one element) *)

Module Stat.

Local Open Scope Q_scope.

Definition duration : Q := 2000.

(** [stat.textContent]: the markup's own text until the animation writes a
    number. *)
Inductive Text : Type :=
| Markup
| Number (n : Z).

(** The closure [animateStatistics] builds for one [.stat__number]
    element and the observer it creates for it.  [target_value] is
    [parseInt(stat.dataset.target)] when that is an integer; [scheduled]
    counts the [animate] callbacks waiting for the next frame; [starts]
    is a ghost counter of the count-ups the observer callback has
    requested. *)
Record Counter : Type := {
  el : elem;
  target_value : Z;
  startTime : Q;
  textContent : Text;
  observed : gset elem;
  scheduled : nat;
  starts : nat
}.

Definition set_text (t : Text) (c : Counter) : Counter :=
  {| el := el c; target_value := target_value c; startTime := startTime c;
     textContent := t; observed := observed c; scheduled := scheduled c;
     starts := starts c |}.

(** [requestAnimationFrame(animate)] *)
Definition request_frame (c : Counter) : Counter :=
  {| el := el c; target_value := target_value c; startTime := startTime c;
     textContent := textContent c; observed := observed c;
     scheduled := S (scheduled c); starts := starts c |}.

Definition clear_frames (c : Counter) : Counter :=
  {| el := el c; target_value := target_value c; startTime := startTime c;
     textContent := textContent c; observed := observed c;
     scheduled := 0; starts := starts c |}.

(** [animateStatistics], for the element [stat]: the closure is built and
    the element is observed. *)
Definition arm (stat : elem) (target : Z) (now : Q) : Counter :=
  {| el := stat; target_value := target; startTime := now;
     textContent := Markup; observed := Observer.observe stat ∅;
     scheduled := 0; starts := 0 |}.

(** One call of the closure [animate(currentTime)].  The arithmetic is
    that of the exact rationals, with [Math.pow(v, 4)] the exact fourth
    power.  In doubles the product under [Math.floor] can fall just below
    a whole number that the exact product reaches (target 5000 at 400 ms:
    2951 for the exact 2952), so the number written before the end may be
    one lower than the one computed here; a step whose progress is 1 is
    exact in doubles too. *)
Definition animate (currentTime : Q) (c : Counter) : Counter :=
  let elapsed := currentTime - startTime c in
  let progress := Qmin (elapsed / duration) 1 in
  let easeOutQuart := 1 - (1 - progress) ^ 4 in
  let current := Qfloor (inject_Z (target_value c) * easeOutQuart) in
  let c := set_text (Number current) c in
  if Qltb progress 1 then request_frame c
  else set_text (Number (target_value c)) c.

(** The body of the observer callback's [forEach]. *)
Definition on_entry (c : Counter) (entry : Entry) : Counter :=
  if isIntersecting entry then
    {| el := el c; target_value := target_value c; startTime := startTime c;
       textContent := textContent c;
       observed := Observer.unobserve (target entry) (observed c);
       scheduled := S (scheduled c); starts := S (starts c) |}
  else c.

Definition observer_callback (entries : list Entry) (c : Counter) : Counter :=
  foldl on_entry c entries.

(** An animation frame: the callbacks requested before it are run, those
    they request wait for the next one. *)
Definition frame (currentTime : Q) (c : Counter) : Counter :=
  Nat.iter (scheduled c) (animate currentTime) (clear_frames c).

(** What the visibility primitive may hand to a callback: entries for
    targets the observer observes, one per target. *)
Definition reportable (obs : gset elem) (batch : list Entry) : Prop :=
  NoDup (target <$> batch) ∧ Forall (λ e, target e ∈ obs) batch.

#[global] Instance reportable_dec obs batch : Decision (reportable obs batch).
Proof. unfold reportable. apply _. Defined.

Inductive event : Type :=
| Report (batch : list Entry)
| Frame (currentTime : Q).

Definition step (c : Counter) (ev : event) : option Counter :=
  match ev with
  | Report batch =>
      if decide (reportable (observed c) batch)
      then Some (observer_callback batch c) else None
  | Frame t => Some (frame t c)
  end.

Fixpoint run (evs : list event) (c : Counter) : option Counter :=
  match evs with
  | [] => Some c
  | ev :: evs => match step c ev with Some c' => run evs c' | None => None end
  end.

(** What holds of a counter from the moment it is armed: either it still
    observes its element and has started nothing, or it has started once
    and observes nothing. *)
Definition armed_invariant (stat : elem) (T : Z) (now : Q) (c : Counter) : Prop :=
  el c = stat ∧ target_value c = T ∧ startTime c = now
  ∧ ((starts c = 0%nat ∧ observed c = {[stat]})
     ∨ (starts c = 1%nat ∧ observed c = ∅)).

(** The count-up in the words of the specification. *)
Definition clamp (v lo hi : Q) : Q := Qmax lo (Qmin v hi).

Definition eased_value (target : Z) (elapsed : Q) : Z :=
  let p := clamp (elapsed / 2000) 0 1 in
  Qfloor (inject_Z target * (1 - (1 - p) ^ 4)).

(** A counter for the target 100, armed at time 0, whose element is
    reported visible and which has then seen two frames. *)
Definition sample_trace : list event :=
  [Report [{| target := 0%nat; isIntersecting := true |}]; Frame 500; Frame 1000].

Definition sample_counter : Counter :=
  default (arm 0%nat 100 0) (run sample_trace (arm 0%nat 100 0)).

(** The element of a counter is reported visible for the first time three
    seconds after the counter was armed, and the first frame after that
    comes at 3016. *)
Definition seen_late : list event :=
  [Report [{| target := 0%nat; isIntersecting := true |}]; Frame 3016].

End Stat.

(** ** The particle field ([initializeParticles], [drawConnections]) *)

Module Particles.

Local Open Scope Q_scope.

(** [canvas.width] and [canvas.height] are unsigned integers. *)
Record Canvas : Type := { width : N; height : N }.

Definition num (n : N) : Q := inject_Z (Z.of_N n).

Record Particle : Type := {
  x : Q; y : Q; vx : Q; vy : Q; size : Q; opacity : Q
}.

(** The calls made on the 2D context. *)
Inductive Draw : Type :=
| ClearRect (x y w h : Q)
| Save
| Restore
| GlobalAlpha (a : Q)
| FillStyle (colour : string)
| StrokeStyle (colour : string)
| LineWidth (w : Q)
| BeginPath
| Arc (x y r a0 a1 : Q)
| Fill
| MoveTo (x y : Q)
| LineTo (x y : Q)
| Stroke.

Definition particleCount : nat := 50.
Definition maxDistance : Q := 100.

Section WithHost.
Context `{Host}.

(** [new Particle()]: six calls of [Math.random], the first of them being
    call number [k]. *)
Definition new_Particle (canvas : Canvas) (k : nat) : Particle :=
  {| x := Math_random k * num (width canvas);
     y := Math_random (k + 1) * num (height canvas);
     vx := (Math_random (k + 2) - (1 # 2)) * (1 # 2);
     vy := (Math_random (k + 3) - (1 # 2)) * (1 # 2);
     size := Math_random (k + 4) * 2 + 1;
     opacity := Math_random (k + 5) * (1 # 2) + (2 # 10) |}.

(** [for (let i = 0; i < n; i++) particles.push(new Particle())] *)
Fixpoint spawn (canvas : Canvas) (n k : nat) : list Particle :=
  match n with
  | O => []
  | S n => new_Particle canvas k :: spawn canvas n (k + 6)
  end.

(** [Particle.update()] *)
Definition update (canvas : Canvas) (p : Particle) : Particle :=
  let x' := x p + vx p in
  let y' := y p + vy p in
  {| x := x'; y := y';
     vx := if Qltb x' 0 || Qltb (num (width canvas)) x' then vx p * -1 else vx p;
     vy := if Qltb y' 0 || Qltb (num (height canvas)) y' then vy p * -1 else vy p;
     size := size p; opacity := opacity p |}.

(** [Particle.draw()] *)
Definition draw (p : Particle) : list Draw :=
  [Save; GlobalAlpha (opacity p); FillStyle "#00FFFF"; BeginPath;
   Arc (x p) (y p) (size p) 0 (Math_PI * 2); Fill; Restore].

Definition distance (p q : Particle) : Q :=
  let dx := x p - x q in
  let dy := y p - y q in
  Math_sqrt (dx * dx + dy * dy).

Definition line_opacity (p q : Particle) : Q :=
  (maxDistance - distance p q) / maxDistance * (2 # 10).

Definition line (p q : Particle) : list Draw :=
  [Save; GlobalAlpha (line_opacity p q); StrokeStyle "#00FFFF";
   LineWidth (1 # 2); BeginPath; MoveTo (x p) (y p); LineTo (x q) (y q);
   Stroke; Restore].

(** The body of the inner loop of [drawConnections], at indices [i], [j]. *)
Definition connect (particles : list Particle) (i j : nat) : list Draw :=
  match particles !! i, particles !! j with
  | Some p, Some q => if Qltb (distance p q) maxDistance then line p q else []
  | _, _ => []
  end.

(** [drawConnections(ctx, particles)]: [i] from 0, [j] from [i + 1]. *)
Definition drawConnections (particles : list Particle) : list Draw :=
  let n := length particles in
  flat_map (λ i, flat_map (connect particles i) (seq (S i) (n - S i))) (seq 0 n).

(** One run of the closure [animate], up to its call of
    [requestAnimationFrame]: the particles after it, and the calls made on
    the context. *)
Definition animate (canvas : Canvas) (particles : list Particle)
  : list Particle * list Draw :=
  let cleared := [ClearRect 0 0 (num (width canvas)) (num (height canvas))] in
  let '(particles', drawn) :=
    foldl (λ (acc : list Particle * list Draw) particle,
             let p' := update canvas particle in
             ((acc.1 ++ [p'])%list, (acc.2 ++ draw p')%list))
          ([], cleared) particles in
  (particles', (drawn ++ drawConnections particles')%list).

(** The part [tick()] of an iteration, and the part [render()]. *)
Definition tick (canvas : Canvas) (particles : list Particle) : list Particle :=
  map (update canvas) particles.

Definition render (canvas : Canvas) (particles : list Particle) : list Draw :=
  ClearRect 0 0 (num (width canvas)) (num (height canvas))
  :: flat_map draw particles ++ drawConnections particles.

(** The unordered pairs of a particle list, in the order of the loops. *)
Fixpoint pairs (particles : list Particle) : list (Particle * Particle) :=
  match particles with
  | [] => []
  | p :: rest => map (pair p) rest ++ pairs rest
  end.

Definition near (pq : Particle * Particle) : bool :=
  Qltb (distance pq.1 pq.2) maxDistance.



(** What the connection pass draws for one pair. *)
Definition pair_line (pq : Particle * Particle) : list Draw :=
  if near pq then line pq.1 pq.2 else [].

(** The two axes of the surface, to speak of either. *)
Inductive axis : Type := X | Y.

Definition pos (a : axis) (p : Particle) : Q :=
  match a with X => x p | Y => y p end.

Definition vel (a : axis) (p : Particle) : Q :=
  match a with X => vx p | Y => vy p end.

Definition extent (a : axis) (canvas : Canvas) : Q :=
  match a with X => num (width canvas) | Y => num (height canvas) end.

Definition within (a : axis) (canvas : Canvas) (p : Particle) : Prop :=
  0 <= pos a p <= extent a canvas.

(** The particle is about to cross a bound of the axis: the position its
    velocity takes it to lies outside. *)
Definition crosses (a : axis) (canvas : Canvas) (p : Particle) : bool :=
  Qltb (pos a p + vel a p) 0 || Qltb (extent a canvas) (pos a p + vel a p).

(** The value on [lo, hi) that a draw [r] of [0, 1) gives when it is
    spread uniformly. *)
Definition uniform (lo hi r : Q) : Q := lo + r * (hi - lo).

Definition in_ranges (canvas : Canvas) (p : Particle) : Prop :=
  (0 <= x p <= num (width canvas) ∧ 0 <= y p <= num (height canvas))
  ∧ (- (1 # 4) <= vx p <= 1 # 4 ∧ - (1 # 4) <= vy p <= 1 # 4)
  ∧ 1 <= size p <= 3
  ∧ (2 # 10) <= opacity p <= (7 # 10).

(** The fields of [p] are the six draws starting at call [k], each spread
    uniformly over the range of its field. *)
Definition drawn_uniformly (canvas : Canvas) (k : nat) (p : Particle) : Prop :=
  x p == uniform 0 (num (width canvas)) (Math_random k)
  ∧ y p == uniform 0 (num (height canvas)) (Math_random (k + 1))
  ∧ vx p == uniform (- (1 # 4)) (1 # 4) (Math_random (k + 2))
  ∧ vy p == uniform (- (1 # 4)) (1 # 4) (Math_random (k + 3))
  ∧ size p == uniform 1 3 (Math_random (k + 4))
  ∧ opacity p == uniform (2 # 10) (7 # 10) (Math_random (k + 5)).

End WithHost.

Definition is_fill (d : Draw) : bool := match d with Fill => true | _ => false end.
Definition is_stroke (d : Draw) : bool := match d with Stroke => true | _ => false end.
Definition is_clear (d : Draw) : bool := match d with ClearRect _ _ _ _ => true | _ => false end.

(** The calls that put ink on the surface. *)
Definition is_ink (d : Draw) : bool := is_fill d || is_stroke d.

Definition count (f : Draw → bool) (log : list Draw) : nat :=
  length (filter (λ d, f d = true) log).

(** A particle a quarter of a unit away from crossing the left bound. *)
Definition sample_particle : Particle :=
  {| x := 1 # 10; y := 75; vx := - (1 # 4); vy := 1 # 8; size := 2; opacity := 1 # 2 |}.

Definition inside (canvas : Canvas) (p : Particle) : Prop :=
  0 <= x p <= num (width canvas) ∧ 0 <= y p <= num (height canvas).


End Particles.

(** ** The frame loop: [initializeParticles], [pauseAnimations],
       [resumeAnimations], [updateParticles] and the host's frame callbacks *)

Module Loop.

Import Particles.

(** What one activation of [initializeParticles] closes over: the canvas
    it found and its own [particles] array. *)
Record System : Type := { sys_canvas : Canvas; particles : list Particle }.

(** [canvas] is the element [document.querySelector('.hero__particles')]
    finds, with the size [resizeCanvas] gives it; [next_handle] is the
    handle the next [requestAnimationFrame] returns (the host counts from
    1); [callbacks] is the host's list of animation frame callbacks, each
    the [animate] closure of the system with that index;
    [particleAnimationId] is the property of the application object,
    [None] while it is undefined; [surface] is the calls made on the
    context. *)
Record World : Type := {
  canvas : option Canvas;
  random_calls : nat;
  next_handle : nat;
  callbacks : list (nat * nat);
  systems : list System;
  particleAnimationId : option nat;
  surface : list Draw
}.

Definition set_callbacks (cbs : list (nat * nat)) (w : World) : World :=
  {| canvas := canvas w; random_calls := random_calls w;
     next_handle := next_handle w; callbacks := cbs; systems := systems w;
     particleAnimationId := particleAnimationId w; surface := surface w |}.

Definition set_particleAnimationId (id : option nat) (w : World) : World :=
  {| canvas := canvas w; random_calls := random_calls w;
     next_handle := next_handle w; callbacks := callbacks w;
     systems := systems w; particleAnimationId := id; surface := surface w |}.

(** [if (this.particleAnimationId)]: undefined and 0 are falsy. *)
Definition truthy (id : option nat) : bool :=
  match id with
  | None => false
  | Some h => negb (Nat.eqb h 0)
  end.

(** [cancelAnimationFrame(handle)] *)
Definition cancelAnimationFrame (handle : nat) (w : World) : World :=
  set_callbacks (filter (λ cb, cb.1 ≠ handle) (callbacks w)) w.

Section WithHost.
Context `{Host}.

(** The closure [animate] of system [s]: one iteration, which ends by
    requesting the next frame; the handle obtained is the closure's
    [animationId]. *)
Definition animate (s : nat) (w : World) : nat * World :=
  match systems w !! s with
  | None => (0%nat, w)
  | Some sys =>
      let '(particles', drawn) := Particles.animate (sys_canvas sys) (particles sys) in
      let animationId := next_handle w in
      (animationId,
       {| canvas := canvas w; random_calls := random_calls w;
          next_handle := S animationId;
          callbacks := (callbacks w ++ [(animationId, s)])%list;
          systems := <[s := {| sys_canvas := sys_canvas sys;
                               particles := particles' |}]> (systems w);
          particleAnimationId := particleAnimationId w;
          surface := (surface w ++ drawn)%list |})
  end.

(** [initializeParticles()] *)
Definition initializeParticles (w : World) : World :=
  match canvas w with
  | None => w
  | Some c =>
      let s := length (systems w) in
      let fresh := {| sys_canvas := c;
                      particles := spawn c particleCount (random_calls w) |} in
      let w1 :=
        {| canvas := canvas w;
           random_calls := (random_calls w + 6 * particleCount)%nat;
           next_handle := next_handle w; callbacks := callbacks w;
           systems := (systems w ++ [fresh])%list;
           particleAnimationId := particleAnimationId w;
           surface := surface w |} in
      let '(animationId, w2) := animate s w1 in
      set_particleAnimationId (Some animationId) w2
  end.

(** [pauseAnimations()] *)
Definition pauseAnimations (w : World) : World :=
  if truthy (particleAnimationId w) then
    match particleAnimationId w with
    | Some handle => cancelAnimationFrame handle w
    | None => w
    end
  else w.

(** [resumeAnimations()] *)
Definition resumeAnimations (w : World) : World :=
  if negb (truthy (particleAnimationId w)) then initializeParticles w else w.

(** [updateParticles()] *)
Definition updateParticles (w : World) : World :=
  if truthy (particleAnimationId w) then
    match particleAnimationId w with
    | Some handle => initializeParticles (cancelAnimationFrame handle w)
    | None => w
    end
  else w.

(** The host runs an animation frame: the callbacks in its list are taken
    off and called in order; what they request waits for the next frame. *)
Definition run_frame (w : World) : World :=
  foldl (λ w cb, (animate cb.2 w).2) (set_callbacks [] w) (callbacks w).

End WithHost.

(** Iterations of particle loops executed so far: each begins with the one
    [clearRect] of its body. *)
Definition iterations (w : World) : nat := count is_clear (surface w).

(** A loaded page, with or without the canvas, on which other animations
    have already used up [used] frame handles and no particle system has
    been started. *)
Definition loaded (used : nat) (c : option Canvas) : World :=
  {| canvas := c; random_calls := 0; next_handle := S used; callbacks := [];
     systems := []; particleAnimationId := None; surface := [] |}.

Definition fresh (c : option Canvas) : World := loaded 0 c.

(** A host for running the model: a square root rounded down to an integer
    and a cyclic sequence of random numbers in [0, 1). *)
Definition sample_host : Host :=
  {| Math_sqrt := λ q, inject_Z (Z.sqrt (Qfloor q));
     Math_random := λ i, Z.of_nat (i mod 7) # 8 |}.

Definition sample_canvas : Canvas := {| width := 300; height := 150 |}.

End Loop.

(** ** Entry points and their DOM targets *)

Module Page.

Local Open Scope Q_scope.

(** [hero] is the element ['.hero'] with the offset of its
    [translateY(..px)] transform ([None] before any is set); [hero_title]
    is ['.hero__title'] with its [style.opacity] and [style.transition];
    [title_frames] counts the frame callbacks [animateHero] has requested. *)
Record World : Type := {
  state : gmap string value;
  header : option (list string);
  hero : option (option Q);
  hero_title : option (string * string);
  title_frames : nat
}.

(** [handleParallax(scrollY)] *)
Definition handleParallax (scrollY : Q) (w : World) : World :=
  match hero w with
  | Some _ =>
      let parallaxSpeed := 1 # 2 in
      {| state := state w; header := header w;
         hero := Some (Some (scrollY * parallaxSpeed));
         hero_title := hero_title w; title_frames := title_frames w |}
  | None => w
  end.

(** [handleScroll()], with [scrollY] the value of [window.pageYOffset].
    Reading [header.classList] of a null [header] raises a [TypeError]. *)
Definition handleScroll (scrollY : Q) (w : World) : result World :=
  let w1 := {| state := <["scrollPosition" := VNum scrollY]> (state w);
               header := header w; hero := hero w;
               hero_title := hero_title w; title_frames := title_frames w |} in
  match header w1 with
  | None => Threw "TypeError" w1
  | Some cl =>
      let cl' := if Qltb App.scrollThreshold scrollY
                 then ClassList.add "header--scrolled" cl
                 else ClassList.remove "header--scrolled" cl in
      Returned (handleParallax scrollY
                  {| state := state w1; header := Some cl'; hero := hero w1;
                     hero_title := hero_title w1; title_frames := title_frames w1 |})
  end.

(** The scroll handler of the fallback script ([initScroll]), which has no
    application state: only the class list of the header. *)
Definition fallback_handleScroll (scrollY : Q) (header : option (list string))
  : result (option (list string)) :=
  match header with
  | Some cl =>
      Returned (Some (if Qltb 100 scrollY
                      then ClassList.add "header--scrolled" cl
                      else ClassList.remove "header--scrolled" cl))
  | None => Returned None
  end.

(** [animateHero()] *)
Definition animateHero (w : World) : World :=
  match hero_title w with
  | Some (_, transition) =>
      {| state := state w; header := header w; hero := hero w;
         hero_title := Some ("0", transition);
         title_frames := S (title_frames w) |}
  | None => w
  end.

(** [FormModule]: the fields its [init] sets up. *)
Record Validator : Type := {
  required : bool;
  minLength : option nat;
  maxLength : option nat;
  pattern : option string;
  message : string
}.

(** [form] is the element with id ['contact-form'], given by the ids its
    fields name in [aria-describedby] that exist in the document;
    [listening] tells whether [bindEvents] has run; [alerts] is the set
    of error elements given the role ['alert']. *)
Record FormModule : Type := {
  form : option (list string);
  validators : gmap string Validator;
  listening : bool;
  alerts : gset string
}.

Definition setupValidators (vs : gmap string Validator) : gmap string Validator :=
  <["message" := {| required := true; minLength := Some 10%nat;
                    maxLength := Some 1000%nat; pattern := None;
                    message := "Message must be between 10 and 1000 characters" |}]>
  (<["subject" := {| required := true; minLength := None; maxLength := None;
                     pattern := None;
                     message := "Please select a research area" |}]>
  (<["email" := {| required := true; minLength := None; maxLength := None;
                   pattern := Some "^[^\s@]+@[^\s@]+\.[^\s@]+$";
                   message := "Please enter a valid email address" |}]>
  (<["name" := {| required := true; minLength := Some 2%nat; maxLength := None;
                  pattern := Some "^[a-zA-Z\s]+$";
                  message := "Name must contain only letters and spaces, minimum 2 characters" |}]>
   vs))).

(** [FormModule.init()] *)
Definition form_init (m : FormModule) : FormModule :=
  match form m with
  | None => m
  | Some described =>
      {| form := form m; validators := setupValidators (validators m);
         listening := true;
         alerts := list_to_set described ∪ alerts m |}
  end.

(** A page without header, hero, title: only the state of the constructor. *)
Definition bare : World :=
  {| state := App.initial_state; header := None; hero := None;
     hero_title := None; title_frames := 0 |}.

(** The form module of a page without contact form, as the constructor
    leaves it before [init]. *)
Definition no_form : FormModule :=
  {| form := None; validators := ∅; listening := false; alerts := ∅ |}.

(** The reading of "every entry point is a no-op when its target is
    absent" for scroll handling, whose targets are the header and the
    hero. *)
Definition scroll_is_no_op_when_absent (scrollY : Q) (w : World) : Prop :=
  header w = None → handleScroll scrollY w = Returned w.

End Page.

(** ** Truthiness of a value, and the string of a boolean *)

(** [!!v]: [undefined], [false], 0 and the empty string are falsy. *)
Definition truthy_value (v : value) : bool :=
  match v with
  | VUndefined => false
  | VBool b => b
  | VNum n => negb (Qeq_bool n 0)
  | VStr s => negb (bool_decide (s = ""))
  end.

(** Reading a property of [this.state]: a missing key reads [undefined]. *)
Definition read (state : gmap string value) (key : string) : value :=
  default VUndefined (state !! key).

(** [b.toString()] *)
Definition bool_to_string (b : bool) : string := if b then "true" else "false".

(** ** [NavigationModule]: the mobile menu *)

Module Menu.

(** [menu] is the class list of the element with id ['nav-menu'], [toggle]
    the [aria-expanded] attribute of the element with id ['nav-toggle']
    ([Some None] while the attribute is not set); either element may be
    missing.  [overflow] is [document.body.style.overflow]. *)
Record Nav : Type := {
  state : gmap string value;
  menu : option (list string);
  toggle : option (option string);
  overflow : string
}.

(** [toggleMobileMenu()] *)
Definition toggleMobileMenu (n : Nav) : Nav :=
  let isOpen := negb (truthy_value (read (state n) "isMenuOpen")) in
  {| state := App.setState {["isMenuOpen" := VBool isOpen]} (state n);
     menu := ClassList.toggle "nav__list--active" isOpen <$> menu n;
     toggle := (λ _, Some (bool_to_string isOpen)) <$> toggle n;
     overflow := if isOpen then "hidden" else "" |}.

(** [closeMobileMenu()] *)
Definition closeMobileMenu (n : Nav) : Nav :=
  if truthy_value (read (state n) "isMenuOpen") then
    {| state := App.setState {["isMenuOpen" := VBool false]} (state n);
       menu := ClassList.remove "nav__list--active" <$> menu n;
       toggle := (λ _, Some "false") <$> toggle n;
       overflow := "" |}
  else n.

(** [handleResize()], with [innerWidth] the value of [window.innerWidth]. *)
Definition handleResize (innerWidth : Q) (n : Nav) : Nav :=
  if Qltb 768 innerWidth && truthy_value (read (state n) "isMenuOpen")
  then closeMobileMenu n else n.

(** The handler of a key press on the document ([bindEvents]). *)
Definition on_keydown (key : string) (n : Nav) : Nav :=
  if bool_decide (key = "Escape") && truthy_value (read (state n) "isMenuOpen")
  then closeMobileMenu n else n.

(** [setupAccessibility()], as far as the toggle goes. *)
Definition setupAccessibility (n : Nav) : Nav :=
  {| state := state n; menu := menu n;
     toggle := (λ _, Some "false") <$> toggle n;
     overflow := overflow n |}.

(** What the user does to the menu. *)
Inductive action : Type :=
| Toggle
| Close
| Resize (innerWidth : Q)
| Key (key : string).

Definition act (n : Nav) (a : action) : Nav :=
  match a with
  | Toggle => toggleMobileMenu n
  | Close => closeMobileMenu n
  | Resize width => handleResize width n
  | Key key => on_keydown key n
  end.

Definition is_open (n : Nav) : bool := truthy_value (read (state n) "isMenuOpen").

(** The page shows what the state says: the menu carries the active class,
    the toggle announces itself expanded and the body is locked exactly
    when [isMenuOpen] holds. *)
Definition in_step (n : Nav) : Prop :=
  state n !! "isMenuOpen" = Some (VBool (is_open n))
  ∧ match menu n with
    | Some cl => ClassList.contains "nav__list--active" cl = is_open n
    | None => True
    end
  ∧ match toggle n with
    | Some a => a = Some (bool_to_string (is_open n))
    | None => True
    end
  ∧ overflow n = (if is_open n then "hidden" else "").

(** The navigation as the constructors leave it on a page with both
    elements. *)
Definition sample : Nav :=
  {| state := App.initial_state; menu := Some ["nav__list"];
     toggle := Some (Some "false"); overflow := "" |}.

End Menu.

(** ** The count-up, read off [animate] *)

Module CountUp.

Local Open Scope Q_scope.

(** The progress [animate] computes at the time [t]. *)
Definition progress_at (c : Stat.Counter) (t : Q) : Q :=
  Qmin ((t - Stat.startTime c) / Stat.duration) 1.

(** The number [animate] leaves in the element at a given progress. *)
Definition shown (T : Z) (progress : Q) : Z :=
  if Qle_bool 1 progress then T
  else Qfloor (inject_Z T * (1 - (1 - progress) ^ 4)).

(** A counter of target 100, armed at time 0, whose count-up has been
    requested. *)
Definition requested : Stat.Counter :=
  Stat.observer_callback [{| target := 0%nat; isIntersecting := true |}]
    (Stat.arm 0%nat 100 0).

End CountUp.

(** ** Particles between the bounds *)

Module Bounds.

Import Particles.
Local Open Scope Q_scope.

(** The state of a particle on one axis, from the moment it is within the
    bounds: within them, or one tick away from being back within them. *)
Definition returning (a : axis) (canvas : Canvas) (p : Particle) : Prop :=
  within a canvas p ∨ 0 <= pos a p + vel a p <= extent a canvas.

(** [update] reads [canvas.width] and [canvas.height] at every tick, and
    [resizeCanvas] may have changed them since the tick before: the ticks
    of a particle, tick number [i] reading the size [sizes !! i]. *)
Definition resized_ticks (sizes : list Canvas) (p : Particle) : Particle :=
  foldl (λ p canvas, update canvas p) p sizes.

(** The size the last tick read, [canvas] when there was none. *)
Definition last_size (canvas : Canvas) (sizes : list Canvas) : Canvas :=
  default canvas (last sizes).

(** From [canvas] on, no resize makes the surface shorter along [a]. *)
Fixpoint never_shrinks (a : axis) (canvas : Canvas) (sizes : list Canvas) : Prop :=
  match sizes with
  | [] => True
  | next :: rest => extent a canvas <= extent a next ∧ never_shrinks a next rest
  end.

End Bounds.

(** ** The loops the host keeps waiting *)

Module Loops.

(** Every callback of the world names a system that exists. *)
Definition loops_live (w : Loop.World) : Prop :=
  Forall (λ cb, cb.2 < length (Loop.systems w)) (Loop.callbacks w).

(** The sample page after its particles have been initialized and one
    frame has run. *)
Definition after_one_frame : Loop.World :=
  @Loop.run_frame Loop.sample_host
    (@Loop.initializeParticles Loop.sample_host
       (Loop.loaded 0 (Some Loop.sample_canvas))).

End Loops.

(** ** [AnimationModule]: frames, play and pause *)

Module Animation.

(** [v === s] for a string literal [s]. *)
Definition is_string (v : value) (s : string) : bool :=
  match v with
  | VStr x => bool_decide (x = s)
  | _ => false
  end.

(** [state] is the state of the application; [intervals_made] counts the
    calls of [setInterval] so far, the host handing out the handles 1, 2,
    ...; [intervals] is the host's list of running intervals, each of them
    calling [nextFrame]; [frames] is the class lists of the ['.frame']
    elements and [placeholders] the texts of the ['.frame-placeholder']
    elements, in document order; [playButton] and [pauseButton] are the
    [disabled] flags of the two buttons, where they exist. *)
Record Player : Type := {
  state : gmap string value;
  currentFrame : nat;
  isPlaying : bool;
  animationInterval : option nat;
  intervals_made : nat;
  intervals : list nat;
  frames : list (list string);
  placeholders : list string;
  playButton : option bool;
  pauseButton : option bool;
  analytics : option (list Analytics.Event)
}.

Definition set_frames (cf : nat) (fs : list (list string)) (ps : list string)
    (m : Player) : Player :=
  {| state := state m; currentFrame := cf; isPlaying := isPlaying m;
     animationInterval := animationInterval m;
     intervals_made := intervals_made m; intervals := intervals m;
     frames := fs; placeholders := ps;
     playButton := playButton m; pauseButton := pauseButton m;
     analytics := analytics m |}.

Definition set_playing (b : bool) (m : Player) : Player :=
  {| state := App.setState {["animationPlaying" := VBool b]} (state m);
     currentFrame := currentFrame m; isPlaying := b;
     animationInterval := animationInterval m;
     intervals_made := intervals_made m; intervals := intervals m;
     frames := frames m; placeholders := placeholders m;
     playButton := playButton m; pauseButton := pauseButton m;
     analytics := analytics m |}.

Definition set_buttons (play pause : option bool) (m : Player) : Player :=
  {| state := state m; currentFrame := currentFrame m; isPlaying := isPlaying m;
     animationInterval := animationInterval m;
     intervals_made := intervals_made m; intervals := intervals m;
     frames := frames m; placeholders := placeholders m;
     playButton := play; pauseButton := pause;
     analytics := analytics m |}.

(** The text [updateFrameContent] writes into placeholder number
    [frameNumber]. *)
Definition frame_text (current : nat) (genderVersion : value) (frameNumber : nat)
  : string :=
  let state := if bool_decide (frameNumber = current) then "Active" else "Inactive" in
  let version := if is_string genderVersion "female" then "Female" else "Male" in
  "Frame " +:+ pretty frameNumber +:+ ": " +:+ state +:+ " State ("
  +:+ version +:+ " Version)".

(** [updateFrameContent()] *)
Definition updateFrameContent (m : Player) : Player :=
  let genderVersion := read (state m) "genderVersion" in
  set_frames (currentFrame m) (frames m)
    (imap (λ index _, frame_text (currentFrame m) genderVersion (index + 1))
          (placeholders m))
    m.

(** [showFrame(frameNumber)] *)
Definition showFrame (frameNumber : nat) (m : Player) : Player :=
  updateFrameContent
    (set_frames frameNumber
       (imap (λ index cl,
                ClassList.toggle "frame--active"
                  (bool_decide (index + 1 = frameNumber)) cl)
             (frames m))
       (placeholders m) m).

(** [nextFrame()] *)
Definition nextFrame (m : Player) : Player :=
  let totalFrames := length (frames m) in
  let next := if bool_decide (totalFrames ≤ currentFrame m)%nat then 1
              else currentFrame m + 1 in
  showFrame next m.

(** [playAnimation()]: writing [disabled] on a button that is not there
    raises a [TypeError]. *)
Definition playAnimation (m : Player) : result Player :=
  if isPlaying m then Returned m
  else
    let m1 := set_playing true m in
    match playButton m1, pauseButton m1 with
    | None, _ => Threw "TypeError" m1
    | Some _, None => Threw "TypeError" (set_buttons (Some true) None m1)
    | Some _, Some _ =>
        let handle := S (intervals_made m1) in
        Returned
          {| state := state m1; currentFrame := currentFrame m1;
             isPlaying := isPlaying m1;
             animationInterval := Some handle;
             intervals_made := handle;
             intervals := intervals m1 ++ [handle];
             frames := frames m1; placeholders := placeholders m1;
             playButton := Some true; pauseButton := Some false;
             analytics :=
               Analytics.trackEvent "Animation" "Play" "Educational Simulation" 0
               <$> analytics m1 |}
    end.

(** [pauseAnimation()] *)
Definition pauseAnimation (m : Player) : result Player :=
  if negb (isPlaying m) then Returned m
  else
    let m1 := set_playing false m in
    match playButton m1, pauseButton m1 with
    | None, _ => Threw "TypeError" m1
    | Some _, None => Threw "TypeError" (set_buttons (Some false) None m1)
    | Some _, Some _ =>
        let cleared :=
          match animationInterval m1 with
          | Some handle =>
              if Nat.eqb handle 0 then (animationInterval m1, intervals m1)
              else (None, filter (λ h, h ≠ handle) (intervals m1))
          | None => (None, intervals m1)
          end in
        Returned
          {| state := state m1; currentFrame := currentFrame m1;
             isPlaying := isPlaying m1;
             animationInterval := cleared.1;
             intervals_made := intervals_made m1;
             intervals := cleared.2;
             frames := frames m1; placeholders := placeholders m1;
             playButton := Some false; pauseButton := Some true;
             analytics :=
               Analytics.trackEvent "Animation" "Pause" "Educational Simulation" 0
               <$> analytics m1 |}
    end.

(** A second goes by: every running interval calls [nextFrame]. *)
Definition second (m : Player) : Player :=
  Nat.iter (length (intervals m)) nextFrame m.

(** What happens to the player: a click on a button, or a second. *)
Inductive action : Type := Play | Pause | Second.

Definition act (m : Player) (a : action) : result Player :=
  match a with
  | Play => playAnimation m
  | Pause => pauseAnimation m
  | Second => Returned (second m)
  end.

(** A run stops at the first action that throws. *)
Fixpoint run (actions : list action) (m : Player) : result Player :=
  match actions with
  | [] => Returned m
  | a :: rest =>
      match act m a with
      | Returned m' => run rest m'
      | Threw e m' => Threw e m'
      end
  end.

(** The user goes on after an error: every action acts on what the one
    before it left behind. *)
Definition carry_on (actions : list action) (m : Player) : Player :=
  foldl (λ m a, store_of (act m a)) m actions.

(** What the user does on the page: one of the actions above, or a click
    on the frame of index [index], which [setupFrames] answers with
    [showFrame(index + 1)] for every frame of the page. *)
Inductive gesture : Type :=
| Do (a : action)
| ClickFrame (index : nat).

Definition respond (m : Player) (g : gesture) : Player :=
  match g with
  | Do a => store_of (act m a)
  | ClickFrame index =>
      if bool_decide (index < length (frames m))%nat then showFrame (index + 1) m
      else m
  end.

(** The user goes on after an error, as in [carry_on]. *)
Definition go_on (gestures : list gesture) (m : Player) : Player :=
  foldl respond m gestures.

Definition is_click (g : gesture) : bool :=
  match g with ClickFrame _ => true | Do _ => false end.

(** The clicks on frames among the gestures. *)
Definition clicks_only (gestures : list gesture) : list gesture :=
  filter (λ g, is_click g = true) gestures.

(** The player is stopped, or plays on the one interval it remembers. *)
Definition one_interval (m : Player) : Prop :=
  is_Some (playButton m) ∧ is_Some (pauseButton m)
  ∧ ((isPlaying m = false ∧ animationInterval m = None ∧ intervals m = [])
     ∨ (isPlaying m = true
        ∧ animationInterval m = Some (intervals_made m)
        ∧ intervals m = [intervals_made m]
        ∧ intervals_made m ≠ 0)).

(** The player as the constructor leaves it on a page with three frames
    and both buttons. *)
Definition sample : Player :=
  {| state := App.initial_state; currentFrame := 1; isPlaying := false;
     animationInterval := None; intervals_made := 0; intervals := [];
     frames := [["frame"; "frame--active"]; ["frame"]; ["frame"]];
     placeholders := [""; ""; ""];
     playButton := Some false; pauseButton := Some true;
     analytics := Some [] |}.

(** The same page without its pause button. *)
Definition sample_without_pause : Player :=
  set_buttons (Some false) None sample.

End Animation.

(** ** [FormModule]: validation and the submit button *)

(** The string functions of the host the form code calls: [s.trim()],
    [s.toUpperCase()] and [new RegExp(pattern).test(s)]. *)
Class StringHost : Type := {
  trim : string → string;
  toUpperCase : string → string;
  regex_test : string → string → bool
}.

Module Form.

(** A form control with a [name]: its value, the value the markup gave
    it, its class list and its [aria-invalid] attribute. *)
Record Field : Type := {
  name : string;
  value : string;
  defaultValue : string;
  field_classes : list string;
  aria_invalid : option string
}.

(** An element that shows the error of a field: its text and its
    [style.display]. *)
Record ErrorElement : Type := { error_text : string; display : string }.

(** The submit button: its class list, its [disabled] flag and the text
    of its ['.btn__text'] child, where it has one. *)
Record Button : Type := {
  btn_classes : list string;
  disabled : bool;
  btn_text : option string
}.

(** [fields] is the controls of the form that carry a name, in document
    order; [errors] is the elements of the document by id; [timers]
    counts the pending resets of the button. *)
Record FormState : Type := {
  fields : list Field;
  errors : gmap string ErrorElement;
  button : option Button;
  validators : gmap string Page.Validator;
  analytics : option (list Analytics.Event);
  timers : nat
}.

(** [str.charAt(0)] and [str.slice(1)] *)
Definition charAt0 (str : string) : string :=
  match str with
  | EmptyString => ""
  | String c _ => String c ""
  end.

Definition slice1 (str : string) : string :=
  match str with
  | EmptyString => ""
  | String _ rest => rest
  end.

Section WithStrings.
Context `{StringHost}.

(** [capitalize(str)] *)
Definition capitalize (str : string) : string :=
  toUpperCase (charAt0 str) +:+ slice1 str.

(** The verdict of [validateField]: the flag and the message, before the
    field is updated. *)
Definition verdict (fieldName : string) (validator : Page.Validator)
    (raw : string) : bool * string :=
  let value := trim raw in
  let filled := negb (bool_decide (value = "")) in
  let too_short :=
    match Page.minLength validator with
    | Some m => negb (Nat.eqb m 0) && Nat.ltb (String.length value) m
    | None => false
    end in
  let too_long :=
    match Page.maxLength validator with
    | Some m => negb (Nat.eqb m 0) && Nat.ltb m (String.length value)
    | None => false
    end in
  let mismatch :=
    match Page.pattern validator with
    | Some p => negb (regex_test p value)
    | None => false
    end in
  if Page.required validator && negb filled
  then (false, capitalize fieldName +:+ " is required")
  else if filled && mismatch then (false, Page.message validator)
  else if filled && too_short then (false, Page.message validator)
  else if filled && too_long then (false, Page.message validator)
  else (true, "").

(** [updateFieldState(field, isValid, errorMessage)] *)
Definition updateFieldState (field : Field) (isValid : bool) (errorMessage : string)
    (errors : gmap string ErrorElement) : Field * gmap string ErrorElement :=
  ({| name := name field; value := value field;
      defaultValue := defaultValue field;
      field_classes := ClassList.toggle "field-error" (negb isValid) (field_classes field);
      aria_invalid := Some (bool_to_string (negb isValid)) |},
   alter (λ _, {| error_text := errorMessage;
                  display := if bool_decide (errorMessage = "") then "none"
                             else "block" |})
         (name field +:+ "-error") errors).

(** [validateField(field)] *)
Definition validateField (validators : gmap string Page.Validator) (field : Field)
    (errors : gmap string ErrorElement)
  : bool * (Field * gmap string ErrorElement) :=
  match validators !! name field with
  | None => (true, (field, errors))
  | Some validator =>
      let '(isValid, errorMessage) := verdict (name field) validator (value field) in
      (isValid, updateFieldState field isValid errorMessage errors)
  end.

(** The loop of [validateForm()] over the fields. *)
Fixpoint validate_all (validators : gmap string Page.Validator)
    (fields : list Field) (errors : gmap string ErrorElement)
  : bool * (list Field * gmap string ErrorElement) :=
  match fields with
  | [] => (true, ([], errors))
  | field :: rest =>
      let '(ok, (field', errors')) := validateField validators field errors in
      let '(oks, (rest', errors'')) := validate_all validators rest errors' in
      (if ok then oks else false, (field' :: rest', errors''))
  end.

(** [validateForm()] *)
Definition validateForm (fm : FormState) : bool * FormState :=
  let '(isValid, (fields', errors')) :=
    validate_all (validators fm) (fields fm) (errors fm) in
  (isValid,
   {| fields := fields'; errors := errors'; button := button fm;
      validators := validators fm; analytics := analytics fm;
      timers := timers fm |}).

End WithStrings.

(** [clearFieldError(field)] *)
Definition clearFieldError (field : Field) (errors : gmap string ErrorElement)
  : Field * gmap string ErrorElement :=
  ({| name := name field; value := value field;
      defaultValue := defaultValue field;
      field_classes := ClassList.remove "field-error" (field_classes field);
      aria_invalid := Some "false" |},
   alter (λ _, {| error_text := ""; display := "none" |})
         (name field +:+ "-error") errors).

(** The classes of the button that tell its state. *)
Definition state_classes : list string :=
  ["btn--loading"; "btn--success"; "btn--error"].

(** The tail of a [case] of [setSubmitState]: the flag, then the text,
    which throws when the button has no ['.btn__text']. *)
Definition finish (classes : list string) (flag : bool) (text : string)
    (b : Button) : result (option Button) :=
  match btn_text b with
  | Some _ =>
      Returned (Some {| btn_classes := classes; disabled := flag;
                        btn_text := Some text |})
  | None =>
      Threw "TypeError" (Some {| btn_classes := classes; disabled := flag;
                                 btn_text := None |})
  end.

(** [setSubmitState(state)]; the button may be missing. *)
Definition setSubmitState (state : string) (button : option Button)
  : result (option Button) :=
  match button with
  | None => Threw "TypeError" None
  | Some b =>
      let classes :=
        ClassList.remove "btn--error"
          (ClassList.remove "btn--success"
             (ClassList.remove "btn--loading" (btn_classes b))) in
      if bool_decide (state = "loading")
      then finish (ClassList.add "btn--loading" classes) true "Submitting..." b
      else if bool_decide (state = "success")
      then finish (ClassList.add "btn--success" classes) true "Message Sent!" b
      else if bool_decide (state = "error")
      then finish (ClassList.add "btn--error" classes) false "Failed - Try Again" b
      else if bool_decide (state = "default")
      then finish classes false "Submit Inquiry" b
      else Returned (Some {| btn_classes := classes; disabled := disabled b;
                             btn_text := btn_text b |})
  end.

Definition with_button (b : option Button) (fm : FormState) : FormState :=
  {| fields := fields fm; errors := errors fm; button := b;
     validators := validators fm; analytics := analytics fm;
     timers := timers fm |}.

(** [form.reset()]: every control goes back to the value of the markup. *)
Definition reset (fm : FormState) : FormState :=
  {| fields := map (λ f, {| name := name f; value := defaultValue f;
                            defaultValue := defaultValue f;
                            field_classes := field_classes f;
                            aria_invalid := aria_invalid f |}) (fields fm);
     errors := errors fm; button := button fm;
     validators := validators fm; analytics := analytics fm;
     timers := timers fm |}.

(** [trackFormSubmission('contact', result)] and the timer that follows. *)
Definition settled (success : bool) (fm : FormState) : FormState :=
  {| fields := fields fm; errors := errors fm; button := button fm;
     validators := validators fm;
     analytics :=
       Analytics.trackEvent "Form" "Submit" "contact" (if success then 1 else 0)
       <$> analytics fm;
     timers := S (timers fm) |}.

(** [submitForm()] resolves when the draw of [Math.random()] is above
    0.1 and rejects otherwise. *)
Definition submitForm (draw : Q) : bool := Qltb (1 # 10) draw.

(** The [catch] block of [handleSubmit]. *)
Definition submit_failed (fm : FormState) : result FormState :=
  match setSubmitState "error" (button fm) with
  | Returned b' => Returned (settled false (with_button b' fm))
  | Threw e b' => Threw e (with_button b' fm)
  end.

Section Submit.
Context `{StringHost}.

(** [handleSubmit(e)] up to its [await]: validation, the text of the
    button read, the loading state. *)
Definition submit_begin (fm : FormState) : result FormState :=
  let '(isValid, fm1) := validateForm fm in
  if negb isValid then Returned fm1
  else
    match button fm1 with
    | None => Threw "TypeError" fm1
    | Some b =>
        match btn_text b with
        | None => Threw "TypeError" fm1
        | Some _ =>
            match setSubmitState "loading" (button fm1) with
            | Returned b' => Returned (with_button b' fm1)
            | Threw _ b' => submit_failed (with_button b' fm1)
            end
        end
    end.

End Submit.

(** [handleSubmit(e)] after its [await], the promise of [submitForm]
    having settled on the draw [draw]. *)
Definition submit_settle (draw : Q) (fm : FormState) : result FormState :=
  if submitForm draw then
    match setSubmitState "success" (button fm) with
    | Returned b' => Returned (settled true (reset (with_button b' fm)))
    | Threw _ b' => submit_failed (with_button b' fm)
    end
  else submit_failed fm.

(** The timer set three seconds before fires. *)
Definition submit_timeout (fm : FormState) : result FormState :=
  match setSubmitState "default" (button fm) with
  | Returned b' =>
      Returned {| fields := fields fm; errors := errors fm; button := b';
                  validators := validators fm; analytics := analytics fm;
                  timers := pred (timers fm) |}
  | Threw e b' => Threw e (with_button b' fm)
  end.

(** The three removals of [setSubmitState]. *)
Definition strip (cl : list string) : list string :=
  ClassList.remove "btn--error"
    (ClassList.remove "btn--success" (ClassList.remove "btn--loading" cl)).

(** What the user sees of the button: its state classes, whether it is
    disabled, and its text. *)
Definition look (b : Button) : list string * bool * option string :=
  (filter (λ c, c ∈ state_classes) (btn_classes b), disabled b, btn_text b).

(** What the button looks like in each state; an unknown state leaves
    the flag and the text of [b]. *)
Definition state_look (state : string) (b : Button)
  : list string * bool * option string :=
  if bool_decide (state = "loading")
  then (["btn--loading"], true, Some "Submitting...")
  else if bool_decide (state = "success")
  then (["btn--success"], true, Some "Message Sent!")
  else if bool_decide (state = "error")
  then (["btn--error"], false, Some "Failed - Try Again")
  else if bool_decide (state = "default")
  then ([], false, Some "Submit Inquiry")
  else ([], disabled b, btn_text b).

(** A host for running the model: [trim] drops nothing, [toUpperCase]
    changes nothing and every pattern matches. *)
Definition sample_strings : StringHost :=
  {| trim := λ s, s; toUpperCase := λ s, s; regex_test := λ _ _, true |}.

(** A form with one field, a message long enough, and its button. *)
Definition sample : FormState :=
  {| fields := [{| name := "message"; value := "Hello, world";
                   defaultValue := ""; field_classes := [];
                   aria_invalid := None |}];
     errors := {["message-error" := {| error_text := ""; display := "none" |}]};
     button := Some {| btn_classes := ["btn"]; disabled := false;
                       btn_text := Some "Submit Inquiry" |};
     validators := Page.setupValidators ∅;
     analytics := Some [];
     timers := 0 |}.

(** The same form with a message that is too short. *)
Definition sample_short : FormState :=
  {| fields := [{| name := "message"; value := "Hello";
                   defaultValue := ""; field_classes := [];
                   aria_invalid := None |}];
     errors := errors sample; button := button sample;
     validators := validators sample; analytics := analytics sample;
     timers := timers sample |}.

End Form.

(** ** [toggleGenderVersion]: the version switch *)

Module Gender.

(** [player] is the application state with the animation module and the
    analytics module, [animation] tells whether the module ['animation'] is
    registered, [toggleSwitch] is the [aria-checked] attribute of the
    ['.toggle-switch'] element, [toggleLabel] the text of the label and
    [placeholderContent] the text of ['.placeholder-content p'], each where
    the element exists. *)
Record Toggle : Type := {
  player : Animation.Player;
  animation : bool;
  toggleSwitch : option (option string);
  toggleLabel : option string;
  placeholderContent : option string
}.

Definition set_player (p : Animation.Player) (g : Toggle) : Toggle :=
  {| player := p; animation := animation g; toggleSwitch := toggleSwitch g;
     toggleLabel := toggleLabel g; placeholderContent := placeholderContent g |}.

Definition set_state (st : gmap string value) (m : Animation.Player)
  : Animation.Player :=
  {| Animation.state := st;
     Animation.currentFrame := Animation.currentFrame m;
     Animation.isPlaying := Animation.isPlaying m;
     Animation.animationInterval := Animation.animationInterval m;
     Animation.intervals_made := Animation.intervals_made m;
     Animation.intervals := Animation.intervals m;
     Animation.frames := Animation.frames m;
     Animation.placeholders := Animation.placeholders m;
     Animation.playButton := Animation.playButton m;
     Animation.pauseButton := Animation.pauseButton m;
     Animation.analytics := Animation.analytics m |}.

Definition set_analytics (a : option (list Analytics.Event))
    (m : Animation.Player) : Animation.Player :=
  {| Animation.state := Animation.state m;
     Animation.currentFrame := Animation.currentFrame m;
     Animation.isPlaying := Animation.isPlaying m;
     Animation.animationInterval := Animation.animationInterval m;
     Animation.intervals_made := Animation.intervals_made m;
     Animation.intervals := Animation.intervals m;
     Animation.frames := Animation.frames m;
     Animation.placeholders := Animation.placeholders m;
     Animation.playButton := Animation.playButton m;
     Animation.pauseButton := Animation.pauseButton m;
     Animation.analytics := a |}.

(** [trackGenderToggle(version)] *)
Definition trackGenderToggle (version : string)
  : list Analytics.Event → list Analytics.Event :=
  Analytics.trackEvent "Interaction" "Gender Toggle" version 0.

Section WithStrings.
Context `{StringHost}.

(** [updateGenderVersion(version)] of the animation module *)
Definition updateGenderVersion (version : string) (g : Toggle) : Toggle :=
  {| player := Animation.updateFrameContent (player g);
     animation := animation g;
     toggleSwitch := toggleSwitch g;
     toggleLabel := toggleLabel g;
     placeholderContent :=
       (λ _, "Educational visualization system would be implemented here ("
             +:+ Form.capitalize version +:+ " Version)")
       <$> placeholderContent g |}.

(** [toggleGenderVersion()] *)
Definition toggleGenderVersion (g : Toggle) : Toggle :=
  let newVersion :=
    if Animation.is_string (read (Animation.state (player g)) "genderVersion") "male"
    then "female" else "male" in
  let g := set_player
             (set_state (App.setState {["genderVersion" := VStr newVersion]}
                           (Animation.state (player g)))
                        (player g)) g in
  let isChecked := bool_decide (newVersion = "female") in
  let g := {| player := player g; animation := animation g;
              toggleSwitch := (λ _, Some (bool_to_string isChecked))
                              <$> toggleSwitch g;
              toggleLabel :=
                (λ _, if isChecked then "Switch to Male Version"
                      else "Switch to Female Version") <$> toggleLabel g;
              placeholderContent := placeholderContent g |} in
  let g := if animation g then updateGenderVersion newVersion g else g in
  set_player
    (set_analytics (trackGenderToggle newVersion <$> Animation.analytics (player g))
                   (player g)) g.

End WithStrings.

(** The version the state holds, as the code reads it. *)
Definition version (g : Toggle) : value :=
  read (Animation.state (player g)) "genderVersion".

End Gender.

(** ** Timers: what [throttle] and [debounce] see of the host *)

Module Timers.

(** What happens around a wrapped function: it is called with an
    argument, the host runs the timer that is first in its list if that
    timer has fallen due, or time passes. *)
Inductive event (A : Type) : Type :=
| Call (a : A)
| Fire
| Wait (d : Q).
Arguments Call {A} a.
Arguments Fire {A}.
Arguments Wait {A} d.

(** The clock of the host never runs backwards. *)
Definition clock_forward {A : Type} (tr : list (event A)) : Prop :=
  Forall (λ e, match e with Wait d => (0 <= d)%Q | _ => True end) tr.

(** [setTimeout(f, delay)] at the time [now]: the timer falls due [delay]
    later, a negative delay counting as none. *)
Definition due_at (now delay : Q) : Q := (now + Qmax 0 delay)%Q.

End Timers.

(** ** [throttle(func, limit)] *)

Module Throttle.

Import Timers.

(** The closure of the returned function: [inThrottle] ([undefined] reads
    as [false]), the reset timers the host holds for it, by due time, and
    the clock.  [ran] lists the calls that reached [func], the most recent
    first, with the time of each. *)
Record Closure (A : Type) : Type := {
  inThrottle : bool;
  pending : list Q;
  now : Q;
  ran : list (Q * A)
}.
Arguments inThrottle {A} _.
Arguments pending {A} _.
Arguments now {A} _.
Arguments ran {A} _.

Section WithFunc.
Context {A : Type}.

(** [func], as far as the wrapper sees it: whether the call throws. *)
Variable throws : A → bool.
Variable limit : Q.

(** [throttle(func, limit)], called at the time [clock]. *)
Definition throttle (clock : Q) : Closure A :=
  {| inThrottle := false; pending := []; now := clock; ran := [] |}.

(** The returned function, called with [a]. *)
Definition throttled (a : A) (c : Closure A) : result (Closure A) :=
  if inThrottle c then Returned c
  else
    let called := {| inThrottle := inThrottle c; pending := pending c;
                     now := now c; ran := (now c, a) :: ran c |} in
    if throws a then Threw "func" called
    else Returned {| inThrottle := true;
                     pending := pending called ++ [due_at (now c) limit];
                     now := now c; ran := ran called |}.

(** The host runs the first timer if it has fallen due:
    [() => inThrottle = false]. *)
Definition fire (c : Closure A) : Closure A :=
  match pending c with
  | due :: rest =>
      if Qle_bool due (now c)
      then {| inThrottle := false; pending := rest; now := now c; ran := ran c |}
      else c
  | [] => c
  end.

Definition step (c : Closure A) (e : event A) : Closure A :=
  match e with
  | Call a => store_of (throttled a c)
  | Fire => fire c
  | Wait d => {| inThrottle := inThrottle c; pending := pending c;
                 now := (now c + d)%Q; ran := ran c |}
  end.

Definition run (tr : list (event A)) (c : Closure A) : Closure A :=
  foldl step c tr.

(** A call that reached [func] and returned is followed by the next one
    no earlier than [limit] later. *)
Fixpoint spaced (l : list (Q * A)) : Prop :=
  match l with
  | [] => True
  | later :: rest =>
      match rest with
      | [] => True
      | earlier :: _ =>
          (if throws earlier.2 then (earlier.1 <= later.1)%Q
           else (due_at earlier.1 limit <= later.1)%Q)
          ∧ spaced rest
      end
  end.

(** The wrapper is engaged exactly while its one timer waits, and that
    timer is the one set by the last call that reached [func]. *)
Definition engaged_invariant (c : Closure A) : Prop :=
  spaced (ran c)
  ∧ match ran c with
    | [] => inThrottle c = false ∧ pending c = []
    | last :: _ =>
        (last.1 <= now c)%Q
        ∧ if inThrottle c
          then throws last.2 = false ∧ pending c = [due_at last.1 limit]
          else pending c = []
               ∧ (throws last.2 = false → (due_at last.1 limit <= now c)%Q)
    end.

End WithFunc.

(** A function that throws on the argument 0; three scroll events within
    20 ms of each other, the host running the timer in between. *)
Definition sample_throws (n : nat) : bool := bool_decide (n = 0%nat).

Definition sample_trace : list (event nat) :=
  [Call 1%nat; Wait 5; Call 2%nat; Fire; Wait 15; Fire; Call 3%nat].

End Throttle.

(** ** [debounce(func, delay)] *)

Module Debounce.

Import Timers.

(** What is seen of a debounced function: its calls and the runs of
    [func], each with its time and arguments. *)
Inductive obs (A : Type) : Type :=
| Called (t : Q) (a : A)
| Ran (t : Q) (a : A).
Arguments Called {A} t a.
Arguments Ran {A} t a.

(** The closure of the returned function: [timeoutId], the timers the
    host holds for it (handle, due time and the arguments the callback
    captured), the number of handles the host has given out, and the
    clock.  [log] is what has been seen so far, the most recent first. *)
Record Closure (A : Type) : Type := {
  timeoutId : option nat;
  pending : list (nat * Q * A);
  made : nat;
  now : Q;
  log : list (obs A)
}.
Arguments timeoutId {A} _.
Arguments pending {A} _.
Arguments made {A} _.
Arguments now {A} _.
Arguments log {A} _.

Section WithFunc.
Context {A : Type}.
Variable delay : Q.

(** [clearTimeout(id)]: nothing happens for [undefined] or for a handle
    whose timer is gone. *)
Definition clearTimeout (id : option nat) (timers : list (nat * Q * A))
  : list (nat * Q * A) :=
  match id with
  | Some i => filter (λ p, p.1.1 ≠ i) timers
  | None => timers
  end.

(** [debounce(func, delay)], called at the time [clock]. *)
Definition debounce (clock : Q) : Closure A :=
  {| timeoutId := None; pending := []; made := 0; now := clock; log := [] |}.

(** The returned function, called with [a]. *)
Definition debounced (a : A) (c : Closure A) : Closure A :=
  let timers := clearTimeout (timeoutId c) (pending c) in
  let id := S (made c) in
  {| timeoutId := Some id;
     pending := timers ++ [(id, due_at (now c) delay, a)];
     made := id; now := now c;
     log := Called (now c) a :: log c |}.

(** The host runs the first timer if it has fallen due:
    [() => func.apply(this, args)]. *)
Definition fire (c : Closure A) : Closure A :=
  match pending c with
  | (_, due, a) :: rest =>
      if Qle_bool due (now c)
      then {| timeoutId := timeoutId c; pending := rest; made := made c;
              now := now c; log := Ran (now c) a :: log c |}
      else c
  | [] => c
  end.

Definition step (c : Closure A) (e : event A) : Closure A :=
  match e with
  | Call a => debounced a c
  | Fire => fire c
  | Wait d => {| timeoutId := timeoutId c; pending := pending c;
                 made := made c; now := (now c + d)%Q; log := log c |}
  end.

Definition run (tr : list (event A)) (c : Closure A) : Closure A :=
  foldl step c tr.

(** Every run of [func] comes straight after a call, has the arguments of
    that call, and comes no earlier than [delay] after it. *)
Fixpoint settled_runs (l : list (obs A)) : Prop :=
  match l with
  | [] => True
  | Called _ _ :: rest => settled_runs rest
  | Ran t a :: rest =>
      match rest with
      | Called t0 a0 :: _ => a0 = a ∧ (due_at t0 delay <= t)%Q
      | _ => False
      end
      ∧ settled_runs rest
  end.

(** The host holds at most one timer of the closure: the one set by the
    last call, while no later event has run or replaced it. *)
Definition single_timer (c : Closure A) : Prop :=
  settled_runs (log c)
  ∧ (pending c = []
     ∨ ∃ id t0 a rest,
         pending c = [(id, due_at t0 delay, a)]
         ∧ timeoutId c = Some id
         ∧ log c = Called t0 a :: rest).

End WithFunc.

End Debounce.

(** ** [setupLazyLoading]: images that wait for the viewport *)

Module LazyImages.

(** An [img] element: its [src] and [data-src] attributes and its class
    list. *)
Record Image : Type := {
  src : option string;
  data_src : option string;
  img_classes : list string
}.

(** The images of the page and the subscription set of the image
    observer. *)
Record Loader : Type := {
  images : gmap elem Image;
  observed : gset elem
}.

(** [img.src = img.dataset.src; img.classList.add('loaded')]: a missing
    [data-src] reads [undefined], which the assignment turns into a
    string. *)
Definition load (img : Image) : Image :=
  {| src := Some (default "undefined" (data_src img));
     data_src := data_src img;
     img_classes := ClassList.add "loaded" (img_classes img) |}.

Definition on_entry (l : Loader) (entry : Entry) : Loader :=
  if isIntersecting entry then
    {| images := alter load (target entry) (images l);
       observed := Observer.unobserve (target entry) (observed l) |}
  else l.

(** The callback of the image observer. *)
Definition callback (entries : list Entry) (l : Loader) : Loader :=
  foldl on_entry l entries.

(** [setupLazyLoading()]: [has_observer] is
    ['IntersectionObserver' in window]; the selector is ['img[data-src]']. *)
Definition setupLazyLoading (has_observer : bool) (page : gmap elem Image) : Loader :=
  let selected := filter (λ kv, is_Some (data_src kv.2)) page in
  if negb (Nat.eqb (size selected) 0) && has_observer
  then {| images := page;
          observed := foldr Observer.observe ∅ (map fst (map_to_list selected)) |}
  else {| images := page; observed := ∅ |}.

Definition run (batches : list (list Entry)) (l : Loader) : Loader :=
  foldl (λ l b, callback b l) l batches.

(** An image that has been loaded from [url]. *)
Definition loaded_from (url : string) (img : Image) : Prop :=
  data_src img = Some url ∧ src img = Some url
  ∧ ClassList.contains "loaded" (img_classes img) = true.

(** A page with one image that waits and one that does not. *)
Definition sample_page : gmap elem Image :=
  <[0%nat := {| src := None; data_src := Some "hero.jpg"; img_classes := [] |}]>
  (<[1%nat := {| src := Some "logo.svg"; data_src := None; img_classes := [] |}]> ∅).

End LazyImages.

(** ** The legacy script: [animateValue] *)

Module Legacy.

Local Open Scope Q_scope.

(** The closure of [step]: [startTimestamp] ([null] at first), the text
    of the element, and the number of frames requested so far. *)
Record Tween : Type := {
  startTimestamp : option Q;
  textContent : option Z;
  requested : nat
}.

(** [!startTimestamp]: [null] and 0 are falsy. *)
Definition unset (s : option Q) : bool :=
  match s with
  | None => true
  | Some t => Qeq_bool t 0
  end.


(** [step(timestamp)], for a [duration] that is not 0. *)
Definition step (start end_ duration timestamp : Q) (tw : Tween) : Tween :=
  let startTimestamp' :=
    if unset (startTimestamp tw) then timestamp
    else default timestamp (startTimestamp tw) in
  let progress := Qmin ((timestamp - startTimestamp') / duration) 1 in
  let value := Qfloor (progress * (end_ - start) + start) in
  {| startTimestamp := Some startTimestamp';
     textContent := Some value;
     requested := if Qltb progress 1 then S (requested tw) else requested tw |}.

(** The frames arrive at the times [ts], in this order. *)
Definition frames (start end_ duration : Q) (ts : list Q) (tw : Tween) : Tween :=
  foldl (λ tw t, step start end_ duration t tw) tw ts.

End Legacy.

(** * Properties *)

(** ** Class lists *)

Section ClassListFacts.
Import ClassList.
Implicit Types (c d : string) (cl : list string).

Lemma contains_true c cl : contains c cl = true ↔ c ∈ cl.
Proof. unfold contains. apply bool_decide_eq_true. Qed.

Lemma contains_false c cl : contains c cl = false ↔ c ∉ cl.
Proof. unfold contains. apply bool_decide_eq_false. Qed.

Lemma add_present c cl : c ∈ cl → add c cl = cl.
Proof. intros Hin. unfold add. by rewrite (proj2 (contains_true c cl) Hin). Qed.

Lemma elem_of_add c d cl : c ∈ add d cl ↔ c ∈ cl ∨ c = d.
Proof.
  unfold add. destruct (contains d cl) eqn:Hd.
  - apply contains_true in Hd. split; [tauto | intros [?| ->]; done].
  - rewrite elem_of_app, list_elem_of_singleton. tauto.
Qed.

Lemma add_add c cl : add c (add c cl) = add c cl.
Proof. apply add_present, elem_of_add. by right. Qed.

Lemma contains_add c d cl :
  contains c (add d cl) = contains c cl || bool_decide (c = d).
Proof.
  apply eq_true_iff_eq. rewrite orb_true_iff, !contains_true, bool_decide_eq_true.
  apply elem_of_add.
Qed.

Lemma NoDup_add c cl : NoDup cl → NoDup (add c cl).
Proof.
  intros Hnd. unfold add. destruct (contains c cl) eqn:Hc; [done |].
  apply contains_false in Hc. apply NoDup_app. split_and!; [done | | apply NoDup_singleton].
  intros d Hd Hd'. apply list_elem_of_singleton in Hd'. by subst.
Qed.

Lemma elem_of_remove c d cl : c ∈ remove d cl ↔ c ∈ cl ∧ c ≠ d.
Proof. unfold remove. rewrite list_elem_of_filter. tauto. Qed.

Lemma elem_of_toggle c d force cl :
  c ∈ toggle d force cl ↔ if force then c ∈ cl ∨ c = d else c ∈ cl ∧ c ≠ d.
Proof. destruct force; simpl; [apply elem_of_add | apply elem_of_remove]. Qed.

End ClassListFacts.

(** ** Shared state *)

(** C10: [setState(newState)] gives every key of [newState] the value
    [newState] has for it and leaves every other field of the state,
    among them [currentSection], [genderVersion], [animationPlaying],
    [scrollPosition] and [isMenuOpen], as it was. *)
Theorem setState_frame (state newState : gmap string value) (key : string) :
  App.setState newState state !! key =
    match newState !! key with
    | Some v => Some v
    | None => state !! key
    end.
Proof.
  unfold App.setState. rewrite lookup_union.
  by destruct (newState !! key), (state !! key).
Qed.

Lemma setState_dom (state newState : gmap string value) :
  dom (App.setState newState state) = dom newState ∪ dom state.
Proof. unfold App.setState. by rewrite dom_union_L. Qed.

Example setState_isMenuOpen :
  App.setState {["isMenuOpen" := VBool true]} App.initial_state
  = <["isMenuOpen" := VBool true]> App.initial_state.
Proof. unfold App.setState. symmetry. apply insert_union_singleton_l. Qed.

(** ** The reveal watcher *)

Section RevealFacts.
Import ClassList Reveal.
Implicit Types (cl : list string) (w : Watcher) (el : elem).

(** Which classes an element has after the callback revealed it. *)
Lemma elem_of_reveal c cl :
  c ∈ reveal cl ↔
    c ∈ cl ∨ c = "fade-in-up--visible"
    ∨ (c = "timeline__item--visible" ∧ "timeline__item" ∈ cl)
    ∨ (c = "story-card--visible" ∧ "story-card" ∈ cl)
    ∨ (c = "prediction-card--visible" ∧ "prediction-card" ∈ cl).
Proof.
  unfold reveal. repeat case_match.
  all: repeat match goal with
         | E : contains _ _ = true |- _ => apply contains_true in E
         | E : contains _ _ = false |- _ => apply contains_false in E
         end.
  all: rewrite ?elem_of_add in *.
  all: intuition (subst; done).
Qed.

Lemma guarded_add_fixed k m cl :
  (k ∈ cl → m ∈ cl) → (if contains k cl then add m cl else cl) = cl.
Proof.
  intros Hkm. destruct (contains k cl) eqn:E; [|done].
  apply add_present, Hkm. by apply contains_true.
Qed.

(** The marker classes are none of the kind classes the callback tests, so
    one application reaches a fixed point. *)
Lemma reveal_reveal cl : reveal (reveal cl) = reveal cl.
Proof.
  assert (H0 : "fade-in-up--visible" ∈ reveal cl)
    by (apply elem_of_reveal; tauto).
  assert (H1 : "timeline__item" ∈ reveal cl → "timeline__item--visible" ∈ reveal cl)
    by (rewrite !elem_of_reveal; intuition (subst; done)).
  assert (H2 : "story-card" ∈ reveal cl → "story-card--visible" ∈ reveal cl)
    by (rewrite !elem_of_reveal; intuition (subst; done)).
  assert (H3 : "prediction-card" ∈ reveal cl → "prediction-card--visible" ∈ reveal cl)
    by (rewrite !elem_of_reveal; intuition (subst; done)).
  revert H0 H1 H2 H3. generalize (reveal cl) as r. intros r H0 H1 H2 H3.
  unfold reveal. rewrite (add_present _ _ H0).
  by rewrite (guarded_add_fixed "timeline__item" _ r H1),
       (guarded_add_fixed "story-card" _ r H2),
       (guarded_add_fixed "prediction-card" _ r H3).
Qed.

Lemma reveal_NoDup cl : NoDup cl → NoDup (reveal cl).
Proof.
  intros Hnd. unfold reveal.
  repeat (case_match || apply NoDup_add); done.
Qed.

Lemma elem_of_reveal_mono c cl : c ∈ cl → c ∈ reveal cl.
Proof. intros Hin. apply elem_of_reveal. by left. Qed.

Lemma reveal_visible cl : contains "fade-in-up--visible" (reveal cl) = true.
Proof. apply contains_true, elem_of_reveal. tauto. Qed.

Lemma on_entry_observed w e : observed (on_entry w e) = observed w.
Proof. unfold on_entry. by destruct (isIntersecting e). Qed.

Lemma handle_observed batch w :
  observed (handleAnimationIntersection batch w) = observed w.
Proof.
  unfold handleAnimationIntersection. revert w.
  induction batch as [|e batch IH]; intros w; simpl; [done |].
  by rewrite IH, on_entry_observed.
Qed.

Lemma run_observed batches w : observed (run batches w) = observed w.
Proof.
  unfold run. revert w.
  induction batches as [|b batches IH]; intros w; simpl; [done |].
  by rewrite IH, handle_observed.
Qed.

Lemma on_entry_lookup w e el :
  classes (on_entry w e) !! el =
    if isIntersecting e && bool_decide (target e = el)
    then reveal <$> classes w !! el else classes w !! el.
Proof.
  unfold on_entry. destruct (isIntersecting e); simpl; [|done].
  rewrite lookup_alter. destruct (decide (target e = el)) as [Ht | Ht].
  - rewrite bool_decide_eq_true_2 by done. by rewrite Ht.
  - by rewrite bool_decide_eq_false_2.
Qed.

Lemma on_entry_settled w e el : settled w el → classes (on_entry w e) !! el = classes w !! el.
Proof.
  intros Hs. rewrite on_entry_lookup. by destruct (_ && _).
Qed.

Lemma handle_settled batch w el :
  settled w el → classes (handleAnimationIntersection batch w) !! el = classes w !! el.
Proof.
  unfold handleAnimationIntersection. revert w.
  induction batch as [|e batch IH]; intros w Hs; simpl; [done |].
  rewrite IH; [by apply on_entry_settled |].
  unfold settled. by rewrite on_entry_settled.
Qed.

Lemma run_settled batches w el :
  settled w el → classes (run batches w) !! el = classes w !! el.
Proof.
  unfold run. revert w.
  induction batches as [|b batches IH]; intros w Hs; simpl; [done |].
  rewrite IH; [by apply handle_settled |].
  unfold settled. by rewrite handle_settled.
Qed.

Lemma handle_settles batch w el :
  {| target := el; isIntersecting := true |} ∈ batch →
  settled (handleAnimationIntersection batch w) el.
Proof.
  unfold handleAnimationIntersection. revert w.
  induction batch as [|e batch IH]; intros w Hin; [by apply elem_of_nil in Hin |].
  apply elem_of_cons in Hin as [<- | Hin]; simpl; [| by apply IH].
  unfold settled. fold (handleAnimationIntersection batch
    (on_entry w {| target := el; isIntersecting := true |})).
  assert (Hs : settled (on_entry w {| target := el; isIntersecting := true |}) el).
  { unfold settled. rewrite on_entry_lookup. simpl.
    rewrite bool_decide_eq_true_2 by done.
    destruct (classes w !! el); simpl; [by rewrite reveal_reveal | done]. }
  by rewrite handle_settled.
Qed.

Lemma on_entry_mono w e el c :
  c ∈ class_list w el → c ∈ class_list (on_entry w e) el.
Proof.
  unfold class_list. rewrite on_entry_lookup.
  destruct (_ && _); [|done].
  destruct (classes w !! el); simpl; [apply elem_of_reveal_mono | done].
Qed.

Lemma handle_mono batch w el c :
  c ∈ class_list w el → c ∈ class_list (handleAnimationIntersection batch w) el.
Proof.
  unfold handleAnimationIntersection. revert w.
  induction batch as [|e batch IH]; intros w Hin; simpl; [done |].
  by apply IH, on_entry_mono.
Qed.

Lemma run_mono batches w el c :
  c ∈ class_list w el → c ∈ class_list (run batches w) el.
Proof.
  unfold run. revert w.
  induction batches as [|b batches IH]; intros w Hin; simpl; [done |].
  by apply IH, handle_mono.
Qed.

End RevealFacts.

Section RevealClaims.
Import ClassList Reveal.

Lemma handle_is_Some batch w el :
  is_Some (classes (handleAnimationIntersection batch w) !! el)
  ↔ is_Some (classes w !! el).
Proof.
  unfold handleAnimationIntersection. revert w.
  induction batch as [|e batch IH]; intros w; simpl; [done |].
  rewrite IH, on_entry_lookup. destruct (_ && _); [|done].
  by rewrite fmap_is_Some.
Qed.

Lemma settled_revealed w el :
  is_Some (classes w !! el) → settled w el → revealed w el = true.
Proof.
  intros [cl Hcl] Hs. unfold settled, revealed, class_list in *.
  rewrite Hcl in *. simpl in *. injection Hs as Hs. rewrite <- Hs.
  apply reveal_visible.
Qed.

Lemma class_list_eq w w' el :
  classes w' !! el = classes w !! el → class_list w' el = class_list w el.
Proof. unfold class_list. by intros ->. Qed.

(** C9: the reveal trigger is idempotent.  Reporting an element as
    intersecting a second time leaves the watcher, and so the element's
    class list, as the first report left it; a class list without
    duplicates stays without duplicates.  The callback has no failing
    path: it is a total function of the batch and the watcher. *)
Theorem reveal_trigger_idempotent (w : Watcher) (el : elem) :
  NoDup (class_list w el) →
  let report := [{| target := el; isIntersecting := true |}] in
  let once := handleAnimationIntersection report w in
  handleAnimationIntersection report once = once
  ∧ class_list (handleAnimationIntersection report once) el = class_list once el
  ∧ NoDup (class_list once el).
Proof.
  intros Hnd report once.
  assert (Heq : handleAnimationIntersection report once = once).
  { subst once report. unfold handleAnimationIntersection. simpl.
    unfold on_entry. simpl. f_equal. apply map_eq. intros i.
    rewrite !lookup_alter. destruct (decide (el = i)) as [<- | Hne]; [|done].
    rewrite decide_True by done.
    destruct (classes w !! el); simpl; [by rewrite reveal_reveal | done]. }
  split_and!; [done | by rewrite Heq |].
  subst once report. unfold handleAnimationIntersection, class_list in *. simpl.
  rewrite lookup_alter. destruct (decide (el = el)); [|done].
  destruct (classes w !! el); simpl in *; [by apply reveal_NoDup | done].
Qed.

Lemma reveal_trigger_idempotent_witness :
  NoDup (class_list (setup sample_page) 0)
  ∧ (let report := [{| target := 0%nat; isIntersecting := true |}] in
     let once := handleAnimationIntersection report (setup sample_page) in
     handleAnimationIntersection report once = once
     ∧ class_list (handleAnimationIntersection report once) 0 = class_list once 0
     ∧ NoDup (class_list once 0)).
Proof.
  assert (Hnd : NoDup (class_list (setup sample_page) 0)).
  { apply (bool_decide_unpack _). vm_compute. exact I. }
  split; [exact Hnd | exact (reveal_trigger_idempotent (setup sample_page) 0%nat Hnd)].
Defined.

Example reveal_story_card :
  reveal ["story-card"] = ["story-card"; "fade-in-up--visible"; "story-card--visible"].
Proof. reflexivity. Qed.

(** C3, as stated, fails: after the first report has revealed the story
    card of the sample page, the card is still observed. *)
Lemma reveal_watcher_keeps_subscription :
  ¬ unsubscribed_once_revealed
      (handleAnimationIntersection [{| target := 0%nat; isIntersecting := true |}]
         (setup sample_page)).
Proof.
  intros Hc. apply (Hc 0%nat).
  - vm_compute. reflexivity.
  - apply (bool_decide_unpack _). vm_compute. exact I.
Qed.

(** C3, amended: the watcher never re-hides and never unsubscribes.  Over
    any run of reports no class of any element is removed and the observed
    set stays the one the run started with.  Once a report has revealed an
    element, its class list, with the visible marker, stays as that report
    left it whatever reports follow: the visible state of an element
    changes at most once. *)
Theorem reveal_once_never_hidden
  (start : Watcher) (reports : list (list Entry))
  (w : Watcher) (batch : list Entry) (later : list (list Entry)) (el : elem) :
  is_Some (classes w !! el) →
  {| target := el; isIntersecting := true |} ∈ batch →
  let w1 := handleAnimationIntersection batch w in
  let w2 := run later w1 in
  (observed (run reports start) = observed start
   ∧ Forall (λ e, class_list start e ⊆ class_list (run reports start) e)
            (elements (dom (classes start))))
  ∧ revealed w1 el = true
  ∧ class_list w2 el = class_list w1 el
  ∧ revealed w2 el = true.
Proof.
  intros Hsome Hin w1 w2.
  assert (Hs : settled w1 el) by by apply handle_settles.
  assert (Hr : revealed w1 el = true).
  { apply settled_revealed; [by apply handle_is_Some | done]. }
  assert (Heq : class_list w2 el = class_list w1 el).
  { apply class_list_eq. by apply run_settled. }
  split; [split |].
  - apply run_observed.
  - apply Forall_forall. intros e _ c Hc. by apply run_mono.
  - split; [done |]. split; [done |]. unfold revealed. by rewrite Heq.
Qed.

Lemma reveal_once_never_hidden_witness :
  is_Some (classes (setup sample_page) !! 0%nat)
  ∧ {| target := 0%nat; isIntersecting := true |}
      ∈ [{| target := 1%nat; isIntersecting := false |};
         {| target := 0%nat; isIntersecting := true |}]
  ∧ (let w1 := handleAnimationIntersection
                 [{| target := 1%nat; isIntersecting := false |};
                  {| target := 0%nat; isIntersecting := true |}]
                 (setup sample_page) in
     let w2 := run [[{| target := 0%nat; isIntersecting := false |}];
                    [{| target := 0%nat; isIntersecting := true |}]] w1 in
     observed w2 = observed (setup sample_page)
     ∧ revealed w1 0%nat = true
     ∧ class_list w2 0%nat = class_list w1 0%nat
     ∧ revealed w2 0%nat = true).
Proof.
  assert (H1 : is_Some (classes (setup sample_page) !! 0%nat))
    by (vm_compute; eauto).
  assert (H2 : {| target := 0%nat; isIntersecting := true |}
                 ∈ [{| target := 1%nat; isIntersecting := false |};
                    {| target := 0%nat; isIntersecting := true |}])
    by (apply elem_of_cons; right; apply elem_of_cons; by left).
  destruct (reveal_once_never_hidden (setup sample_page)
              [[{| target := 1%nat; isIntersecting := false |};
                {| target := 0%nat; isIntersecting := true |}];
               [{| target := 0%nat; isIntersecting := false |}];
               [{| target := 0%nat; isIntersecting := true |}]]
              (setup sample_page) _
              [[{| target := 0%nat; isIntersecting := false |}];
               [{| target := 0%nat; isIntersecting := true |}]] 0%nat H1 H2)
    as ((Hobs & _) & Hr1 & Heq & Hr2).
  split; [exact H1 |]. split; [exact H2 |]. cbv zeta.
  split_and!; [exact Hobs | exact Hr1 | exact Heq | exact Hr2].
Defined.

End RevealClaims.

(** ** The section watcher *)

Section SectionFacts.
Import Sections.
Variable id_of : elem → string.

Lemma after_ids_nil app : after_ids [] app = app.
Proof.
  destruct app as [st nav an]. unfold after_ids. simpl. f_equal.
  - by destruct nav.
  - destruct an; simpl; [by rewrite app_nil_r | done].
Qed.

Lemma after_ids_cons s ids app :
  after_ids (s :: ids) app =
  after_ids ids
    {| state := <["currentSection" := VStr s]> (state app);
       navigation := Navigation.updateActiveLink s <$> navigation app;
       analytics := Analytics.trackSectionView s <$> analytics app |}.
Proof.
  unfold after_ids. simpl. f_equal.
  - rewrite last_cons. destruct (last ids); [by rewrite insert_insert_eq | done].
  - by destruct (navigation app).
  - destruct (analytics app); simpl; [|done].
    unfold Analytics.trackSectionView, Analytics.trackEvent.
    by rewrite <- app_assoc.
Qed.

Lemma handle_sections_after entries app :
  handleSectionIntersection id_of entries app
  = after_ids (intersecting_ids id_of entries) app.
Proof.
  unfold handleSectionIntersection, intersecting_ids. revert app.
  induction entries as [|e entries IH]; intros app; simpl.
  - by rewrite after_ids_nil.
  - rewrite IH. unfold on_entry. destruct (isIntersecting e) eqn:Hi.
    + rewrite filter_cons_True by done. simpl. by rewrite after_ids_cons.
    + rewrite filter_cons_False; [done |]. by rewrite Hi.
Qed.

End SectionFacts.

(** C8: after a batch has been processed, the current section is the id
    of the last intersecting entry of the batch, in the order the batch
    reports them (and is left alone by a batch without intersecting
    entries); the navigation module has been given [updateActiveLink] for
    each intersecting entry in that order, and the analytics module one
    section view for each, in the same order. *)
Theorem section_batch_last_wins
  (id_of : elem → string) (entries : list Entry) (app : Sections.Core) :
  let ids := Sections.intersecting_ids id_of entries in
  let app' := Sections.handleSectionIntersection id_of entries app in
  Sections.state app' !! "currentSection"
    = match last ids with
      | Some s => Some (VStr s)
      | None => Sections.state app !! "currentSection"
      end
  ∧ Sections.state app'
    = match last ids with
      | Some s => <["currentSection" := VStr s]> (Sections.state app)
      | None => Sections.state app
      end
  ∧ Sections.navigation app'
    = (λ links, foldl (λ ls s, Navigation.updateActiveLink s ls) links ids)
      <$> Sections.navigation app
  ∧ Sections.analytics app'
    = (λ events, events ++ map Sections.section_event ids)
      <$> Sections.analytics app.
Proof.
  intros ids app'. subst app' ids. rewrite handle_sections_after.
  unfold Sections.after_ids. simpl. split_and!; try done.
  destruct (last _); [by rewrite lookup_insert_eq | done].
Qed.

Lemma updateActiveLink_active (s : string) (links : list Navigation.Link) :
  Forall (λ l, Navigation.is_active l = bool_decide (Navigation.href l = "#" +:+ s))
         (Navigation.updateActiveLink s links).
Proof.
  unfold Navigation.updateActiveLink. apply Forall_forall. intros l Hl.
  apply list_elem_of_In, in_map_iff in Hl as (l0 & <- & _).
  unfold Navigation.is_active. simpl.
  destruct (bool_decide _); simpl.
  - apply contains_true, elem_of_add. by right.
  - apply contains_false. rewrite elem_of_remove. tauto.
Qed.

(** Sections A then B intersecting in one batch: B is current, and only
    the link to B is active. *)
Example section_batch_A_then_B :
  let id_of := λ el : elem, if Nat.eqb el 0 then "history" else "findings" in
  let app :=
    {| Sections.state := App.initial_state;
       Sections.navigation :=
         Some [{| Navigation.href := "#history"; Navigation.link_classes := ["nav__link"] |};
               {| Navigation.href := "#findings"; Navigation.link_classes := ["nav__link"] |}];
       Sections.analytics := Some [] |} in
  let app' := Sections.handleSectionIntersection id_of
                [{| target := 0%nat; isIntersecting := true |};
                 {| target := 1%nat; isIntersecting := true |}] app in
  Sections.state app' !! "currentSection" = Some (VStr "findings")
  ∧ (map Navigation.is_active <$> Sections.navigation app') = Some [false; true]
  ∧ (map Analytics.label <$> Sections.analytics app') = Some ["history"; "findings"].
Proof. vm_compute. done. Qed.

(** ** The statistic counter *)

Section StatFacts.
Import Stat.
Local Open Scope Q_scope.
Implicit Types (c : Counter) (t : Q).

Lemma Qltb_true a b : Qltb a b = true ↔ a < b.
Proof.
  unfold Qltb. rewrite negb_true_iff, <- not_true_iff_false, Qle_bool_iff.
  split; [apply Qnot_le_lt | apply Qlt_not_le].
Qed.

Lemma Qltb_false a b : Qltb a b = false ↔ b <= a.
Proof. unfold Qltb. by rewrite negb_false_iff, Qle_bool_iff. Qed.

(** The progress the code computes, [Math.min(elapsed / duration, 1)],
    is the clamped progress as soon as no time runs backwards. *)
Lemma progress_clamp elapsed :
  0 <= elapsed → clamp (elapsed / 2000) 0 1 == Qmin (elapsed / duration) 1.
Proof.
  intros He. unfold clamp, duration. apply Q.max_r.
  apply Q.min_glb; [|done].
  apply Qle_shift_div_l; [done | by rewrite Qmult_0_l].
Qed.

Lemma eased_comp (T : Z) p q :
  p == q → inject_Z T * (1 - (1 - p) ^ 4) == inject_Z T * (1 - (1 - q) ^ 4).
Proof. intros ->. reflexivity. Qed.

Lemma eased_full (T : Z) p : p == 1 → Qfloor (inject_Z T * (1 - (1 - p) ^ 4)) = T.
Proof.
  intros Hp. rewrite <- (Qfloor_Z T) at 2. apply Qfloor_comp.
  rewrite Hp. ring.
Qed.

Lemma animate_text t c :
  textContent (animate t c) =
    let progress := Qmin ((t - startTime c) / duration) 1 in
    Number (if Qle_bool 1 progress then target_value c
            else Qfloor (inject_Z (target_value c) * (1 - (1 - progress) ^ 4))).
Proof.
  unfold animate. simpl.
  destruct (Qltb _ 1) eqn:Hlt; simpl.
  - apply Qltb_true in Hlt.
    destruct (Qle_bool 1 _) eqn:Hle; [|done].
    apply Qle_bool_iff in Hle. by apply Qlt_not_le in Hlt.
  - apply Qltb_false in Hlt. apply Qle_bool_iff in Hlt. by rewrite Hlt.
Qed.

Lemma animate_kept t c :
  el (animate t c) = el c ∧ target_value (animate t c) = target_value c
  ∧ startTime (animate t c) = startTime c ∧ observed (animate t c) = observed c
  ∧ starts (animate t c) = starts c.
Proof. unfold animate. by destruct (Qltb _ 1). Qed.

Lemma frame_kept t c :
  el (frame t c) = el c ∧ target_value (frame t c) = target_value c
  ∧ startTime (frame t c) = startTime c ∧ observed (frame t c) = observed c
  ∧ starts (frame t c) = starts c.
Proof.
  unfold frame. generalize (scheduled c) as n.
  induction n as [|n IH]; simpl; [done |].
  destruct (animate_kept t (Nat.iter n (animate t) (clear_frames c)))
    as (-> & -> & -> & -> & ->).
  exact IH.
Qed.

(** A counter's own observer reports at most one entry, for its element. *)
Lemma reportable_singleton (s : elem) batch :
  reportable {[s]} batch →
  batch = [] ∨ ∃ b, batch = [{| target := s; isIntersecting := b |}].
Proof.
  intros [Hnd Hall]. destruct batch as [|[t1 b1] [|[t2 b2] rest]]; [by left | |].
  - right. exists b1. apply Forall_cons in Hall as [Ht _]. simpl in Ht.
    apply elem_of_singleton in Ht. by subst.
  - exfalso. apply Forall_cons in Hall as [Ht1 Hall].
    apply Forall_cons in Hall as [Ht2 _]. simpl in *.
    apply elem_of_singleton in Ht1, Ht2. subst.
    apply NoDup_cons in Hnd as [Hnotin _]. apply Hnotin. by left.
Qed.

Lemma reportable_empty batch : reportable ∅ batch → batch = [].
Proof.
  intros [_ Hall]. destruct batch as [|e rest]; [done |].
  apply Forall_cons in Hall as [Ht _]. by apply not_elem_of_empty in Ht.
Qed.

Lemma step_invariant stat T now c ev c' :
  armed_invariant stat T now c → step c ev = Some c' →
  armed_invariant stat T now c'.
Proof.
  intros (Hel & HT & Hst & Hcases) Hstep. destruct ev as [batch | t]; simpl in Hstep.
  - destruct (decide (reportable (observed c) batch)) as [Hrep | ]; [|done].
    injection Hstep as <-.
    destruct Hcases as [[Hs Hobs] | [Hs Hobs]]; rewrite Hobs in Hrep.
    + apply reportable_singleton in Hrep as [-> | [b ->]]; simpl.
      * split_and!; try done. by left.
      * unfold observer_callback, on_entry. simpl. destruct b; simpl.
        -- split_and!; try done. right. split; [by rewrite Hs |].
           rewrite Hobs. unfold Observer.unobserve. apply difference_diag_L.
        -- split_and!; try done. by left.
    + apply reportable_empty in Hrep as ->. simpl. split_and!; try done. by right.
  - injection Hstep as <-. unfold armed_invariant.
    destruct (frame_kept t c) as (-> & -> & -> & -> & ->).
    by split_and!.
Qed.

Lemma run_invariant stat T now evs c c' :
  armed_invariant stat T now c → run evs c = Some c' →
  armed_invariant stat T now c'.
Proof.
  revert c. induction evs as [|ev evs IH]; intros c Hinv Hrun; simpl in Hrun.
  - by injection Hrun as <-.
  - destruct (step c ev) as [c1|] eqn:Hstep; [|done].
    eapply IH; [|done]. by eapply step_invariant.
Qed.

Lemma arm_invariant stat T now : armed_invariant stat T now (arm stat T now).
Proof.
  unfold armed_invariant, arm, Observer.observe. simpl.
  split_and!; try done. left. split; [done | apply union_empty_r_L].
Qed.

End StatFacts.

Section StatClaims.
Import Stat.
Local Open Scope Q_scope.

(** The count-up in exact arithmetic, with the time measured from the
    arming of the counter: in any state the counter reaches, a step at a
    time [t] not before [startTime] displays
    [floor (T * (1 - (1 - p)^4))] with [p = clamp (elapsed / 2000) 0 1],
    and [T] itself when [p] has reached 1; the observer requests the
    count-up at most once when the visibility primitive reports observed
    targets only, each once in a batch. *)
Theorem stat_counter_count_up
  (stat : elem) (T : Z) (now t : Q) (evs : list event) (c : Counter) :
  run evs (arm stat T now) = Some c →
  now <= t →
  let p := clamp ((t - now) / 2000) 0 1 in
  textContent (animate t c) = Number (eased_value T (t - now))
  ∧ textContent (animate t c)
    = Number (if Qle_bool 1 p then T
              else Qfloor (inject_Z T * (1 - (1 - p) ^ 4)))
  ∧ (starts c ≤ 1)%nat.
Proof.
  intros Hrun Ht p.
  destruct (run_invariant stat T now evs _ c (arm_invariant stat T now) Hrun)
    as (_ & HT & Hnow & Hcases).
  assert (He : 0 <= t - now) by (apply (Qplus_le_l _ _ now); ring_simplify; done).
  assert (Hp : p == Qmin ((t - now) / duration) 1) by by apply progress_clamp.
  rewrite animate_text, HT, Hnow. cbv zeta.
  set (m := Qmin ((t - now) / duration) 1) in *.
  assert (Hm1 : m <= 1) by apply Q.le_min_r.
  split_and!.
  - unfold eased_value. fold p. f_equal.
    destruct (Qle_bool 1 m) eqn:Hle.
    + apply Qle_bool_iff in Hle. symmetry. apply eased_full.
      rewrite Hp. by apply Qle_antisym.
    + apply Qfloor_comp, eased_comp. by symmetry.
  - rewrite (Qleb_comp 1 1 (Qeq_refl 1) p m Hp).
    destruct (Qle_bool 1 m); [done |].
    f_equal. apply Qfloor_comp, eased_comp. by symmetry.
  - destruct Hcases as [[-> _] | [-> _]]; lia.
Qed.

Lemma stat_counter_count_up_witness :
  run sample_trace (arm 0%nat 100 0) = Some sample_counter
  ∧ 0 <= 2500
  ∧ textContent (animate 2500 sample_counter) = Number 100
  ∧ starts sample_counter = 1%nat.
Proof.
  assert (Hrun : run sample_trace (arm 0%nat 100 0) = Some sample_counter)
    by (vm_compute; reflexivity).
  assert (Ht : 0 <= 2500) by (vm_compute; discriminate).
  destruct (stat_counter_count_up 0%nat 100 0 2500 sample_trace sample_counter Hrun Ht)
    as (Htext & _ & _).
  split_and!; [exact Hrun | exact Ht | | vm_compute; reflexivity].
  rewrite Htext. vm_compute. reflexivity.
Defined.

(** Half way through the two seconds the counter of target 100 shows 93,
    and a frame at two seconds or later shows 100. *)
Example count_up_half : eased_value 100 1000 = 93%Z.
Proof. vm_compute. reflexivity. Qed.

Example count_up_end : textContent (animate 2000 (arm 0%nat 100 0)) = Number 100.
Proof. vm_compute. reflexivity. Qed.

(** C4: the failing input.  A counter for the target 100 is armed at the
    time 0, its element is first reported visible three seconds later and
    the first frame after that comes at 3016.  A count-up that starts when
    the element is seen is 16 ms old at that frame and shows 3; the code
    measures the time from the arming, writes 100 at once and requests no
    further frame, so that nothing is counted up.  Every operation of this
    step is exact in doubles as well. *)
Theorem count_up_skipped_when_seen_late :
  textContent <$> run seen_late (arm 0%nat 100 0) = Some (Number 100)
  ∧ scheduled <$> run seen_late (arm 0%nat 100 0) = Some 0%nat
  ∧ starts <$> run seen_late (arm 0%nat 100 0) = Some 1%nat
  ∧ eased_value 100 (3016 - 3000) = 3%Z.
Proof. split_and!; vm_compute; reflexivity. Qed.

End StatClaims.

(** ** The particle field *)

Section ParticleFacts.
Import Particles.
Context `{Host}.
Local Open Scope Q_scope.
Implicit Types (p q : Particle) (ps : list Particle) (canvas : Canvas).

(** *** The loops as list functions *)

Lemma flat_map_map {A B C} (f : B → list C) (g : A → B) (l : list A) :
  flat_map f (map g l) = flat_map (λ a, f (g a)) l.
Proof. induction l as [|a l IH]; simpl; [done | by rewrite IH]. Qed.

(** Reading an array by the indices of its tail visits the tail. *)
Lemma flat_map_indices {A B} (g : A → list B) (pre l : list A) :
  flat_map (λ j, match (pre ++ l) !! j with Some a => g a | None => [] end)
           (seq (length pre) (length l))
  = flat_map g l.
Proof.
  revert pre. induction l as [|a l IH]; intros pre; simpl; [done |].
  rewrite (list_lookup_middle pre l a (length pre) eq_refl). f_equal.
  specialize (IH (pre ++ [a])). rewrite <- app_assoc in IH.
  replace (length (pre ++ [a])) with (S (length pre)) in IH
    by (rewrite length_app; simpl; lia).
  exact IH.
Qed.

Lemma connections_from (pre l : list Particle) :
  flat_map (λ i, flat_map (connect (pre ++ l) i)
                          (seq (S i) (length (pre ++ l) - S i)))
           (seq (length pre) (length l))
  = flat_map pair_line (pairs l).
Proof.
  revert pre. induction l as [|p l IH]; intros pre; [done |].
  cbn [length seq flat_map pairs]. rewrite flat_map_app, flat_map_map. f_equal.
  - replace (length (pre ++ p :: l) - S (length pre))%nat with (length l)
      by (rewrite length_app; simpl; lia).
    replace (pre ++ p :: l) with ((pre ++ [p]) ++ l) by by rewrite <- app_assoc.
    replace (S (length pre)) with (length (pre ++ [p]))
      by (rewrite length_app; simpl; lia).
    rewrite <- (flat_map_indices (λ q, pair_line (p, q)) (pre ++ [p]) l).
    apply flat_map_ext. intros j. unfold connect.
    rewrite <- app_assoc. simpl.
    by rewrite (list_lookup_middle pre l p (length pre) eq_refl).
  - specialize (IH (pre ++ [p])). rewrite <- app_assoc in IH.
    replace (length (pre ++ [p])) with (S (length pre)) in IH
      by (rewrite length_app; simpl; lia).
    exact IH.
Qed.

(** [drawConnections] draws the line of every near pair, in loop order. *)
Lemma drawConnections_pairs ps :
  drawConnections ps = flat_map pair_line (pairs ps).
Proof. exact (connections_from [] ps). Qed.

Lemma flat_map_filter {A B} (P : A → bool) (g : A → list B) (l : list A) :
  flat_map (λ a, if P a then g a else []) l
  = flat_map g (filter (λ a, P a = true) l).
Proof.
  induction l as [|a l IH]; simpl; [done |].
  destruct (P a) eqn:HP.
  - rewrite filter_cons_True by done. simpl. by rewrite IH.
  - rewrite filter_cons_False by (by rewrite HP). by rewrite IH.
Qed.

(** The closure [animate] ticks every particle and renders the result. *)
Lemma animate_tick_render canvas ps :
  animate canvas ps = (tick canvas ps, render canvas (tick canvas ps)).
Proof.
  unfold animate, tick, render.
  set (cleared := [ClearRect 0 0 (num (width canvas)) (num (height canvas))]).
  set (f := λ (acc : list Particle * list Draw) particle,
         let p' := update canvas particle in (acc.1 ++ [p'], acc.2 ++ draw p')).
  assert (Hfold : ∀ l acc, foldl f acc l
            = (acc.1 ++ map (update canvas) l,
               acc.2 ++ flat_map draw (map (update canvas) l))).
  { induction l as [|p l IH]; intros [a1 a2]; simpl.
    - by rewrite !app_nil_r.
    - rewrite IH. simpl. by rewrite <- !app_assoc. }
  rewrite Hfold. simpl. done.
Qed.

(** *** Counting the calls *)

Lemma count_app f (l1 l2 : list Draw) : count f (l1 ++ l2) = (count f l1 + count f l2)%nat.
Proof. unfold count. by rewrite filter_app, length_app. Qed.

Lemma count_flat_map {A} f (g : A → list Draw) (k : nat) (l : list A) :
  (∀ a, count f (g a) = k) → count f (flat_map g l) = (k * length l)%nat.
Proof.
  intros Hg. induction l as [|a l IH]; simpl; [unfold count; simpl; lia |].
  rewrite count_app, Hg, IH. lia.
Qed.



End ParticleFacts.

Section ParticleClaims.
Import Particles.
Context `{Host}.
Local Open Scope Q_scope.





Lemma render_shape canvas ps :
  render canvas ps
  = [ClearRect 0 0 (num (width canvas)) (num (height canvas))]
    ++ flat_map draw ps
    ++ flat_map (λ pq, line pq.1 pq.2) (filter (λ pq, near pq = true) (pairs ps)).
Proof.
  unfold render. rewrite drawConnections_pairs. simpl. do 2 f_equal.
  unfold pair_line. apply flat_map_filter.
Qed.









Example render_nothing canvas :
  render canvas [] = [ClearRect 0 0 (num (width canvas)) (num (height canvas))].
Proof. reflexivity. Qed.

End ParticleClaims.

Section ParticleClaimsWitness.
Import Particles.
Local Open Scope Q_scope.



End ParticleClaimsWitness.

Section ParticleMotion.
Import Particles.
Context `{Host}.
Local Open Scope Q_scope.

Lemma update_pos canvas p a : pos a (update canvas p) = pos a p + vel a p.
Proof. by destruct a. Qed.

Lemma update_vel canvas p a :
  vel a (update canvas p) = if crosses a canvas p then vel a p * -1 else vel a p.
Proof. by destruct a. Qed.


Lemma crosses_false a canvas p :
  crosses a canvas p = false
  ↔ 0 <= pos a p + vel a p <= extent a canvas.
Proof. unfold crosses. by rewrite orb_false_iff, !Qltb_false. Qed.


End ParticleMotion.

Section ParticleAllocation.
Import Particles.
Local Open Scope Q_scope.


Context `{Host}.

Lemma num_nonneg n : 0 <= num n.
Proof. unfold num, Qle. simpl. lia. Qed.

Lemma spawn_map canvas n k :
  spawn canvas n k = map (λ i, new_Particle canvas (k + 6 * i)) (seq 0 n).
Proof.
  revert k. induction n as [|n IH]; intros k; simpl; [done |].
  rewrite Nat.add_0_r. f_equal. rewrite IH, <- seq_shift, map_map.
  apply map_ext. intros i. f_equal. lia.
Qed.

Lemma spawn_length canvas n k : length (spawn canvas n k) = n.
Proof. by rewrite spawn_map, length_map, length_seq. Qed.

Lemma new_Particle_uniform canvas k :
  drawn_uniformly canvas k (new_Particle canvas k).
Proof. unfold drawn_uniformly, uniform. simpl. split_and!; ring. Qed.

Lemma new_Particle_ranges canvas k :
  (∀ i, 0 <= Math_random i < 1) → in_ranges canvas (new_Particle canvas k).
Proof.
  intros Hr. unfold in_ranges. simpl.
  pose proof (num_nonneg (width canvas)) as Hw.
  pose proof (num_nonneg (height canvas)) as Hh.
  pose proof (Hr k) as [? ?]. pose proof (Hr (k + 1)%nat) as [? ?].
  pose proof (Hr (k + 2)%nat) as [? ?]. pose proof (Hr (k + 3)%nat) as [? ?].
  pose proof (Hr (k + 4)%nat) as [? ?]. pose proof (Hr (k + 5)%nat) as [? ?].
  split_and!; try lra; try nra.
Qed.

End ParticleAllocation.

(** ** The frame loop *)

Section LoopFacts.
Import Particles.
Context `{Host}.
Local Open Scope Q_scope.

(** What [initializeParticles] leaves behind when the canvas is there: a
    new system whose particles have been allocated and ticked once by the
    first, synchronous, call of [animate]; one requested frame; and the
    handle of that request in [particleAnimationId]. *)
Lemma initializeParticles_present (w : Loop.World) (c : Canvas) :
  Loop.canvas w = Some c →
  Loop.initializeParticles w =
    let allocated := spawn c particleCount (Loop.random_calls w) in
    {| Loop.canvas := Some c;
       Loop.random_calls := (Loop.random_calls w + 6 * particleCount)%nat;
       Loop.next_handle := S (Loop.next_handle w);
       Loop.callbacks :=
         Loop.callbacks w ++ [(Loop.next_handle w, length (Loop.systems w))];
       Loop.systems :=
         Loop.systems w ++ [{| Loop.sys_canvas := c;
                               Loop.particles := tick c allocated |}];
       Loop.particleAnimationId := Some (Loop.next_handle w);
       Loop.surface := Loop.surface w ++ render c (tick c allocated) |}.
Proof.
  intros Hc. unfold Loop.initializeParticles. rewrite Hc.
  generalize (spawn c particleCount (Loop.random_calls w)) as allocated.
  intros allocated. unfold Loop.animate. cbn [Loop.systems].
  rewrite (list_lookup_middle (Loop.systems w) [] _ (length (Loop.systems w)) eq_refl).
  cbn [Loop.sys_canvas Loop.particles]. rewrite animate_tick_render.
  cbv beta iota zeta. unfold Loop.set_particleAnimationId.
  cbn [Loop.canvas Loop.random_calls Loop.next_handle Loop.callbacks
       Loop.systems Loop.particleAnimationId Loop.surface].
  f_equal.
  rewrite insert_app_r_alt by done. by rewrite Nat.sub_diag.
Qed.

Lemma initializeParticles_absent (w : Loop.World) :
  Loop.canvas w = None → Loop.initializeParticles w = w.
Proof. intros Hc. unfold Loop.initializeParticles. by rewrite Hc. Qed.

(** C7: initialization allocates exactly [particleCount] (50) particles,
    particle [i] from the six calls of [Math.random] numbered from
    [k + 6 i]; each draw being in [0, 1), the position lies within the
    surface, the velocity components in [-0.25, 0.25], the radius in
    [1, 3] and the opacity in [0.2, 0.7], each the draw spread uniformly
    over its range.  These particles, ticked once by the first call of
    [animate], are the particles of the system [initializeParticles] adds. *)
Theorem initialize_allocates (w : Loop.World) (c : Canvas) :
  Loop.canvas w = Some c →
  (∀ i, 0 <= Math_random i < 1) →
  let k := Loop.random_calls w in
  let allocated := spawn c particleCount k in
  length allocated = particleCount
  ∧ allocated = map (λ i, new_Particle c (k + 6 * i)) (seq 0 particleCount)
  ∧ Forall (in_ranges c) allocated
  ∧ Forall (λ i, drawn_uniformly c (k + 6 * i) (new_Particle c (k + 6 * i)))
           (seq 0 particleCount)
  ∧ Loop.systems (Loop.initializeParticles w)
    = Loop.systems w ++ [{| Loop.sys_canvas := c;
                            Loop.particles := tick c allocated |}]
  ∧ length (tick c allocated) = particleCount.
Proof.
  intros Hc Hr k allocated. subst allocated k.
  split_and!.
  - apply spawn_length.
  - apply spawn_map.
  - rewrite spawn_map. apply Forall_forall. intros p Hp.
    apply list_elem_of_In, in_map_iff in Hp as (i & <- & _).
    by apply new_Particle_ranges.
  - apply Forall_forall. intros i _. apply new_Particle_uniform.
  - by rewrite (initializeParticles_present w c Hc).
  - unfold tick. by rewrite length_map, spawn_length.
Qed.

End LoopFacts.

Section PauseResume.
Import Particles.
Context `{Host}.

Lemma animate_present (w : Loop.World) (s : nat) (sys : Loop.System) :
  Loop.systems w !! s = Some sys →
  Loop.animate s w =
    let ticked := tick (Loop.sys_canvas sys) (Loop.particles sys) in
    (Loop.next_handle w,
     {| Loop.canvas := Loop.canvas w;
        Loop.random_calls := Loop.random_calls w;
        Loop.next_handle := S (Loop.next_handle w);
        Loop.callbacks := Loop.callbacks w ++ [(Loop.next_handle w, s)];
        Loop.systems :=
          <[s := {| Loop.sys_canvas := Loop.sys_canvas sys;
                    Loop.particles := ticked |}]> (Loop.systems w);
        Loop.particleAnimationId := Loop.particleAnimationId w;
        Loop.surface := Loop.surface w ++ render (Loop.sys_canvas sys) ticked |}).
Proof.
  intros Hs. unfold Loop.animate. rewrite Hs, animate_tick_render. reflexivity.
Qed.

Lemma count_draw_clear p : count is_clear (draw p) = 0%nat.
Proof. reflexivity. Qed.

Lemma count_line_clear pq : count is_clear (line pq.1 pq.2) = 0%nat.
Proof. reflexivity. Qed.

(** Every render pass clears the surface once. *)
Lemma count_clear_render canvas ps : count is_clear (render canvas ps) = 1%nat.
Proof.
  rewrite render_shape, !count_app.
  rewrite (count_flat_map _ _ 0 ps count_draw_clear).
  rewrite (count_flat_map _ _ 0 _ count_line_clear).
  unfold count. simpl. lia.
Qed.

Lemma iterations_animate (w : Loop.World) (s : nat) (sys : Loop.System) :
  Loop.systems w !! s = Some sys →
  Loop.iterations (Loop.animate s w).2 = S (Loop.iterations w).
Proof.
  intros Hs. rewrite (animate_present w s sys Hs). unfold Loop.iterations.
  cbn [snd Loop.surface]. rewrite count_app, count_clear_render. lia.
Qed.

(** A frame with one loop on the host's list runs one iteration of it. *)
Lemma run_frame_single (w : Loop.World) (h s : nat) (sys : Loop.System) :
  Loop.callbacks w = [(h, s)] →
  Loop.systems w !! s = Some sys →
  Loop.run_frame w =
    {| Loop.canvas := Loop.canvas w;
       Loop.random_calls := Loop.random_calls w;
       Loop.next_handle := S (Loop.next_handle w);
       Loop.callbacks := [(Loop.next_handle w, s)];
       Loop.systems :=
         <[s := {| Loop.sys_canvas := Loop.sys_canvas sys;
                   Loop.particles := tick (Loop.sys_canvas sys) (Loop.particles sys) |}]>
           (Loop.systems w);
       Loop.particleAnimationId := Loop.particleAnimationId w;
       Loop.surface :=
         Loop.surface w
         ++ render (Loop.sys_canvas sys)
                   (tick (Loop.sys_canvas sys) (Loop.particles sys)) |}
  ∧ Loop.iterations (Loop.run_frame w) = S (Loop.iterations w).
Proof.
  intros Hcb Hs. unfold Loop.run_frame. rewrite Hcb.
  cbn [foldl snd]. split.
  - by rewrite (animate_present (Loop.set_callbacks [] w) s sys Hs).
  - by rewrite (iterations_animate (Loop.set_callbacks [] w) s sys Hs).
Qed.

(** [pauseAnimations] never touches [particleAnimationId], so once the
    property is set [resumeAnimations] has nothing to do. *)
Lemma pause_keeps_id (w : Loop.World) :
  Loop.particleAnimationId (Loop.pauseAnimations w) = Loop.particleAnimationId w.
Proof.
  unfold Loop.pauseAnimations.
  destruct (Loop.truthy _); [|done].
  by destruct (Loop.particleAnimationId w) eqn:E.
Qed.

Lemma resume_after_pause_idle (w : Loop.World) :
  Loop.truthy (Loop.particleAnimationId w) = true →
  Loop.resumeAnimations (Loop.pauseAnimations w) = Loop.pauseAnimations w.
Proof.
  intros Ht. unfold Loop.resumeAnimations. by rewrite pause_keeps_id, Ht.
Qed.

(** C1, on the code: the page is loaded with its canvas, one frame runs,
    then [pauseAnimations] is called.  The handle it cancels is the one
    of the first request, which that frame has consumed; the request made
    by the frame stays in the host's list, the next frame runs one more
    iteration of the loop, and [resumeAnimations] changes nothing. *)
Theorem pause_leaves_loop_running (c : Canvas) (used : nat) :
  let w1 := Loop.initializeParticles (Loop.loaded used (Some c)) in
  let w2 := Loop.run_frame w1 in
  let w3 := Loop.pauseAnimations w2 in
  Loop.particleAnimationId w2 = Some (S used)
  ∧ Loop.callbacks w2 = [(S (S used), 0%nat)]
  ∧ Loop.callbacks w3 = [(S (S used), 0%nat)]
  ∧ Loop.iterations (Loop.run_frame w3) = S (Loop.iterations w3)
  ∧ Loop.resumeAnimations w3 = w3.
Proof.
  pose proof (initializeParticles_present (Loop.loaded used (Some c)) c eq_refl) as H1.
  cbv zeta in H1. cbn [Loop.loaded Loop.random_calls Loop.next_handle Loop.callbacks
                       Loop.systems Loop.surface app length] in H1.
  cbv zeta. rewrite H1. clear H1.
  set (ps := tick c (spawn c particleCount 0)).
  set (w1 := {| Loop.canvas := Some c; Loop.callbacks := [(S used, 0%nat)] |}).
  assert (H2 : Loop.run_frame w1 =
    {| Loop.canvas := Some c;
       Loop.random_calls := (0 + 6 * particleCount)%nat;
       Loop.next_handle := S (S (S used));
       Loop.callbacks := [(S (S used), 0%nat)];
       Loop.systems := [{| Loop.sys_canvas := c; Loop.particles := tick c ps |}];
       Loop.particleAnimationId := Some (S used);
       Loop.surface := render c ps ++ render c (tick c ps) |}).
  { by destruct (run_frame_single w1 (S used) 0%nat
                   {| Loop.sys_canvas := c; Loop.particles := ps |}
                   eq_refl eq_refl) as [-> _]. }
  rewrite H2. clear H2 w1.
  set (w2 := {| Loop.canvas := Some c; Loop.callbacks := [(S (S used), 0%nat)] |}).
  assert (H3 : Loop.pauseAnimations w2 = w2).
  { unfold Loop.pauseAnimations, Loop.cancelAnimationFrame, w2.
    cbn [Loop.particleAnimationId Loop.truthy Loop.callbacks Nat.eqb negb].
    rewrite filter_cons_True by (simpl; lia). reflexivity. }
  rewrite H3. split_and!; [reflexivity | reflexivity | reflexivity | |].
  - by destruct (run_frame_single w2 (S (S used)) 0%nat
                   {| Loop.sys_canvas := c; Loop.particles := tick c ps |}
                   eq_refl eq_refl) as [_ ->].
  - pose proof (resume_after_pause_idle w2 eq_refl) as Hr.
    by rewrite H3 in Hr.
Qed.

(** Paused before any frame has run, the loop does stop; but then
    [resumeAnimations] does not restart it, and no frame runs it again. *)
Lemma pause_at_once_never_resumes (c : Canvas) :
  let w1 := Loop.initializeParticles (Loop.fresh (Some c)) in
  let w2 := Loop.resumeAnimations (Loop.pauseAnimations w1) in
  Loop.callbacks w2 = []
  ∧ Loop.run_frame w2 = w2
  ∧ Loop.systems w2 = Loop.systems w1.
Proof.
  pose proof (initializeParticles_present (Loop.fresh (Some c)) c eq_refl) as H1.
  cbv zeta in H1. cbn [Loop.fresh Loop.random_calls Loop.next_handle Loop.callbacks
                       Loop.systems Loop.surface app length] in H1.
  cbv zeta. rewrite H1. clear H1.
  rewrite resume_after_pause_idle by reflexivity.
  by split_and!.
Qed.

End PauseResume.

(** ** Entry points and absent targets *)

Section AbsentTargets.
Import Particles.
Local Open Scope Q_scope.

Lemma initialize_allocates_witness :
  Loop.canvas (Loop.fresh (Some Loop.sample_canvas)) = Some Loop.sample_canvas
  ∧ (∀ i, 0 <= @Math_random Loop.sample_host i < 1)
  ∧ length (@spawn Loop.sample_host Loop.sample_canvas particleCount 0) = particleCount
  ∧ Forall (in_ranges Loop.sample_canvas)
           (@spawn Loop.sample_host Loop.sample_canvas particleCount 0).
Proof.
  assert (Hr : ∀ i, 0 <= @Math_random Loop.sample_host i < 1).
  { intros i. simpl. pose proof (Nat.mod_upper_bound i 7) as Hi.
    unfold Qle, Qlt. simpl. lia. }
  destruct (@initialize_allocates Loop.sample_host
              (Loop.fresh (Some Loop.sample_canvas)) Loop.sample_canvas eq_refl Hr)
    as (Hlen & _ & Hranges & _).
  split_and!; [reflexivity | exact Hr | exact Hlen | exact Hranges].
Defined.

Lemma handleScroll_state (scrollY : Q) (w : Page.World) :
  Page.state (store_of (Page.handleScroll scrollY w))
  = <["scrollPosition" := VNum scrollY]> (Page.state w).
Proof.
  unfold Page.handleScroll. cbn [Page.header].
  destruct (Page.header w); cbn [store_of]; [|done].
  unfold Page.handleParallax. cbn [Page.hero].
  by destruct (Page.hero w).
Qed.

(** What scroll handling does on a page without header: the scroll
    position is stored, then reading the class list of the missing header
    throws. *)
Lemma handleScroll_bare :
  Page.handleScroll 150 Page.bare
  = Threw "TypeError"
      {| Page.state := <["scrollPosition" := VNum 150]> App.initial_state;
         Page.header := None; Page.hero := None; Page.hero_title := None;
         Page.title_frames := 0 |}.
Proof. reflexivity. Qed.

(** On the page without header the scroll handler is no no-op. *)
Lemma scroll_without_header_is_no_no_op :
  ¬ Page.scroll_is_no_op_when_absent 150 Page.bare.
Proof.
  intros Hc. specialize (Hc eq_refl). rewrite handleScroll_bare in Hc. discriminate Hc.
Qed.

(** The fallback script's scroll handler guards its header. *)
Lemma fallback_handleScroll_guarded (scrollY : Q) :
  Page.fallback_handleScroll scrollY None = Returned None.
Proof. reflexivity. Qed.

(** The entry points that guard their target: particle initialization
    without its canvas, the parallax step without the hero, the hero
    animation without its title and the form module without its form
    return without throwing and change nothing.  Scroll handling stores
    the scroll offset in [scrollPosition] on any page, and touches no
    other field of the state; with the header there it returns without
    throwing. *)
Theorem absent_targets_are_no_ops `{Host}
  (lw : Loop.World) (pw : Page.World) (fm : Page.FormModule)
  (scrollY : Q) (scrolled : Page.World) :
  Loop.canvas lw = None →
  Page.hero pw = None →
  Page.hero_title pw = None →
  Page.form fm = None →
  Loop.initializeParticles lw = lw
  ∧ Page.handleParallax scrollY pw = pw
  ∧ Page.animateHero pw = pw
  ∧ Page.form_init fm = fm
  ∧ Page.state (store_of (Page.handleScroll scrollY scrolled))
    = <["scrollPosition" := VNum scrollY]> (Page.state scrolled)
  ∧ match Page.header scrolled with
    | Some _ => threw (Page.handleScroll scrollY scrolled) = false
    | None => True
    end.
Proof.
  intros Hcanvas Hhero Htitle Hform. split_and!.
  - by apply initializeParticles_absent.
  - unfold Page.handleParallax. by rewrite Hhero.
  - unfold Page.animateHero. by rewrite Htitle.
  - unfold Page.form_init. by rewrite Hform.
  - apply handleScroll_state.
  - unfold Page.handleScroll. cbn [Page.header].
    by destruct (Page.header scrolled).
Qed.

Lemma absent_targets_are_no_ops_witness :
  Loop.canvas (Loop.fresh None) = None
  ∧ Page.hero Page.bare = None
  ∧ Page.hero_title Page.bare = None
  ∧ Page.form Page.no_form = None
  ∧ @Loop.initializeParticles Loop.sample_host (Loop.fresh None) = Loop.fresh None
  ∧ Page.handleParallax 150 Page.bare = Page.bare
  ∧ Page.animateHero Page.bare = Page.bare
  ∧ Page.form_init Page.no_form = Page.no_form
  ∧ Page.state (store_of (Page.handleScroll 150 Page.bare))
    = <["scrollPosition" := VNum 150]> (Page.state Page.bare).
Proof.
  destruct (@absent_targets_are_no_ops Loop.sample_host (Loop.fresh None) Page.bare
              Page.no_form 150 Page.bare eq_refl eq_refl eq_refl eq_refl)
    as (H1 & H2 & H3 & H4 & H5 & _).
  split_and!; try reflexivity; assumption.
Defined.

(** C2: the failing input, a page without header, hero, title, form and
    canvas that is scrolled to the offset 150.  [handleScroll] stores the
    offset and then throws at [header.classList], the header being null.
    Every sibling guards its target and is a no-op there: the scroll
    handler of the fallback script, the parallax step, the hero animation,
    the initialization of the form module and the particle
    initialization. *)
Theorem scroll_without_header_throws :
  Page.handleScroll 150 Page.bare
  = Threw "TypeError"
      {| Page.state := <["scrollPosition" := VNum 150]> App.initial_state;
         Page.header := None; Page.hero := None; Page.hero_title := None;
         Page.title_frames := 0 |}
  ∧ Page.fallback_handleScroll 150 None = Returned None
  ∧ Page.handleParallax 150 Page.bare = Page.bare
  ∧ Page.animateHero Page.bare = Page.bare
  ∧ Page.form_init Page.no_form = Page.no_form
  ∧ @Loop.initializeParticles Loop.sample_host (Loop.fresh None) = Loop.fresh None.
Proof.
  split_and!; try reflexivity.
Qed.

End AbsentTargets.

(** * Further properties of the code *)

(** ** The mobile menu *)

Section MenuFacts.
Import ClassList Menu.
Implicit Types (n : Nav) (cl : list string).

Lemma contains_remove c cl : contains c (remove c cl) = false.
Proof. apply contains_false. rewrite elem_of_remove. tauto. Qed.

Lemma contains_toggle c force cl :
  contains c (ClassList.toggle c force cl) = force.
Proof.
  destruct force; simpl; [| apply contains_remove].
  apply contains_true, elem_of_add. by right.
Qed.

Lemma remove_absent c cl : c ∉ cl → remove c cl = cl.
Proof.
  intros Hc. unfold remove. induction cl as [|d cl IH]; [done |].
  apply not_elem_of_cons in Hc as [Hne Hc].
  rewrite filter_cons_True by done. by rewrite IH.
Qed.

Lemma remove_add_absent c cl : c ∉ cl → remove c (add c cl) = cl.
Proof.
  intros Hc. unfold add. rewrite (proj2 (contains_false c cl) Hc).
  unfold remove. rewrite filter_app, filter_cons_False, filter_nil, app_nil_r
    by (intros Hne; by apply Hne).
  by apply remove_absent.
Qed.

Lemma read_setState key v (state : gmap string value) :
  App.setState {[key := v]} state !! key = Some v.
Proof. unfold App.setState. apply lookup_union_Some_l, lookup_singleton_eq. Qed.

Lemma is_open_toggle n : is_open (toggleMobileMenu n) = negb (is_open n).
Proof.
  unfold is_open, toggleMobileMenu, read. cbn [state].
  by rewrite read_setState.
Qed.

Lemma toggle_in_step n : in_step (toggleMobileMenu n).
Proof.
  unfold in_step. rewrite is_open_toggle. unfold toggleMobileMenu, is_open.
  cbn [state menu Menu.toggle overflow].
  split_and!.
  - apply read_setState.
  - destruct (menu n); simpl; [apply contains_toggle | done].
  - by destruct (Menu.toggle n).
  - done.
Qed.

Lemma close_in_step n : in_step n → in_step (closeMobileMenu n).
Proof.
  intros Hn. unfold closeMobileMenu. fold (is_open n).
  destruct (is_open n) eqn:Ho; [|done].
  assert (Hc : is_open
            {| state := App.setState {["isMenuOpen" := VBool false]} (state n);
               menu := remove "nav__list--active" <$> menu n;
               Menu.toggle := (λ _, Some "false") <$> Menu.toggle n;
               overflow := "" |} = false).
  { unfold is_open, read. cbn [state]. by rewrite read_setState. }
  unfold in_step. rewrite Hc. cbn [state menu Menu.toggle overflow].
  split_and!.
  - apply read_setState.
  - destruct (menu n); simpl; [apply contains_remove | done].
  - by destruct (Menu.toggle n).
  - done.
Qed.

Lemma act_in_step n a : in_step n → in_step (act n a).
Proof.
  intros Hn. destruct a as [| | width | key]; simpl.
  - apply toggle_in_step.
  - by apply close_in_step.
  - unfold handleResize. destruct (_ && _); [by apply close_in_step | done].
  - unfold on_keydown. destruct (_ && _); [by apply close_in_step | done].
Qed.

(** X1: once the menu has been toggled, page and state agree, whatever
    the page looked like before, and they keep agreeing under every
    further toggle, close, resize and key press. *)
Theorem menu_in_step_after_toggle (n : Nav) (actions : list action) :
  in_step (foldl act (toggleMobileMenu n) actions).
Proof.
  generalize (toggle_in_step n). generalize (toggleMobileMenu n) as m.
  induction actions as [|a actions IH]; intros m Hm; simpl; [done |].
  by apply IH, act_in_step.
Qed.

(** X2: a toggle flips the menu; from a closed menu that is in step, and
    whose elements may be there or not, two toggles give back the very
    navigation they started from. *)
Theorem menu_toggle_twice (n : Nav) :
  in_step n →
  is_open n = false →
  is_open (toggleMobileMenu n) = true
  ∧ toggleMobileMenu (toggleMobileMenu n) = n.
Proof.
  intros (Hst & Hmenu & Htoggle & Hover) Ho. rewrite Ho in *.
  split; [by rewrite is_open_toggle, Ho |].
  unfold toggleMobileMenu at 1. fold (is_open (toggleMobileMenu n)).
  rewrite is_open_toggle, Ho. cbn [negb].
  unfold toggleMobileMenu. fold (is_open n). rewrite Ho.
  cbn [negb state menu Menu.toggle overflow].
  destruct n as [st m t o]. cbn [state menu Menu.toggle overflow] in *. f_equal.
  - unfold App.setState. rewrite <- !insert_union_singleton_l.
    rewrite insert_insert_eq. by apply insert_id.
  - destruct m as [cl|]; simpl; [|done]. f_equal.
    apply remove_add_absent. by apply contains_false.
  - destruct t as [a|]; simpl; [|done]. by rewrite Htoggle.
  - done.
Qed.

Lemma menu_toggle_twice_witness :
  in_step sample ∧ is_open sample = false
  ∧ toggleMobileMenu (toggleMobileMenu sample) = sample.
Proof.
  assert (Hs : in_step sample).
  { unfold in_step, sample, is_open, read. cbn [state menu Menu.toggle overflow].
    unfold App.initial_state. rewrite !lookup_insert_ne, lookup_insert_eq by done.
    by split_and!. }
  assert (Ho : is_open sample = false).
  { unfold sample, is_open, read, App.initial_state. cbn [state].
    by rewrite !lookup_insert_ne, lookup_insert_eq by done. }
  split_and!; [exact Hs | exact Ho | exact (proj2 (menu_toggle_twice sample Hs Ho))].
Defined.

(** X3: closing is idempotent and always ends with [isMenuOpen] false; a
    resize closes the menu exactly when the window is wider than 768, and
    the Escape key always. *)
Theorem menu_close_idempotent (n : Nav) (innerWidth : Q) (key : string) :
  closeMobileMenu (closeMobileMenu n) = closeMobileMenu n
  ∧ is_open (closeMobileMenu n) = false
  ∧ handleResize innerWidth n
    = (if Qltb 768 innerWidth then closeMobileMenu n else n)
  ∧ on_keydown key n
    = (if bool_decide (key = "Escape") then closeMobileMenu n else n).
Proof.
  assert (Hclosed : is_open (closeMobileMenu n) = false).
  { unfold closeMobileMenu. fold (is_open n). destruct (is_open n) eqn:Ho; [|done].
    unfold is_open, read. cbn [state]. by rewrite read_setState. }
  split_and!; [| done | |].
  - unfold closeMobileMenu at 1. fold (is_open (closeMobileMenu n)).
    by rewrite Hclosed.
  - unfold handleResize, closeMobileMenu. fold (is_open n).
    by destruct (Qltb 768 innerWidth), (is_open n).
  - unfold on_keydown, closeMobileMenu. fold (is_open n).
    by destruct (bool_decide _), (is_open n).
Qed.

End MenuFacts.

(** ** The active link *)

Section ActiveLinkFacts.
Import ClassList Navigation.

Lemma updateActiveLink_hrefs s links :
  map href (updateActiveLink s links) = map href links.
Proof. unfold updateActiveLink. rewrite map_map. by apply map_ext. Qed.

Lemma updateActiveLink_flags s links :
  map is_active (updateActiveLink s links)
  = map (λ l, bool_decide (href l = "#" +:+ s)) links.
Proof.
  unfold updateActiveLink. rewrite map_map. apply map_ext. intros l.
  unfold is_active. simpl. apply contains_toggle.
Qed.

Lemma filter_href_none (x : string) (links : list Link) :
  x ∉ map href links → filter (λ l, href l = x) links = [].
Proof.
  induction links as [|l links IH]; intros Hx; [done |]. simpl in Hx.
  apply not_elem_of_cons in Hx as [Hne Hx].
  rewrite filter_cons_False by (intros Heq; by apply Hne). by apply IH.
Qed.

Lemma NoDup_hrefs_at_most_one (x : string) (links : list Link) :
  NoDup (map href links) →
  (length (filter (λ l, href l = x) links) ≤ 1)%nat.
Proof.
  induction links as [|l links IH]; intros Hnd; simpl; [lia |].
  apply NoDup_cons in Hnd as [Hnotin Hnd].
  destruct (decide (href l = x)) as [Hx | Hx].
  - rewrite filter_cons_True by done. simpl.
    rewrite filter_href_none by (by rewrite <- Hx). simpl. lia.
  - rewrite filter_cons_False by done. by apply IH.
Qed.

Lemma filter_length_flags {A} (f : A → bool) (l : list A) :
  length (filter (λ a, f a = true) l) = length (filter (λ b, b = true) (map f l)).
Proof.
  induction l as [|a l IH]; simpl; [done |].
  destruct (f a) eqn:Hf.
  - rewrite !filter_cons_True by done. simpl. by rewrite IH.
  - rewrite !filter_cons_False by (by rewrite ?Hf). by rewrite IH.
Qed.

(** X4: [updateActiveLink(s)] leaves a link active exactly when its
    [href] is [#s], whatever was active before, and changes no [href] and
    no other class: as many links are active as target the section, and
    with links of distinct targets that is at most one. *)
Theorem active_link_unique (s : string) (links : list Link) :
  NoDup (map href links) →
  let links' := updateActiveLink s links in
  map href links' = map href links
  ∧ map is_active links' = map (λ l, bool_decide (href l = "#" +:+ s)) links
  ∧ Forall2 (λ l l', ∀ c, c ≠ "nav__link--active" →
                          (c ∈ link_classes l' ↔ c ∈ link_classes l))
            links links'
  ∧ length (filter (λ l, is_active l = true) links')
    = length (filter (λ l, href l = "#" +:+ s) links)
  ∧ (length (filter (λ l, is_active l = true) links') ≤ 1)%nat.
Proof.
  intros Hnd links'. subst links'.
  assert (Hcount : length (filter (λ l, is_active l = true) (updateActiveLink s links))
                   = length (filter (λ l, href l = "#" +:+ s) links)).
  { rewrite filter_length_flags, updateActiveLink_flags, <- filter_length_flags.
    f_equal. apply list_filter_iff. intros l. by rewrite bool_decide_eq_true. }
  split_and!.
  - apply updateActiveLink_hrefs.
  - apply updateActiveLink_flags.
  - unfold updateActiveLink. apply Forall2_fmap_r, Forall_Forall2_diag, Forall_forall.
    intros l _ c Hc. simpl. rewrite elem_of_toggle.
    destruct (bool_decide _); tauto.
  - apply Hcount.
  - rewrite Hcount. by apply NoDup_hrefs_at_most_one.
Qed.

Lemma active_link_unique_witness :
  NoDup (map href [{| href := "#history"; link_classes := ["nav__link"; "nav__link--active"] |};
                   {| href := "#findings"; link_classes := ["nav__link"] |}])
  ∧ map is_active
      (updateActiveLink "findings"
         [{| href := "#history"; link_classes := ["nav__link"; "nav__link--active"] |};
          {| href := "#findings"; link_classes := ["nav__link"] |}])
    = [false; true].
Proof.
  assert (Hnd : NoDup (map href
            [{| href := "#history"; link_classes := ["nav__link"; "nav__link--active"] |};
             {| href := "#findings"; link_classes := ["nav__link"] |}])).
  { apply (bool_decide_unpack _). vm_compute. exact I. }
  split; [exact Hnd |].
  destruct (active_link_unique "findings" _ Hnd) as (_ & Hflags & _).
  rewrite Hflags. vm_compute. reflexivity.
Defined.

End ActiveLinkFacts.

(** ** Scroll handling with the header there *)

Section ScrollFacts.
Import ClassList Page.
Local Open Scope Q_scope.

Lemma NoDup_remove c cl : NoDup cl → NoDup (remove c cl).
Proof. intros Hnd. unfold remove. by apply NoDup_filter. Qed.

(** X5: on a page with its header, scroll handling returns, and the
    header carries [header--scrolled] exactly when the offset is above
    100, whatever it carried before; the other classes stay, no class is
    doubled, the hero, if there, is shifted by half the offset, and the
    hero title is left alone. *)
Theorem handleScroll_marks_header (scrollY : Q) (w : World) (cl : list string) :
  header w = Some cl →
  NoDup cl →
  ∃ cl', handleScroll scrollY w
         = Returned {| state := <["scrollPosition" := VNum scrollY]> (state w);
                       header := Some cl';
                       hero := (λ _, Some (scrollY * (1 # 2))) <$> hero w;
                       hero_title := hero_title w;
                       title_frames := title_frames w |}
    ∧ contains "header--scrolled" cl' = Qltb 100 scrollY
    ∧ (∀ c, c ≠ "header--scrolled" → (c ∈ cl' ↔ c ∈ cl))
    ∧ NoDup cl'.
Proof.
  intros Hh Hnd. unfold handleScroll. cbn [header]. rewrite Hh.
  unfold App.scrollThreshold.
  exists (if Qltb 100 scrollY then add "header--scrolled" cl
          else remove "header--scrolled" cl).
  split_and!.
  - unfold handleParallax. cbn [hero state header hero_title title_frames].
    by destruct (hero w).
  - destruct (Qltb 100 scrollY).
    + apply contains_true, elem_of_add. by right.
    + apply contains_remove.
  - intros c Hc. destruct (Qltb 100 scrollY).
    + rewrite elem_of_add. tauto.
    + rewrite elem_of_remove. tauto.
  - destruct (Qltb 100 scrollY); [by apply NoDup_add | by apply NoDup_remove].
Qed.

Lemma handleScroll_marks_header_witness :
  header {| state := App.initial_state; header := Some ["header"];
            hero := Some None; hero_title := None; title_frames := 0 |}
  = Some ["header"]
  ∧ NoDup ["header"]
  ∧ handleScroll 150 {| state := App.initial_state; header := Some ["header"];
                        hero := Some None; hero_title := None; title_frames := 0 |}
    = Returned {| state := <["scrollPosition" := VNum 150]> App.initial_state;
                  header := Some ["header"; "header--scrolled"];
                  hero := Some (Some (150 * (1 # 2)));
                  hero_title := None; title_frames := 0 |}.
Proof.
  assert (Hnd : NoDup ["header"]).
  { apply (bool_decide_unpack _). vm_compute. exact I. }
  destruct (handleScroll_marks_header 150
              {| state := App.initial_state; header := Some ["header"];
                 hero := Some None; hero_title := None; title_frames := 0 |}
              ["header"] eq_refl Hnd) as (cl' & _ & _ & _ & _).
  split_and!; [reflexivity | exact Hnd | reflexivity].
Defined.

End ScrollFacts.

(** ** The count-up over time *)

Section CountUpFacts.
Import Stat CountUp.
Local Open Scope Q_scope.

Lemma fourth_power x : x ^ 4 == x * x * (x * x).
Proof. simpl. ring. Qed.

(** The eased value [1 - (1 - p)^4] on [0, 1]: between 0 and 1, and
    growing with [p]. *)
Lemma ease_bounds p : 0 <= p → p <= 1 → 0 <= 1 - (1 - p) ^ 4 <= 1.
Proof.
  intros H0 H1. rewrite fourth_power.
  assert (Ha : 0 <= (1 - p) * (1 - p)) by nra.
  assert (Hb : (1 - p) * (1 - p) <= 1) by nra.
  split; nra.
Qed.

Lemma ease_mono p q : 0 <= p → p <= q → q <= 1 →
  1 - (1 - p) ^ 4 <= 1 - (1 - q) ^ 4.
Proof.
  intros H0 Hpq H1. rewrite !fourth_power.
  assert (Hs : (1 - q) * (1 - q) <= (1 - p) * (1 - p)) by nra.
  assert (Ha : 0 <= (1 - q) * (1 - q)) by nra.
  nra.
Qed.

Lemma shown_bounds (T : Z) p :
  (0 ≤ T)%Z → 0 <= p → p <= 1 → (0 ≤ shown T p ≤ T)%Z.
Proof.
  intros HT H0 H1. unfold shown. destruct (Qle_bool 1 p); [lia |].
  destruct (ease_bounds p H0 H1) as [Hlo Hhi].
  assert (HTq : 0 <= inject_Z T) by (unfold Qle; simpl; lia).
  set (e := 1 - (1 - p) ^ 4) in *.
  split.
  - rewrite <- (Qfloor_Z 0). apply Qfloor_resp_le.
    change (inject_Z 0) with 0. by apply Qmult_le_0_compat.
  - rewrite <- (Qfloor_Z T) at 2. apply Qfloor_resp_le.
    rewrite <- (Qmult_1_r (inject_Z T)) at 2.
    rewrite !(Qmult_comm (inject_Z T)). by apply Qmult_le_compat_r.
Qed.

Lemma shown_mono (T : Z) p q :
  (0 ≤ T)%Z → 0 <= p → p <= q → q <= 1 → (shown T p ≤ shown T q)%Z.
Proof.
  intros HT H0 Hpq H1. unfold shown.
  assert (HTq : 0 <= inject_Z T) by (unfold Qle; simpl; lia).
  destruct (Qle_bool 1 q) eqn:Hq.
  - destruct (Qle_bool 1 p) eqn:Hp; [lia |].
    assert (Hb : (0 ≤ shown T p ≤ T)%Z)
      by (apply (shown_bounds T p HT H0); by apply (Qle_trans _ q)).
    unfold shown in Hb. rewrite Hp in Hb. lia.
  - destruct (Qle_bool 1 p) eqn:Hp.
    + apply Qle_bool_iff in Hp. apply not_true_iff_false in Hq.
      exfalso. apply Hq, Qle_bool_iff. by apply (Qle_trans _ p).
    + apply Qfloor_resp_le. pose proof (ease_mono p q H0 Hpq H1) as He.
      rewrite !(Qmult_comm (inject_Z T)). by apply Qmult_le_compat_r.
Qed.

End CountUpFacts.

Section CountUpClaims.
Import Stat CountUp.
Local Open Scope Q_scope.
Implicit Types (c : Counter) (t : Q).

Lemma animate_shown t c :
  textContent (animate t c) = Number (shown (target_value c) (progress_at c t)).
Proof. by rewrite animate_text. Qed.

Lemma progress_range c t : startTime c <= t → 0 <= progress_at c t <= 1.
Proof.
  intros Ht. unfold progress_at, duration. split; [| apply Q.le_min_r].
  apply Q.min_glb; [| done].
  apply Qle_shift_div_l; [done |]. lra.
Qed.

Lemma progress_mono c t1 t2 : t1 <= t2 → progress_at c t1 <= progress_at c t2.
Proof.
  intros Ht. unfold progress_at, duration. apply Q.min_le_compat_r.
  unfold Qdiv. apply Qmult_le_compat_r; [lra | done].
Qed.


(** X6: for a target that is not negative, what the count-up shows never
    goes down as time goes on, and stays between 0 and the target, from
    the start on. *)
Theorem count_up_grows_to_target (c : Counter) (t1 t2 : Q) :
  (0 ≤ target_value c)%Z →
  startTime c <= t1 →
  t1 <= t2 →
  ∃ n1 n2,
    textContent (animate t1 c) = Number n1
    ∧ textContent (animate t2 c) = Number n2
    ∧ (0 ≤ n1 ≤ n2 ≤ target_value c)%Z.
Proof.
  intros HT H1 H12.
  assert (H2 : startTime c <= t2) by by apply (Qle_trans _ t1).
  destruct (progress_range c t1 H1) as [Hp0 Hp1].
  destruct (progress_range c t2 H2) as [Hq0 Hq1].
  pose proof (progress_mono c t1 t2 H12) as Hpq.
  exists (shown (target_value c) (progress_at c t1)),
         (shown (target_value c) (progress_at c t2)).
  rewrite !animate_shown. split_and!; [done | done | | |].
  - by apply shown_bounds.
  - by apply shown_mono.
  - by apply shown_bounds.
Qed.

Lemma count_up_grows_to_target_witness :
  (0 ≤ target_value requested)%Z
  ∧ startTime requested <= 500
  ∧ 500 <= 1000
  ∧ textContent (animate 500 requested) = Number 68
  ∧ textContent (animate 1000 requested) = Number 93.
Proof.
  assert (HT : (0 ≤ target_value requested)%Z) by (vm_compute; discriminate).
  assert (H1 : startTime requested <= 500) by (vm_compute; discriminate).
  assert (H2 : 500 <= 1000) by (vm_compute; discriminate).
  destruct (count_up_grows_to_target requested 500 1000 HT H1 H2)
    as (n1 & n2 & _ & _ & _).
  split_and!; [exact HT | exact H1 | exact H2 | by vm_compute | by vm_compute].
Defined.

Lemma clear_frames_idle c : scheduled c = 0%nat → clear_frames c = c.
Proof. destruct c. simpl. by intros ->. Qed.







End CountUpClaims.

(** ** Particles over many ticks *)

Section ManyTicks.
Import Particles Bounds.
Local Open Scope Q_scope.
Implicit Types (p q : Particle) (canvas : Canvas).

Lemma update_size canvas p : size (update canvas p) = size p.
Proof. reflexivity. Qed.

Lemma update_opacity canvas p : opacity (update canvas p) = opacity p.
Proof. reflexivity. Qed.

Lemma update_speed canvas p a :
  Qabs.Qabs (vel a (update canvas p)) == Qabs.Qabs (vel a p).
Proof.
  rewrite update_vel. destruct (crosses a canvas p); [| reflexivity].
  assert (Hm : vel a p * -1 == - vel a p) by ring.
  rewrite Hm. apply Qabs.Qabs_opp.
Qed.

Lemma iter_tick canvas (k : nat) (ps : list Particle) :
  Nat.iter k (tick canvas) ps = map (Nat.iter k (update canvas)) ps.
Proof.
  induction k as [|k IH]; simpl.
  - by rewrite map_id.
  - rewrite IH. unfold tick. by rewrite map_map.
Qed.

Lemma iter_update_kept canvas (k : nat) p (a : axis) :
  size (Nat.iter k (update canvas) p) = size p
  ∧ opacity (Nat.iter k (update canvas) p) = opacity p
  ∧ Qabs.Qabs (vel a (Nat.iter k (update canvas) p)) == Qabs.Qabs (vel a p).
Proof.
  induction k as [|k (Hs & Ho & Hv)]; [by split_and! |].
  change (Nat.iter (S k) (update canvas) p)
    with (update canvas (Nat.iter k (update canvas) p)).
  split_and!; [done | done |]. by rewrite update_speed.
Qed.

(** X8: ticking keeps the field as it was allocated: after any number of
    ticks there are as many particles, each with the radius and opacity
    it had, and with the same speed along either axis; only positions
    and the signs of the velocities change. *)
Theorem ticks_conserve (canvas : Canvas) (ps : list Particle) (k : nat) :
  let ps' := Nat.iter k (tick canvas) ps in
  length ps' = length ps
  ∧ map size ps' = map size ps
  ∧ map opacity ps' = map opacity ps
  ∧ Forall2 (λ p p', Qabs.Qabs (vx p') == Qabs.Qabs (vx p) ∧ Qabs.Qabs (vy p') == Qabs.Qabs (vy p))
            ps ps'.
Proof.
  intros ps'. subst ps'. rewrite iter_tick.
  split_and!.
  - apply length_map.
  - rewrite map_map. apply map_ext. intros p.
    by destruct (iter_update_kept canvas k p X) as (-> & _).
  - rewrite map_map. apply map_ext. intros p.
    by destruct (iter_update_kept canvas k p X) as (_ & -> & _).
  - apply Forall2_fmap_r, Forall_Forall2_diag, Forall_forall. intros p _.
    split.
    + by destruct (iter_update_kept canvas k p X) as (_ & _ & Hv).
    + by destruct (iter_update_kept canvas k p Y) as (_ & _ & Hv).
Qed.

Lemma update_returning a canvas p : returning a canvas p → returning a canvas (update canvas p).
Proof.
  intros [Hin | Hnext].
  - destruct (crosses a canvas p) eqn:Hc.
    + right. rewrite update_pos, update_vel, Hc.
      unfold within in Hin.
      assert (Hb : pos a p + vel a p + vel a p * -1 == pos a p) by ring.
      by rewrite Hb.
    + left. unfold within. rewrite update_pos. by apply crosses_false.
  - left. unfold within. by rewrite update_pos.
Qed.

Lemma iter_returning a canvas p (k : nat) :
  within a canvas p → returning a canvas (Nat.iter k (update canvas) p).
Proof.
  intros Hin. induction k as [|k IH]; [by left |].
  by apply update_returning.
Qed.

Lemma Qabs_bounds v : - Qabs.Qabs v <= v ∧ v <= Qabs.Qabs v.
Proof.
  split; [| apply Qabs.Qle_Qabs].
  rewrite <- (Qopp_involutive v) at 2. apply Qopp_le_compat.
  rewrite <- Qabs.Qabs_opp. apply Qabs.Qle_Qabs.
Qed.

Lemma returning_grows a canvas next p :
  extent a canvas <= extent a next → returning a canvas p → returning a next p.
Proof.
  intros Hle [[H0 H1] | [H0 H1]]; [left | right]; split; try done;
    by eapply Qle_trans.
Qed.

Lemma last_size_cons canvas next sizes :
  last_size canvas (next :: sizes) = last_size next sizes.
Proof. unfold last_size. rewrite last_cons. by destruct (last sizes). Qed.

Lemma resized_ticks_returning a sizes canvas p :
  returning a canvas p →
  never_shrinks a canvas sizes →
  returning a (last_size canvas sizes) (resized_ticks sizes p).
Proof.
  revert canvas p.
  induction sizes as [| next sizes IH]; intros canvas p Hret Hgrow; [exact Hret |].
  destruct Hgrow as [Hle Hgrow]. rewrite last_size_cons.
  change (resized_ticks (next :: sizes) p)
    with (resized_ticks sizes (update next p)).
  apply IH; [| done]. apply update_returning. by eapply returning_grows.
Qed.

Lemma resized_ticks_speed a sizes p :
  Qabs.Qabs (vel a (resized_ticks sizes p)) == Qabs.Qabs (vel a p).
Proof.
  revert p. induction sizes as [| next sizes IH]; intros p; [reflexivity |].
  change (resized_ticks (next :: sizes) p)
    with (resized_ticks sizes (update next p)).
  by rewrite IH, update_speed.
Qed.

(** X9: the soft boundary is a bounded one, as long as no resize makes
    the surface shorter along the axis.  Whatever sizes the ticks read, a
    particle that started within the bounds of the axis is never further
    outside the bounds its last tick read than its speed along that axis,
    and is never outside for two frames in a row: if it is outside now,
    the next tick brings it back within the bounds that tick reads. *)
Theorem overshoot_bounded (canvas : Canvas) (sizes : list Canvas)
    (next : Canvas) (p : Particle) (a : axis) :
  within a canvas p →
  never_shrinks a canvas sizes →
  extent a (last_size canvas sizes) <= extent a next →
  let pk := resized_ticks sizes p in
  let ck := last_size canvas sizes in
  (within a ck pk ∨ within a next (update next pk))
  ∧ - Qabs.Qabs (vel a p) <= pos a pk <= extent a ck + Qabs.Qabs (vel a p).
Proof.
  intros Hin Hgrow Hnext pk ck. subst pk ck.
  pose proof (resized_ticks_returning a sizes canvas p (or_introl Hin) Hgrow) as Hret.
  pose proof (resized_ticks_speed a sizes p) as Hv.
  set (pk := resized_ticks sizes p) in *.
  set (ck := last_size canvas sizes) in *.
  pose proof (Qabs.Qabs_nonneg (vel a p)) as Hnn.
  destruct (Qabs_bounds (vel a pk)) as [Hlo Hhi]. rewrite Hv in Hlo, Hhi.
  split.
  - destruct Hret as [Hw | [H0 H1]]; [by left |].
    right. unfold within. rewrite update_pos. split; [done |].
    by eapply Qle_trans.
  - destruct Hret as [[H0 H1] | [H0 H1]]; split; lra.
Qed.

Lemma overshoot_bounded_witness :
  within X {| width := 300; height := 150 |} sample_particle
  ∧ never_shrinks X {| width := 300; height := 150 |}
      [{| width := 300; height := 150 |}; {| width := 320; height := 150 |}]
  ∧ (let pk := resized_ticks
                 [{| width := 300; height := 150 |}; {| width := 320; height := 150 |}]
                 sample_particle in
     - Qabs.Qabs (vel X sample_particle) <= pos X pk
       <= extent X {| width := 320; height := 150 |} + Qabs.Qabs (vel X sample_particle)).
Proof.
  assert (Hin : within X {| width := 300; height := 150 |} sample_particle).
  { split; vm_compute; discriminate. }
  assert (Hgrow : never_shrinks X {| width := 300; height := 150 |}
            [{| width := 300; height := 150 |}; {| width := 320; height := 150 |}]).
  { split; [vm_compute; discriminate |]. split; [vm_compute; discriminate | exact I]. }
  assert (Hnext : extent X (last_size {| width := 300; height := 150 |}
                      [{| width := 300; height := 150 |}; {| width := 320; height := 150 |}])
                  <= extent X {| width := 320; height := 200 |}).
  { vm_compute. discriminate. }
  split; [exact Hin |]. split; [exact Hgrow |].
  exact (proj2 (overshoot_bounded {| width := 300; height := 150 |}
                  [{| width := 300; height := 150 |}; {| width := 320; height := 150 |}]
                  {| width := 320; height := 200 |} sample_particle X
                  Hin Hgrow Hnext)).
Defined.

End ManyTicks.

(** ** Frames and resizes *)

Section FrameFacts.
Import Particles Loops.
Context `{Host}.

Lemma run_callbacks (cbs : list (nat * nat)) (w : Loop.World) :
  Forall (λ cb, cb.2 < length (Loop.systems w)) cbs →
  let w' := foldl (λ w cb, (Loop.animate cb.2 w).2) w cbs in
  Loop.callbacks w'
  = Loop.callbacks w ++ zip (seq (Loop.next_handle w) (length cbs)) (map snd cbs)
  ∧ Loop.next_handle w' = Loop.next_handle w + length cbs
  ∧ length (Loop.systems w') = length (Loop.systems w)
  ∧ Loop.iterations w' = Loop.iterations w + length cbs
  ∧ Loop.particleAnimationId w' = Loop.particleAnimationId w
  ∧ Loop.canvas w' = Loop.canvas w.
Proof.
  revert w. induction cbs as [|[h s] cbs IH]; intros w Hlive; simpl.
  - rewrite app_nil_r. split_and!; try done; lia.
  - apply Forall_cons in Hlive as [Hs Hlive]. simpl in Hs.
    destruct (lookup_lt_is_Some_2 _ _ Hs) as [sys Hsys].
    pose proof (animate_present w s sys Hsys) as Ha. cbv zeta in Ha.
    pose proof (iterations_animate w s sys Hsys) as Hi.
    set (w1 := (Loop.animate s w).2) in *.
    assert (Hw1 : Loop.callbacks w1 = Loop.callbacks w ++ [(Loop.next_handle w, s)]
                  ∧ Loop.next_handle w1 = S (Loop.next_handle w)
                  ∧ length (Loop.systems w1) = length (Loop.systems w)
                  ∧ Loop.particleAnimationId w1 = Loop.particleAnimationId w
                  ∧ Loop.canvas w1 = Loop.canvas w).
    { subst w1. rewrite Ha. cbn [snd Loop.callbacks Loop.next_handle Loop.systems
                                 Loop.particleAnimationId Loop.canvas].
      by rewrite length_insert. }
    destruct Hw1 as (Hcb & Hnext & Hlen & Hid & Hcanvas).
    destruct (IH w1) as (IHcb & IHnext & IHlen & IHit & IHid & IHcanvas).
    { by rewrite Hlen. }
    rewrite IHcb, IHnext, IHlen, IHit, IHid, IHcanvas.
    rewrite Hcb, Hnext, Hlen, Hi, Hid, Hcanvas, <- app_assoc.
    split_and!; try done; lia.
Qed.

(** X10: the loops reschedule themselves.  A frame runs one iteration of
    every loop that was waiting, in order, and leaves the same loops
    waiting, each under a handle the host has not given out before; no
    loop is added or lost, and [particleAnimationId] is not touched. *)
Theorem frame_reschedules_every_loop (w : Loop.World) :
  loops_live w →
  let w' := Loop.run_frame w in
  Loop.callbacks w'
  = zip (seq (Loop.next_handle w) (length (Loop.callbacks w)))
        (map snd (Loop.callbacks w))
  ∧ Loop.iterations w' = Loop.iterations w + length (Loop.callbacks w)
  ∧ Loop.next_handle w' = Loop.next_handle w + length (Loop.callbacks w)
  ∧ length (Loop.systems w') = length (Loop.systems w)
  ∧ Loop.particleAnimationId w' = Loop.particleAnimationId w
  ∧ loops_live w'.
Proof.
  intros Hlive w'. subst w'. unfold Loop.run_frame.
  destruct (run_callbacks (Loop.callbacks w) (Loop.set_callbacks [] w) Hlive)
    as (Hcb & Hnext & Hlen & Hit & Hid & _).
  cbn [Loop.set_callbacks Loop.callbacks Loop.next_handle Loop.systems
       Loop.particleAnimationId app] in *.
  split_and!; [done | done | done | done | done |].
  unfold loops_live, Loop.run_frame. rewrite Hcb, Hlen.
  cbn [Loop.set_callbacks Loop.systems].
  apply Forall_forall. intros [h s] Hin.
  apply elem_of_zip_r in Hin. simpl in *.
  apply list_elem_of_In, in_map_iff in Hin as ([h0 s0] & <- & Hin0).
  apply list_elem_of_In in Hin0.
  by apply (proj1 (Forall_forall _ _) Hlive (h0, s0)).
Qed.

(** X11: a resize after a frame adds a loop.  With the canvas there and a
    handle in [particleAnimationId] that is no longer waiting,
    [updateParticles] cancels nothing: every loop that was waiting still
    is, and one more, for a system allocated afresh, waits behind them. *)
Theorem resize_adds_loop (w : Loop.World) (c : Canvas) (h : nat) :
  Loop.canvas w = Some c →
  Loop.particleAnimationId w = Some (S h) →
  S h ∉ map fst (Loop.callbacks w) →
  let w' := Loop.updateParticles w in
  Loop.callbacks w'
  = Loop.callbacks w ++ [(Loop.next_handle w, length (Loop.systems w))]
  ∧ length (Loop.systems w') = S (length (Loop.systems w))
  ∧ Loop.particleAnimationId w' = Some (Loop.next_handle w).
Proof.
  intros Hc Hid Hstale w'. subst w'. unfold Loop.updateParticles.
  rewrite Hid. cbn [Loop.truthy Nat.eqb negb].
  assert (Hcancel : Loop.cancelAnimationFrame (S h) w = w).
  { unfold Loop.cancelAnimationFrame.
    assert (Hf : filter (λ cb, cb.1 ≠ S h) (Loop.callbacks w) = Loop.callbacks w).
    { revert Hstale. generalize (Loop.callbacks w) as cbs.
      induction cbs as [|cb cbs IH]; intros Hstale; [done |]. simpl in Hstale.
      apply not_elem_of_cons in Hstale as [Hne Hstale].
      rewrite filter_cons_True by (intros Heq; by apply Hne). by rewrite IH. }
    rewrite Hf. by destruct w. }
  rewrite Hcancel, (initializeParticles_present w c Hc). cbv zeta.
  cbn [Loop.callbacks Loop.systems Loop.particleAnimationId].
  split_and!; [done | | done].
  rewrite length_app. simpl. lia.
Qed.

(** The world one frame after initialization on a loaded page. *)
Lemma after_first_frame (c : Canvas) (used : nat) :
  let w := Loop.run_frame (Loop.initializeParticles (Loop.loaded used (Some c))) in
  Loop.canvas w = Some c
  ∧ Loop.particleAnimationId w = Some (S used)
  ∧ Loop.callbacks w = [(S (S used), 0)]
  ∧ Loop.next_handle w = S (S (S used))
  ∧ length (Loop.systems w) = 1.
Proof.
  pose proof (initializeParticles_present (Loop.loaded used (Some c)) c eq_refl) as H1.
  cbv zeta in H1. cbn [Loop.loaded Loop.random_calls Loop.next_handle Loop.callbacks
                       Loop.systems Loop.surface app length] in H1.
  cbv zeta. rewrite H1. clear H1.
  set (ps := tick c (spawn c particleCount 0)).
  destruct (run_frame_single
              {| Loop.canvas := Some c;
                 Loop.random_calls := 0 + 6 * particleCount;
                 Loop.next_handle := S (S used);
                 Loop.callbacks := [(S used, 0)];
                 Loop.systems := [{| Loop.sys_canvas := c; Loop.particles := ps |}];
                 Loop.particleAnimationId := Some (S used);
                 Loop.surface := render c ps |}
              (S used) 0 {| Loop.sys_canvas := c; Loop.particles := ps |}
              eq_refl eq_refl) as [-> _].
  by split_and!.
Qed.

End FrameFacts.

Section FrameWitness.
Import Particles Loops.

Lemma resize_adds_loop_witness :
  Loop.canvas after_one_frame = Some Loop.sample_canvas
  ∧ Loop.particleAnimationId after_one_frame = Some 1
  ∧ (1 ∉ map fst (Loop.callbacks after_one_frame))
  ∧ Loop.callbacks (@Loop.updateParticles Loop.sample_host after_one_frame)
    = [(2, 0); (3, 1)].
Proof.
  assert (Hw : Loop.canvas after_one_frame = Some Loop.sample_canvas
               ∧ Loop.particleAnimationId after_one_frame = Some 1
               ∧ Loop.callbacks after_one_frame = [(2, 0)]
               ∧ Loop.next_handle after_one_frame = 3
               ∧ length (Loop.systems after_one_frame) = 1)
    by exact (@after_first_frame Loop.sample_host Loop.sample_canvas 0).
  destruct Hw as (Hc & Hid & Hcb & Hnext & Hlen).
  assert (Hstale : 1 ∉ map fst (Loop.callbacks after_one_frame)).
  { rewrite Hcb. simpl. intros Hin. apply list_elem_of_singleton in Hin. lia. }
  destruct (@resize_adds_loop Loop.sample_host after_one_frame
              Loop.sample_canvas 0 Hc Hid Hstale) as (Hcbs & _ & _).
  split_and!; [exact Hc | exact Hid | exact Hstale |].
  rewrite Hcbs, Hcb, Hnext, Hlen. reflexivity.
Defined.

Lemma frame_reschedules_every_loop_witness :
  loops_live after_one_frame
  ∧ Loop.callbacks (@Loop.run_frame Loop.sample_host after_one_frame) = [(3, 0)].
Proof.
  assert (Hw : Loop.canvas after_one_frame = Some Loop.sample_canvas
               ∧ Loop.particleAnimationId after_one_frame = Some 1
               ∧ Loop.callbacks after_one_frame = [(2, 0)]
               ∧ Loop.next_handle after_one_frame = 3
               ∧ length (Loop.systems after_one_frame) = 1)
    by exact (@after_first_frame Loop.sample_host Loop.sample_canvas 0).
  destruct Hw as (Hc & Hid & Hcb & Hnext & Hlen).
  assert (Hlive : loops_live after_one_frame).
  { unfold loops_live. rewrite Hcb, Hlen. by repeat constructor. }
  destruct (@frame_reschedules_every_loop Loop.sample_host after_one_frame Hlive)
    as (Hcbs & _).
  split; [exact Hlive |]. rewrite Hcbs, Hcb, Hnext. reflexivity.
Defined.

End FrameWitness.

(** ** The animation player *)

Section PlayerFacts.
Import ClassList Animation.
Local Open Scope nat_scope.
Implicit Types (m : Player) (k : nat).

Lemma imap_flags {A B} (f : nat → A → B) (g : nat → B) (l : list A) :
  (∀ i a, f i a = g i) → imap f l = map g (seq 0 (length l)).
Proof.
  intros Hfg. apply list_eq. intros i.
  rewrite list_lookup_imap, list_lookup_fmap.
  destruct (l !! i) as [a|] eqn:Hl; simpl.
  - rewrite lookup_seq_lt by by eapply lookup_lt_Some. simpl. by rewrite Hfg.
  - rewrite lookup_seq_ge by by apply lookup_ge_None. done.
Qed.

Lemma showFrame_flags k m :
  map (contains "frame--active") (frames (showFrame k m))
  = map (λ i, bool_decide (i + 1 = k)) (seq 0 (length (frames m))).
Proof.
  unfold showFrame, updateFrameContent. cbn [frames set_frames].
  rewrite <- (imap_flags (λ i (_ : list string), bool_decide (i + 1 = k)) _ (frames m))
    by done.
  apply list_eq. intros i. rewrite list_lookup_fmap, !list_lookup_imap.
  destruct (frames m !! i); simpl; [| done]. by rewrite contains_toggle.
Qed.

Lemma one_flag k (a n : nat) :
  length (filter (λ b, b = true) (map (λ i, bool_decide (i + 1 = k)) (seq a n)))
  = if bool_decide (a < k ≤ a + n) then 1 else 0.
Proof.
  revert a. induction n as [|n IH]; intros a; simpl.
  - rewrite bool_decide_eq_false_2 by lia. done.
  - destruct (decide (a + 1 = k)) as [Hk | Hk].
    + rewrite (bool_decide_eq_true_2 (a + 1 = k)) by done.
      rewrite filter_cons_True by done. simpl. rewrite IH.
      rewrite (bool_decide_eq_false_2 (S a < k ≤ S a + n)) by lia.
      rewrite bool_decide_eq_true_2 by lia. done.
    + rewrite (bool_decide_eq_false_2 (a + 1 = k)) by done.
      rewrite filter_cons_False by done. rewrite IH.
      destruct (decide (S a < k ≤ S a + n)).
      * rewrite !bool_decide_eq_true_2 by lia. done.
      * rewrite !bool_decide_eq_false_2 by lia. done.
Qed.

Lemma showFrame_kept k m :
  currentFrame (showFrame k m) = k
  ∧ length (frames (showFrame k m)) = length (frames m)
  ∧ length (placeholders (showFrame k m)) = length (placeholders m)
  ∧ state (showFrame k m) = state m
  ∧ isPlaying (showFrame k m) = isPlaying m
  ∧ animationInterval (showFrame k m) = animationInterval m
  ∧ intervals_made (showFrame k m) = intervals_made m
  ∧ intervals (showFrame k m) = intervals m
  ∧ playButton (showFrame k m) = playButton m
  ∧ pauseButton (showFrame k m) = pauseButton m.
Proof.
  unfold showFrame, updateFrameContent. cbn.
  rewrite !length_imap. by split_and!.
Qed.

(** X12: [showFrame(k)] for a frame that exists marks that frame, and
    that frame only, as active, whatever was marked before, makes it the
    current frame, and rewrites every placeholder for the new current
    frame and the gender version of the state. *)
Theorem showFrame_one_active (m : Player) (k : nat) :
  1 ≤ k ≤ length (frames m) →
  let m' := showFrame k m in
  currentFrame m' = k
  ∧ map (contains "frame--active") (frames m')
    = map (λ i, bool_decide (i + 1 = k)) (seq 0 (length (frames m)))
  ∧ length (filter (λ cl, contains "frame--active" cl = true) (frames m')) = 1
  ∧ placeholders m'
    = map (λ i, frame_text k (read (state m) "genderVersion") (i + 1))
          (seq 0 (length (placeholders m))).
Proof.
  intros Hk m'. subst m'.
  split_and!.
  - apply showFrame_kept.
  - apply showFrame_flags.
  - rewrite filter_length_flags, showFrame_flags, one_flag.
    by rewrite bool_decide_eq_true_2 by lia.
  - unfold showFrame, updateFrameContent. cbn.
    by apply imap_flags.
Qed.

Lemma showFrame_one_active_witness :
  1 ≤ 2 ≤ length (frames sample)
  ∧ frames (showFrame 2 sample)
    = [["frame"]; ["frame"; "frame--active"]; ["frame"]]
  ∧ placeholders (showFrame 2 sample)
    = ["Frame 1: Inactive State (Male Version)";
       "Frame 2: Active State (Male Version)";
       "Frame 3: Inactive State (Male Version)"].
Proof.
  assert (Hk : 1 ≤ 2 ≤ length (frames sample)) by (simpl; lia).
  destruct (showFrame_one_active sample 2 Hk) as (_ & _ & _ & Htext).
  split; [exact Hk |]. split; [by vm_compute |].
  rewrite Htext. unfold read, sample, App.initial_state. cbn [state placeholders length].
  rewrite lookup_insert_ne, lookup_insert_eq by done. by vm_compute.
Defined.

Lemma nextFrame_current m :
  currentFrame (nextFrame m)
  = if bool_decide (length (frames m) ≤ currentFrame m) then 1 else currentFrame m + 1.
Proof. unfold nextFrame. cbv zeta. apply showFrame_kept. Qed.

Lemma nextFrame_frames m : length (frames (nextFrame m)) = length (frames m).
Proof. unfold nextFrame. apply showFrame_kept. Qed.

Lemma iter_nextFrame_frames (j : nat) m :
  length (frames (Nat.iter j nextFrame m)) = length (frames m).
Proof.
  induction j as [|j IH]; [done |].
  change (Nat.iter (S j) nextFrame m) with (nextFrame (Nat.iter j nextFrame m)).
  by rewrite nextFrame_frames.
Qed.

Lemma step_mod (a n : nat) :
  0 < n →
  (if bool_decide (n ≤ a mod n + 1) then 1 else a mod n + 1 + 1) = S a mod n + 1.
Proof.
  intros Hn. pose proof (Nat.mod_upper_bound a n ltac:(lia)) as Hlt.
  assert (Hs : S a mod n = (a mod n + 1) mod n).
  { rewrite Nat.Div0.add_mod_idemp_l. f_equal. lia. }
  rewrite Hs. clear Hs. generalize dependent (a mod n). intros r Hlt.
  destruct (decide (r + 1 = n)) as [Hlast | Hmid].
  - rewrite bool_decide_eq_true_2 by lia. rewrite Hlast.
    by rewrite Nat.Div0.mod_same.
  - rewrite bool_decide_eq_false_2 by lia.
    rewrite (Nat.mod_small (r + 1) n) by lia. done.
Qed.

Lemma iter_nextFrame_current (j : nat) m :
  1 ≤ currentFrame m ≤ length (frames m) →
  currentFrame (Nat.iter j nextFrame m)
  = (currentFrame m - 1 + j) mod length (frames m) + 1.
Proof.
  intros Hcf. set (n := length (frames m)) in *.
  induction j as [|j IH].
  - simpl. rewrite Nat.add_0_r, Nat.mod_small by lia. lia.
  - change (Nat.iter (S j) nextFrame m) with (nextFrame (Nat.iter j nextFrame m)).
    rewrite nextFrame_current, iter_nextFrame_frames, IH. fold n.
    replace (currentFrame m - 1 + S j) with (S (currentFrame m - 1 + j)) by lia.
    apply step_mod. lia.
Qed.

(** X13: stepping goes round.  With the current frame among the [n]
    frames of the page, [j] steps of [nextFrame] lead to frame
    [(current - 1 + j) mod n + 1]: never outside 1..n, back at the start
    after [n] steps, and with exactly one frame marked active after every
    step. *)
Theorem nextFrame_cycles (m : Player) (j : nat) :
  1 ≤ currentFrame m ≤ length (frames m) →
  let n := length (frames m) in
  currentFrame (Nat.iter j nextFrame m) = (currentFrame m - 1 + j) mod n + 1
  ∧ 1 ≤ currentFrame (Nat.iter j nextFrame m) ≤ n
  ∧ currentFrame (Nat.iter n nextFrame m) = currentFrame m
  ∧ length (filter (λ cl, contains "frame--active" cl = true)
                   (frames (Nat.iter (S j) nextFrame m))) = 1.
Proof.
  intros Hcf n. subst n. set (n := length (frames m)) in *.
  pose proof (Nat.mod_upper_bound (currentFrame m - 1 + j) n ltac:(lia)) as Hlt.
  split; [| split; [| split]].
  - by apply iter_nextFrame_current.
  - rewrite iter_nextFrame_current by done. fold n. lia.
  - rewrite iter_nextFrame_current by done. fold n.
    replace (currentFrame m - 1 + n) with (currentFrame m - 1 + 1 * n) by lia.
    rewrite Nat.Div0.mod_add, Nat.mod_small by lia. lia.
  - change (Nat.iter (S j) nextFrame m) with (nextFrame (Nat.iter j nextFrame m)).
    unfold nextFrame. cbv zeta.
    rewrite filter_length_flags, showFrame_flags, one_flag.
    rewrite iter_nextFrame_frames, iter_nextFrame_current by done. fold n.
    destruct (decide (n ≤ (currentFrame m - 1 + j) mod n + 1)).
    + rewrite (bool_decide_eq_true_2 (n ≤ _)) by done.
      by rewrite bool_decide_eq_true_2 by lia.
    + rewrite (bool_decide_eq_false_2 (n ≤ _)) by done.
      by rewrite bool_decide_eq_true_2 by lia.
Qed.

Lemma nextFrame_cycles_witness :
  1 ≤ currentFrame sample ≤ length (frames sample)
  ∧ currentFrame (Nat.iter 1 nextFrame sample) = 2
  ∧ currentFrame (Nat.iter 2 nextFrame sample) = 3
  ∧ currentFrame (Nat.iter 3 nextFrame sample) = 1.
Proof.
  assert (Hcf : 1 ≤ currentFrame sample ≤ length (frames sample)) by (simpl; lia).
  split; [exact Hcf |]. split; [| split].
  - exact (proj1 (nextFrame_cycles sample 1 Hcf)).
  - exact (proj1 (nextFrame_cycles sample 2 Hcf)).
  - exact (proj1 (nextFrame_cycles sample 3 Hcf)).
Defined.

End PlayerFacts.

Section PlayerRuns.
Import ClassList Animation.
Local Open Scope nat_scope.
Implicit Types (m : Player).

Lemma nextFrame_kept m :
  isPlaying (nextFrame m) = isPlaying m
  ∧ animationInterval (nextFrame m) = animationInterval m
  ∧ intervals_made (nextFrame m) = intervals_made m
  ∧ intervals (nextFrame m) = intervals m
  ∧ playButton (nextFrame m) = playButton m
  ∧ pauseButton (nextFrame m) = pauseButton m.
Proof.
  unfold nextFrame. cbv zeta.
  by destruct (showFrame_kept
                 (if bool_decide (length (frames m) ≤ currentFrame m)
                  then 1 else currentFrame m + 1) m)
    as (_ & _ & _ & _ & -> & -> & -> & -> & -> & ->).
Qed.

Lemma iter_nextFrame_kept (j : nat) m :
  isPlaying (Nat.iter j nextFrame m) = isPlaying m
  ∧ animationInterval (Nat.iter j nextFrame m) = animationInterval m
  ∧ intervals_made (Nat.iter j nextFrame m) = intervals_made m
  ∧ intervals (Nat.iter j nextFrame m) = intervals m
  ∧ playButton (Nat.iter j nextFrame m) = playButton m
  ∧ pauseButton (Nat.iter j nextFrame m) = pauseButton m.
Proof.
  induction j as [|j IH]; [done |].
  change (Nat.iter (S j) nextFrame m) with (nextFrame (Nat.iter j nextFrame m)).
  destruct (nextFrame_kept (Nat.iter j nextFrame m)) as (-> & -> & -> & -> & -> & ->).
  exact IH.
Qed.

Lemma act_one_interval m a :
  one_interval m → ∃ m', act m a = Returned m' ∧ one_interval m'.
Proof.
  intros (Hplay & Hpause & Hcases). destruct a; simpl.
  - unfold playAnimation.
    destruct Hcases as [(Hp & Hi & Hl) | (Hp & Hi & Hl & Hne)]; rewrite Hp.
    + cbn [set_playing playButton pauseButton intervals_made intervals state
           currentFrame isPlaying frames placeholders analytics].
      destruct Hplay as [b ->], Hpause as [b' ->].
      eexists. split; [reflexivity |].
      unfold one_interval. cbn. rewrite Hl.
      split_and!; [by eexists | by eexists |]. right. by split_and!.
    + exists m. split; [done |]. split_and!; [done | done |]. right. by split_and!.
  - unfold pauseAnimation.
    destruct Hcases as [(Hp & Hi & Hl) | (Hp & Hi & Hl & Hne)]; rewrite Hp.
    + exists m. split; [done |]. split_and!; [done | done |]. left. by split_and!.
    + cbn [negb set_playing playButton pauseButton intervals_made intervals state
           currentFrame isPlaying frames placeholders analytics animationInterval].
      destruct Hplay as [b ->], Hpause as [b' ->]. rewrite Hi, Hl.
      destruct (intervals_made m) as [|made] eqn:Hmade; [done |].
      cbn [Nat.eqb fst snd].
      eexists. split; [reflexivity |].
      unfold one_interval. cbn [playButton pauseButton isPlaying animationInterval
                                intervals intervals_made].
      split_and!; [by eexists | by eexists |]. left. split_and!; [done | done |].
      by rewrite filter_cons_False, filter_nil by (intros Hn; by apply Hn).
  - eexists. split; [reflexivity |]. unfold Animation.second, one_interval.
    destruct (iter_nextFrame_kept (length (intervals m)) m)
      as (-> & -> & -> & -> & -> & ->).
    by split_and!.
Qed.

(** X14: with both buttons on the page the player never runs two
    intervals.  From a player that is stopped, or plays on the one
    interval it remembers, no sequence of clicks on play and pause and of
    seconds going by throws, and it always ends in such a player again: a
    second click on play starts nothing, and pause stops the interval
    that runs. *)
Theorem player_one_interval (m : Player) (actions : list action) :
  one_interval m →
  ∃ m', run actions m = Returned m'
        ∧ one_interval m'
        ∧ length (intervals m') ≤ 1.
Proof.
  revert m. induction actions as [|a actions IH]; intros m Hm; simpl.
  - exists m. split_and!; [done | done |].
    destruct Hm as (_ & _ & [(_ & _ & ->) | (_ & _ & -> & _)]); simpl; lia.
  - destruct (act_one_interval m a Hm) as (m1 & -> & Hm1). by apply IH.
Qed.

Lemma player_one_interval_witness :
  one_interval sample
  ∧ ∃ m', run [Play; Play; Second; Pause; Play] sample = Returned m'
          ∧ intervals m' = [2].
Proof.
  assert (Hs : one_interval sample).
  { unfold one_interval, sample. cbn. split_and!; [by eexists | by eexists |].
    left. by split_and!. }
  split; [exact Hs |].
  destruct (player_one_interval sample [Play; Play; Second; Pause; Play] Hs)
    as (m' & Hrun & _ & _).
  exists m'. split; [exact Hrun |].
  assert (Hv : intervals (store_of (run [Play; Play; Second; Pause; Play] sample)) = [2])
    by (vm_compute; reflexivity).
  by rewrite Hrun in Hv.
Defined.

Lemma act_without_pause m a :
  pauseButton m = None → intervals m = [] →
  pauseButton (store_of (act m a)) = None
  ∧ intervals (store_of (act m a)) = []
  ∧ frames (store_of (act m a)) = frames m
  ∧ currentFrame (store_of (act m a)) = currentFrame m.
Proof.
  intros Hp Hi. destruct a; simpl.
  - unfold playAnimation. destruct (isPlaying m); [done |].
    cbn [set_playing playButton pauseButton]. rewrite Hp.
    by destruct (playButton m).
  - unfold pauseAnimation. destruct (isPlaying m); [| done].
    cbn [negb set_playing playButton pauseButton]. rewrite Hp.
    by destruct (playButton m).
  - unfold Animation.second. rewrite Hi. done.
Qed.

Lemma respond_without_pause m m' g :
  pauseButton m = None → intervals m = [] →
  frames m = frames m' → currentFrame m = currentFrame m' →
  let n := respond m g in
  let n' := if is_click g then respond m' g else m' in
  pauseButton n = None ∧ intervals n = []
  ∧ frames n = frames n' ∧ currentFrame n = currentFrame n'.
Proof.
  intros Hp Hi Hf Hc. cbv zeta. destruct g as [a | index]; cbn [is_click respond].
  - destruct (act_without_pause m a Hp Hi) as (Hp1 & Hi1 & Hf1 & Hc1).
    split_and!; [done | done | by rewrite Hf1 | by rewrite Hc1].
  - rewrite <- Hf. case_bool_decide; [| done].
    destruct (showFrame_kept (index + 1) m) as (Hc1 & _ & _ & _ & _ & _ & _ & Hi1 & _ & Hp1).
    destruct (showFrame_kept (index + 1) m') as (Hc2 & _).
    split_and!; [by rewrite Hp1 | by rewrite Hi1 | | by rewrite Hc1, Hc2].
    unfold showFrame, updateFrameContent. cbn [frames set_frames]. by rewrite Hf.
Qed.

Lemma go_on_without_pause gestures m m' :
  pauseButton m = None → intervals m = [] →
  frames m = frames m' → currentFrame m = currentFrame m' →
  intervals (go_on gestures m) = []
  ∧ frames (go_on gestures m) = frames (go_on (clicks_only gestures) m')
  ∧ currentFrame (go_on gestures m) = currentFrame (go_on (clicks_only gestures) m').
Proof.
  revert m m'.
  induction gestures as [| g gestures IH]; intros m m' Hp Hi Hf Hc; [done |].
  destruct (respond_without_pause m m' g Hp Hi Hf Hc) as (Hp1 & Hi1 & Hf1 & Hc1).
  unfold go_on, clicks_only in *. cbn [foldl].
  destruct (is_click g) eqn:Hg.
  - rewrite filter_cons_True by done. cbn [foldl]. by apply IH.
  - rewrite filter_cons_False by (by rewrite Hg). by apply IH.
Qed.

(** X15: on a page without the pause button the animation cannot be
    played.  A click on play throws once the player has marked itself as
    playing, before any interval is set.  Whatever the user does then,
    going on after the errors, with clicks on play, on pause and on
    frames and with seconds going by, no interval ever runs, and the
    frames are those the clicks on frames alone lead to: without a click
    on a frame no frame ever changes. *)
Theorem no_pause_button_no_animation (m : Player) (actions : list action)
    (gestures : list gesture) :
  pauseButton m = None →
  intervals m = [] →
  isPlaying m = false →
  threw (playAnimation m) = true
  ∧ isPlaying (store_of (playAnimation m)) = true
  ∧ intervals (carry_on actions m) = []
  ∧ frames (carry_on actions m) = frames m
  ∧ currentFrame (carry_on actions m) = currentFrame m
  ∧ intervals (go_on gestures m) = []
  ∧ frames (go_on gestures m) = frames (go_on (clicks_only gestures) m)
  ∧ currentFrame (go_on gestures m) = currentFrame (go_on (clicks_only gestures) m).
Proof.
  intros Hp Hi Hplaying.
  assert (Hrun : pauseButton (carry_on actions m) = None
                 ∧ intervals (carry_on actions m) = []
                 ∧ frames (carry_on actions m) = frames m
                 ∧ currentFrame (carry_on actions m) = currentFrame m).
  { clear Hplaying. unfold carry_on. revert m Hp Hi.
    induction actions as [|a actions IH]; intros m Hp Hi; [done |]. simpl.
    destruct (act_without_pause m a Hp Hi) as (Hp1 & Hi1 & Hf1 & Hc1).
    destruct (IH _ Hp1 Hi1) as (? & ? & Hf & Hc). rewrite Hf, Hc.
    by split_and!. }
  destruct Hrun as (_ & Hi' & Hf' & Hc').
  destruct (go_on_without_pause gestures m m Hp Hi eq_refl eq_refl)
    as (Hgi & Hgf & Hgc).
  split_and!; [| | done | done | done | done | done | done].
  - unfold playAnimation. rewrite Hplaying.
    cbn [set_playing playButton pauseButton]. rewrite Hp.
    by destruct (playButton m).
  - unfold playAnimation. rewrite Hplaying.
    cbn [set_playing playButton pauseButton]. rewrite Hp.
    by destruct (playButton m).
Qed.

Lemma no_pause_button_no_animation_witness :
  pauseButton sample_without_pause = None
  ∧ intervals sample_without_pause = []
  ∧ isPlaying sample_without_pause = false
  ∧ threw (playAnimation sample_without_pause) = true
  ∧ intervals (carry_on [Play; Second; Pause; Play; Second] sample_without_pause) = []
  ∧ intervals (go_on [Do Play; ClickFrame 1; Do Second; Do Pause]
                 sample_without_pause) = []
  ∧ currentFrame (go_on [Do Play; ClickFrame 1; Do Second; Do Pause]
                    sample_without_pause) = 2.
Proof.
  destruct (no_pause_button_no_animation sample_without_pause
              [Play; Second; Pause; Play; Second]
              [Do Play; ClickFrame 1; Do Second; Do Pause]
              eq_refl eq_refl eq_refl)
    as (Hthrew & _ & Hi & _ & _ & Hgi & _ & Hgc).
  split_and!; [reflexivity | reflexivity | reflexivity | exact Hthrew | exact Hi
              | exact Hgi |].
  rewrite Hgc. vm_compute. reflexivity.
Defined.

End PlayerRuns.

(** ** The submit button *)

Section ButtonFacts.
Import ClassList Form.
Implicit Types (b : Button) (cl : list string).

Lemma elem_of_strip c cl : c ∈ strip cl ↔ c ∈ cl ∧ c ∉ state_classes.
Proof.
  unfold strip, state_classes. rewrite !elem_of_remove.
  rewrite !not_elem_of_cons. pose proof (not_elem_of_nil c). tauto.
Qed.

Lemma filter_none {A} (P : A → Prop) `{∀ x, Decision (P x)} (l : list A) :
  (∀ x, x ∈ l → ¬ P x) → filter P l = [].
Proof.
  induction l as [|a l IH]; intros Hl; [done |].
  rewrite filter_cons_False by (apply Hl; by left).
  apply IH. intros x Hx. apply Hl. by right.
Qed.

Lemma filter_all {A} (P : A → Prop) `{∀ x, Decision (P x)} (l : list A) :
  (∀ x, x ∈ l → P x) → filter P l = l.
Proof.
  induction l as [|a l IH]; intros Hl; [done |].
  rewrite filter_cons_True by (apply Hl; by left).
  f_equal. apply IH. intros x Hx. apply Hl. by right.
Qed.

Lemma strip_state_free cl : filter (λ c, c ∈ state_classes) (strip cl) = [].
Proof. apply filter_none. intros c Hc. apply elem_of_strip in Hc. tauto. Qed.

Lemma strip_strip cl : strip (strip cl) = strip cl.
Proof.
  unfold strip at 1.
  rewrite !remove_absent; [done | |  |].
  all: rewrite ?elem_of_remove, elem_of_strip; unfold state_classes;
    rewrite !not_elem_of_cons; tauto.
Qed.

Lemma strip_add c cl : c ∈ state_classes → strip (add c (strip cl)) = strip cl.
Proof.
  intros Hc. unfold add.
  rewrite (proj2 (contains_false c (strip cl)))
    by (rewrite elem_of_strip; tauto).
  unfold strip at 1, remove. rewrite !filter_app.
  fold (remove "btn--loading" (strip cl)).
  fold (remove "btn--success" (remove "btn--loading" (strip cl))).
  fold (remove "btn--error" (remove "btn--success" (remove "btn--loading" (strip cl)))).
  fold (strip (strip cl)). rewrite strip_strip.
  rewrite <- (app_nil_r (strip cl)) at 2. f_equal.
  unfold state_classes in Hc.
  apply elem_of_cons in Hc as [-> | Hc]; [done |].
  apply elem_of_cons in Hc as [-> | Hc]; [done |].
  apply list_elem_of_singleton in Hc as ->. done.
Qed.

Lemma look_add c cl :
  c ∈ state_classes →
  filter (λ c, c ∈ state_classes) (add c (strip cl)) = [c].
Proof.
  intros Hc. unfold add.
  rewrite (proj2 (contains_false c (strip cl)))
    by (rewrite elem_of_strip; tauto).
  rewrite filter_app, strip_state_free. simpl.
  by rewrite filter_cons_True, filter_nil by done.
Qed.

Lemma strip_filter cl : strip cl = filter (λ c, c ∉ state_classes) cl.
Proof.
  unfold strip, remove. rewrite !list_filter_filter.
  apply list_filter_iff. intros c. unfold state_classes.
  rewrite !not_elem_of_cons. pose proof (not_elem_of_nil c). tauto.
Qed.

Lemma list_filter_filter_strip cl :
  filter (λ c, c ∉ state_classes) (strip cl)
  = filter (λ c, c ∉ state_classes) cl.
Proof. by rewrite <- !strip_filter, strip_strip. Qed.

Lemma NoDup_strip cl : NoDup cl → NoDup (strip cl).
Proof. intros Hnd. unfold strip. by do 3 apply NoDup_remove. Qed.

Lemma setSubmitState_spec (state : string) (b : Button) (text : string) :
  btn_text b = Some text →
  NoDup (btn_classes b) →
  ∃ b', setSubmitState state (Some b) = Returned (Some b')
        ∧ look b' = state_look state b
        ∧ filter (λ c, c ∉ state_classes) (btn_classes b')
          = filter (λ c, c ∉ state_classes) (btn_classes b)
        ∧ NoDup (btn_classes b')
        ∧ setSubmitState state (Some b') = Returned (Some b').
Proof.
  intros Htext Hnd.
  assert (Hin : ∀ c, c ∈ ["btn--loading"; "btn--success"; "btn--error"]
                     → c ∈ state_classes) by done.
  assert (Hknown : ∀ c flag txt, c ∈ state_classes →
    let b' := {| btn_classes := add c (strip (btn_classes b));
                 disabled := flag; btn_text := Some txt |} in
    look b' = ([c], flag, Some txt)
    ∧ filter (λ c, c ∉ state_classes) (btn_classes b')
      = filter (λ c, c ∉ state_classes) (btn_classes b)
    ∧ NoDup (btn_classes b')
    ∧ add c (strip (btn_classes b')) = btn_classes b').
  { intros c flag txt Hc b'. subst b'. unfold look. cbn [btn_classes disabled btn_text].
    split_and!.
    - by rewrite look_add.
    - rewrite <- !strip_filter. by apply strip_add.
    - by apply NoDup_add, NoDup_strip.
    - by rewrite strip_add. }
  unfold setSubmitState, state_look, finish. fold (strip (btn_classes b)).
  rewrite Htext.
  destruct (bool_decide (state = "loading")) eqn:E1.
  { eexists. split; [reflexivity |].
    destruct (Hknown "btn--loading" true "Submitting...") as (Hl & Hk & Hn & Hi).
    { apply Hin. by left. }
    split_and!; [done | done | done |].
    cbn [btn_classes btn_text]. fold (strip (add "btn--loading" (strip (btn_classes b)))).
    cbn [btn_classes] in Hi. by rewrite Hi. }
  destruct (bool_decide (state = "success")) eqn:E2.
  { eexists. split; [reflexivity |].
    destruct (Hknown "btn--success" true "Message Sent!") as (Hl & Hk & Hn & Hi).
    { apply Hin. right. by left. }
    split_and!; [done | done | done |].
    cbn [btn_classes btn_text]. fold (strip (add "btn--success" (strip (btn_classes b)))).
    cbn [btn_classes] in Hi. by rewrite Hi. }
  destruct (bool_decide (state = "error")) eqn:E3.
  { eexists. split; [reflexivity |].
    destruct (Hknown "btn--error" false "Failed - Try Again") as (Hl & Hk & Hn & Hi).
    { apply Hin. right. right. by left. }
    split_and!; [done | done | done |].
    cbn [btn_classes btn_text]. fold (strip (add "btn--error" (strip (btn_classes b)))).
    cbn [btn_classes] in Hi. by rewrite Hi. }
  destruct (bool_decide (state = "default")) eqn:E4.
  { eexists. split; [reflexivity |].
    unfold look. cbn [btn_classes disabled btn_text].
    fold (strip (strip (btn_classes b))).
    rewrite strip_state_free, list_filter_filter_strip, strip_strip.
    split_and!; [done | done | by apply NoDup_strip | done]. }
  eexists. split; [reflexivity |].
  unfold look. cbn [btn_classes disabled btn_text].
  fold (strip (strip (btn_classes b))).
  rewrite strip_state_free, list_filter_filter_strip, strip_strip.
  split_and!; [done | done | by apply NoDup_strip | done].
Qed.

(** X16: for a button with its text element, [setSubmitState] returns
    and what the button shows is a function of the state alone: of the
    three state classes only that of the state stays (none for
    ['default'] and for a state the code does not know), the button is
    disabled for ['loading'] and ['success'] only, and an unknown state
    leaves flag and text alone.  Classes that tell no state are kept, no
    class is doubled, and setting the same state again changes nothing. *)
Theorem setSubmitState_shows_state (state : string) (b : Button) (text : string) :
  btn_text b = Some text →
  NoDup (btn_classes b) →
  ∃ b', setSubmitState state (Some b) = Returned (Some b')
        ∧ look b' = state_look state b
        ∧ filter (λ c, c ∉ state_classes) (btn_classes b')
          = filter (λ c, c ∉ state_classes) (btn_classes b)
        ∧ NoDup (btn_classes b')
        ∧ setSubmitState state (Some b') = Returned (Some b').
Proof. apply setSubmitState_spec. Qed.

Lemma setSubmitState_shows_state_witness :
  btn_text {| btn_classes := ["btn"; "btn--error"]; disabled := false;
              btn_text := Some "Failed - Try Again" |}
  = Some "Failed - Try Again"
  ∧ NoDup ["btn"; "btn--error"]
  ∧ setSubmitState "loading"
      (Some {| btn_classes := ["btn"; "btn--error"]; disabled := false;
               btn_text := Some "Failed - Try Again" |})
    = Returned (Some {| btn_classes := ["btn"; "btn--loading"]; disabled := true;
                        btn_text := Some "Submitting..." |}).
Proof.
  assert (Hnd : NoDup ["btn"; "btn--error"]).
  { apply (bool_decide_unpack _). vm_compute. exact I. }
  destruct (setSubmitState_shows_state "loading"
              {| btn_classes := ["btn"; "btn--error"]; disabled := false;
                 btn_text := Some "Failed - Try Again" |}
              "Failed - Try Again" eq_refl Hnd) as (b' & Hset & _).
  split_and!; [reflexivity | exact Hnd | reflexivity].
Defined.

End ButtonFacts.

(** ** Validation *)

Section ValidationFacts.
Import ClassList Form.
Context `{StringHost}.
Local Open Scope nat_scope.
Implicit Types (f : Field) (errs : gmap string ErrorElement).

Lemma toggle_toggle c force cl :
  ClassList.toggle c force (ClassList.toggle c force cl) = ClassList.toggle c force cl.
Proof.
  destruct force; simpl; [apply add_add |].
  apply remove_absent. rewrite elem_of_remove. tauto.
Qed.

Lemma validateField_present vs f errs (v : Page.Validator) :
  vs !! name f = Some v →
  validateField vs f errs
  = ((verdict (name f) v (value f)).1,
     updateFieldState f (verdict (name f) v (value f)).1
                        (verdict (name f) v (value f)).2 errs).
Proof.
  intros Hv. unfold validateField. rewrite Hv.
  by destruct (verdict (name f) v (value f)).
Qed.

Lemma verdict_valid_message fieldName (v : Page.Validator) raw :
  (verdict fieldName v raw).1 = true → (verdict fieldName v raw).2 = "".
Proof.
  unfold verdict. cbv zeta.
  repeat (destruct (_ && _); [done |]). done.
Qed.

(** X17: [validateField] shows what it returns.  For a field with a
    validator the field carries [field-error] exactly when the result is
    false, [aria-invalid] says the same, the error element of the field,
    if the page has one, holds the message and is displayed exactly when
    the message is not empty, with no message for a valid field; name and
    value of the field and the other error elements are untouched, and
    validating again changes nothing. *)
Theorem validateField_shows_verdict
  (vs : gmap string Page.Validator) (f : Field) (errs : gmap string ErrorElement)
  (v : Page.Validator) :
  vs !! name f = Some v →
  let ok := (validateField vs f errs).1 in
  let f' := (validateField vs f errs).2.1 in
  let errs' := (validateField vs f errs).2.2 in
  contains "field-error" (field_classes f') = negb ok
  ∧ aria_invalid f' = Some (bool_to_string (negb ok))
  ∧ name f' = name f ∧ value f' = value f
  ∧ errs' = alter (λ _, {| error_text := (verdict (name f) v (value f)).2;
                           display := if bool_decide ((verdict (name f) v (value f)).2 = "")
                                      then "none" else "block" |})
                  (name f +:+ "-error") errs
  ∧ (if ok then (verdict (name f) v (value f)).2 = "" else True)
  ∧ validateField vs f' errs' = validateField vs f errs.
Proof.
  intros Hv ok f' errs'. subst ok f' errs'.
  rewrite (validateField_present vs f errs v Hv).
  unfold updateFieldState. cbn [fst snd field_classes aria_invalid name value].
  split_and!; try done.
  - apply contains_toggle.
  - destruct (verdict (name f) v (value f)).1 eqn:Hok; [| done].
    by apply verdict_valid_message.
  - rewrite validateField_present with (v := v) by done.
    unfold updateFieldState. cbn [fst snd field_classes aria_invalid name value
                                  defaultValue].
    rewrite toggle_toggle. f_equal. f_equal.
    apply map_eq. intros id. rewrite !lookup_alter.
    destruct (decide (name f +:+ "-error" = id)) as [<- | Hne]; [| done].
    rewrite decide_True by done.
    by destruct (errs !! (name f +:+ "-error")).
Qed.

Lemma lookup_validators (vs : gmap string Page.Validator) (key : string) :
  Page.setupValidators vs !! key
  = if bool_decide (key = "message")
    then Some {| Page.required := true; Page.minLength := Some 10;
                 Page.maxLength := Some 1000; Page.pattern := None;
                 Page.message := "Message must be between 10 and 1000 characters" |}
    else if bool_decide (key = "subject")
    then Some {| Page.required := true; Page.minLength := None;
                 Page.maxLength := None; Page.pattern := None;
                 Page.message := "Please select a research area" |}
    else if bool_decide (key = "email")
    then Some {| Page.required := true; Page.minLength := None;
                 Page.maxLength := None;
                 Page.pattern := Some "^[^\s@]+@[^\s@]+\.[^\s@]+$";
                 Page.message := "Please enter a valid email address" |}
    else if bool_decide (key = "name")
    then Some {| Page.required := true; Page.minLength := Some 2;
                 Page.maxLength := None; Page.pattern := Some "^[a-zA-Z\s]+$";
                 Page.message :=
                   "Name must contain only letters and spaces, minimum 2 characters" |}
    else vs !! key.
Proof.
  unfold Page.setupValidators.
  repeat (case_bool_decide;
          [subst; by rewrite ?lookup_insert_ne, lookup_insert_eq by done
          | rewrite lookup_insert_ne by (intros ?; by subst)]).
  done.
Qed.

(** X18: the rules of the contact form.  With the validators of
    [setupValidators] and the value trimmed, a message is valid when it
    has between 10 and 1000 characters, a subject when it is not empty, a
    name when it has at least 2 characters and matches the name pattern,
    an address when it is not empty and matches the address pattern; a
    field of any other name is valid, and is left untouched. *)
Theorem contact_form_rules (f : Field) (errs : gmap string ErrorElement) :
  let value := trim (value f) in
  let filled := negb (bool_decide (value = "")) in
  (validateField (Page.setupValidators ∅) f errs).1
  = (if bool_decide (name f = "message")
     then filled && (10 <=? String.length value) && (String.length value <=? 1000)
     else if bool_decide (name f = "subject") then filled
     else if bool_decide (name f = "email")
     then filled && regex_test "^[^\s@]+@[^\s@]+\.[^\s@]+$" value
     else if bool_decide (name f = "name")
     then filled && regex_test "^[a-zA-Z\s]+$" value && (2 <=? String.length value)
     else true)
  ∧ (if bool_decide (name f ∈ ["message"; "subject"; "email"; "name"]) then True
     else validateField (Page.setupValidators ∅) f errs = (true, (f, errs))).
Proof.
  intros value0 filled. subst filled value0.
  unfold validateField. rewrite lookup_validators.
  assert (Hv : ∀ v : Page.Validator,
            (let '(isValid, errorMessage) := verdict (name f) v (value f) in
             (isValid, updateFieldState f isValid errorMessage errs)).1
            = (verdict (name f) v (value f)).1).
  { intros v. by destruct (verdict (name f) v (value f)). }
  split.
  - destruct (bool_decide (name f = "message")).
    { rewrite Hv. unfold verdict.
      cbn [Page.required Page.minLength Page.maxLength Page.pattern Nat.eqb negb andb].
      destruct (bool_decide (trim (value f) = "")); cbn [negb andb fst]; [done |].
      rewrite !Nat.ltb_antisym.
      by destruct (10 <=? _), (_ <=? 1000). }
    destruct (bool_decide (name f = "subject")).
    { rewrite Hv. unfold verdict.
      cbn [Page.required Page.minLength Page.maxLength Page.pattern Nat.eqb negb andb].
      by destruct (bool_decide (trim (value f) = "")). }
    destruct (bool_decide (name f = "email")).
    { rewrite Hv. unfold verdict.
      cbn [Page.required Page.minLength Page.maxLength Page.pattern Nat.eqb negb andb].
      destruct (bool_decide (trim (value f) = "")); cbn [negb andb fst]; [done |].
      by destruct (regex_test _ _). }
    destruct (bool_decide (name f = "name")).
    { rewrite Hv. unfold verdict.
      cbn [Page.required Page.minLength Page.maxLength Page.pattern Nat.eqb negb andb].
      destruct (bool_decide (trim (value f) = "")); cbn [negb andb fst]; [done |].
      rewrite Nat.ltb_antisym.
      by destruct (regex_test _ _), (2 <=? _). }
    by rewrite lookup_empty.
  - case_bool_decide as Hin; [done |].
    rewrite !not_elem_of_cons in Hin. destruct Hin as (? & ? & ? & ? & _).
    rewrite !bool_decide_eq_false_2 by done. by rewrite lookup_empty.
Qed.

Lemma validate_all_fields vs (fs : list Field) errs :
  (validate_all vs fs errs).1 = forallb (λ f, (validateField vs f ∅).1) fs
  ∧ (validate_all vs fs errs).2.1 = map (λ f, (validateField vs f ∅).2.1) fs.
Proof.
  revert errs. induction fs as [|f fs IH]; intros errs; [done |]. simpl.
  assert (Hf : ∀ e, (validateField vs f e).1 = (validateField vs f ∅).1
                    ∧ (validateField vs f e).2.1 = (validateField vs f ∅).2.1).
  { intros e. unfold validateField. destruct (vs !! name f); [| done].
    by destruct (verdict _ _ _). }
  destruct (Hf errs) as [Hok Hfield].
  destruct (validateField vs f errs) as [ok [f' errs']]. simpl in Hok, Hfield.
  destruct (IH errs') as [IHok IHfields].
  destruct (validate_all vs fs errs') as [oks [rest errs'']]. simpl in *.
  rewrite <- Hok, <- Hfield, <- IHok, <- IHfields. by destruct ok.
Qed.

(** X19: [validateForm] validates every field, also after one has
    failed: each field ends up as [validateField] leaves it, the result
    is true exactly when every field is valid, and the button, the
    analytics log and the timers are not touched. *)
Theorem validateForm_checks_every_field (fm : FormState) :
  (validateForm fm).1
  = forallb (λ f, (validateField (validators fm) f ∅).1) (fields fm)
  ∧ fields (validateForm fm).2
    = map (λ f, (validateField (validators fm) f ∅).2.1) (fields fm)
  ∧ button (validateForm fm).2 = button fm
  ∧ analytics (validateForm fm).2 = analytics fm
  ∧ timers (validateForm fm).2 = timers fm
  ∧ validators (validateForm fm).2 = validators fm.
Proof.
  unfold validateForm.
  destruct (validate_all_fields (validators fm) (fields fm) (errors fm)) as [Hok Hfs].
  destruct (validate_all _ _ _) as [ok [fs errs]]. simpl in *.
  by rewrite Hok, Hfs.
Qed.

End ValidationFacts.

(** ** Submitting the form *)

Section SubmitFacts.
Import ClassList Form.
Context `{StringHost}.
Local Open Scope nat_scope.

Lemma validateForm_frame (fm : FormState) :
  button (validateForm fm).2 = button fm
  ∧ analytics (validateForm fm).2 = analytics fm
  ∧ timers (validateForm fm).2 = timers fm.
Proof.
  unfold validateForm. by destruct (validate_all _ _ _) as [ok [fs errs]].
Qed.

Lemma look_text (b : Button) classes flag text :
  look b = (classes, flag, text) → btn_text b = text ∧ disabled b = flag.
Proof. unfold look. by intros [= _ -> ->]. Qed.

(** X20: a valid form is submitted in three steps.  The submit shows
    the button loading and disabled; when the simulated request settles,
    on a draw above 0.1 the button shows success, still disabled, the
    fields go back to the values of the markup and a submission of value
    1 is logged, and otherwise the button shows the error, enabled again,
    the fields keep what the user typed and a submission of value 0 is
    logged; the timer then shows the default button, enabled, and no
    timer is left.  The button is disabled while loading and after a
    success, and at no other time. *)
Theorem submit_lifecycle (fm : FormState) (b : Button) (text : string) (draw : Q) :
  (validateForm fm).1 = true →
  button fm = Some b →
  btn_text b = Some text →
  NoDup (btn_classes b) →
  ∃ fm1 fm2 fm3 b1 b2 b3,
    submit_begin fm = Returned fm1
    ∧ button fm1 = Some b1
    ∧ look b1 = (["btn--loading"], true, Some "Submitting...")
    ∧ fields fm1 = fields (validateForm fm).2
    ∧ submit_settle draw fm1 = Returned fm2
    ∧ button fm2 = Some b2
    ∧ look b2 = (if submitForm draw
                 then (["btn--success"], true, Some "Message Sent!")
                 else (["btn--error"], false, Some "Failed - Try Again"))
    ∧ map value (fields fm2)
      = (if submitForm draw then map defaultValue (fields fm1)
         else map value (fields fm1))
    ∧ analytics fm2
      = (Analytics.trackEvent "Form" "Submit" "contact"
           (if submitForm draw then 1%Q else 0%Q) <$> analytics fm)
    ∧ submit_timeout fm2 = Returned fm3
    ∧ button fm3 = Some b3
    ∧ look b3 = ([], false, Some "Submit Inquiry")
    ∧ fields fm3 = fields fm2
    ∧ timers fm3 = timers fm.
Proof.
  intros Hvalid Hb Htext Hnd.
  destruct (validateForm_frame fm) as (Hbutton & Hanalytics & Htimers).
  destruct (setSubmitState_spec "loading" b text Htext Hnd)
    as (b1 & Hs1 & Hl1 & _ & Hnd1 & _).
  change (state_look "loading" b) with (["btn--loading"], true, Some "Submitting...")
    in Hl1.
  destruct (look_text b1 _ _ _ Hl1) as [Ht1 _].
  exists (with_button (Some b1) (validateForm fm).2).
  assert (Hbegin : submit_begin fm
                   = Returned (with_button (Some b1) (validateForm fm).2)).
  { unfold submit_begin. destruct (validateForm fm) as [ok fm1] eqn:Hv.
    cbn [fst snd] in *. subst ok. cbn [negb]. by rewrite Hbutton, Hb, Htext, Hs1. }
  set (fm1 := with_button (Some b1) (validateForm fm).2) in *.
  destruct (submitForm draw) eqn:Hdraw.
  - destruct (setSubmitState_spec "success" b1 _ Ht1 Hnd1)
      as (b2 & Hs2 & Hl2 & _ & Hnd2 & _).
    change (state_look "success" b1) with (["btn--success"], true, Some "Message Sent!")
      in Hl2.
    destruct (look_text b2 _ _ _ Hl2) as [Ht2 _].
    destruct (setSubmitState_spec "default" b2 _ Ht2 Hnd2)
      as (b3 & Hs3 & Hl3 & _).
    change (state_look "default" b2) with (@nil string, false, Some "Submit Inquiry")
      in Hl3.
    set (fm2 := settled true (reset (with_button (Some b2) fm1))).
    assert (Hsettle : submit_settle draw fm1 = Returned fm2).
    { unfold submit_settle. rewrite Hdraw. cbn [fm1 with_button button]. by rewrite Hs2. }
    assert (Hvalues : map value (fields fm2) = map defaultValue (fields fm1)).
    { cbn [fm2 settled reset with_button fields fm1]. by rewrite map_map. }
    assert (Hlog : analytics fm2
                   = Analytics.trackEvent "Form" "Submit" "contact" 1%Q <$> analytics fm).
    { cbn [fm2 settled reset with_button analytics fm1]. by rewrite Hanalytics. }
    assert (Htimeout : submit_timeout fm2
              = Returned {| fields := fields fm2; errors := errors fm2;
                            button := Some b3; validators := validators fm2;
                            analytics := analytics fm2;
                            timers := Nat.pred (timers fm2) |}).
    { unfold submit_timeout. cbn [fm2 settled reset with_button button]. by rewrite Hs3. }
    exists fm2. eexists. exists b1, b2, b3.
    split; [exact Hbegin |]. split; [done |]. split; [exact Hl1 |]. split; [done |].
    split; [exact Hsettle |]. split; [done |]. split; [exact Hl2 |].
    split; [exact Hvalues |]. split; [exact Hlog |]. split; [exact Htimeout |].
    split; [done |]. split; [exact Hl3 |]. split; [done |].
    cbn [fm2 settled reset with_button timers fm1 Nat.pred]. exact Htimers.
  - destruct (setSubmitState_spec "error" b1 _ Ht1 Hnd1)
      as (b2 & Hs2 & Hl2 & _ & Hnd2 & _).
    change (state_look "error" b1) with (["btn--error"], false, Some "Failed - Try Again")
      in Hl2.
    destruct (look_text b2 _ _ _ Hl2) as [Ht2 _].
    destruct (setSubmitState_spec "default" b2 _ Ht2 Hnd2)
      as (b3 & Hs3 & Hl3 & _).
    change (state_look "default" b2) with (@nil string, false, Some "Submit Inquiry")
      in Hl3.
    set (fm2 := settled false (with_button (Some b2) fm1)).
    assert (Hsettle : submit_settle draw fm1 = Returned fm2).
    { unfold submit_settle, submit_failed. rewrite Hdraw.
      cbn [fm1 with_button button]. by rewrite Hs2. }
    assert (Hlog : analytics fm2
                   = Analytics.trackEvent "Form" "Submit" "contact" 0%Q <$> analytics fm).
    { cbn [fm2 settled with_button analytics fm1]. by rewrite Hanalytics. }
    assert (Htimeout : submit_timeout fm2
              = Returned {| fields := fields fm2; errors := errors fm2;
                            button := Some b3; validators := validators fm2;
                            analytics := analytics fm2;
                            timers := Nat.pred (timers fm2) |}).
    { unfold submit_timeout. cbn [fm2 settled with_button button]. by rewrite Hs3. }
    exists fm2. eexists. exists b1, b2, b3.
    split; [exact Hbegin |]. split; [done |]. split; [exact Hl1 |]. split; [done |].
    split; [exact Hsettle |]. split; [done |]. split; [exact Hl2 |].
    split; [done |]. split; [exact Hlog |]. split; [exact Htimeout |].
    split; [done |]. split; [exact Hl3 |]. split; [done |].
    cbn [fm2 settled with_button timers fm1 Nat.pred]. exact Htimers.
Qed.

(** X21: an invalid form is not submitted.  Every field shows its
    verdict, but the button is not touched, nothing is logged and no
    timer is set. *)
Theorem invalid_form_not_submitted (fm : FormState) :
  (validateForm fm).1 = false →
  submit_begin fm = Returned (validateForm fm).2
  ∧ button (validateForm fm).2 = button fm
  ∧ analytics (validateForm fm).2 = analytics fm
  ∧ timers (validateForm fm).2 = timers fm.
Proof.
  intros Hinvalid. split; [| apply validateForm_frame].
  unfold submit_begin. destruct (validateForm fm) as [ok fm1].
  simpl in Hinvalid. by subst ok.
Qed.

End SubmitFacts.

Section FormWitnesses.
Import ClassList Form.
Local Open Scope nat_scope.

Lemma sample_form_valid : (@validateForm sample_strings sample).1 = true.
Proof. vm_compute. reflexivity. Qed.

Lemma sample_short_invalid : (@validateForm sample_strings sample_short).1 = false.
Proof. vm_compute. reflexivity. Qed.

Lemma validateField_shows_verdict_witness :
  let f := {| name := "message"; value := "Hello"; defaultValue := "";
              field_classes := []; aria_invalid := None |} in
  Page.setupValidators ∅ !! name f
  = Some {| Page.required := true; Page.minLength := Some 10;
            Page.maxLength := Some 1000; Page.pattern := None;
            Page.message := "Message must be between 10 and 1000 characters" |}
  ∧ contains "field-error"
      (field_classes (@validateField sample_strings (Page.setupValidators ∅) f ∅).2.1)
    = negb (@validateField sample_strings (Page.setupValidators ∅) f ∅).1.
Proof.
  cbv zeta.
  assert (Hv : Page.setupValidators ∅ !! "message"
               = Some {| Page.required := true; Page.minLength := Some 10;
                         Page.maxLength := Some 1000; Page.pattern := None;
                         Page.message :=
                           "Message must be between 10 and 1000 characters" |})
    by (rewrite lookup_validators; reflexivity).
  split; [exact Hv |].
  exact (proj1 (@validateField_shows_verdict sample_strings (Page.setupValidators ∅)
                  {| name := "message"; value := "Hello"; defaultValue := "";
                     field_classes := []; aria_invalid := None |} ∅ _ Hv)).
Defined.

Lemma submit_lifecycle_witness :
  (@validateForm sample_strings sample).1 = true
  ∧ button sample = Some {| btn_classes := ["btn"]; disabled := false;
                            btn_text := Some "Submit Inquiry" |}
  ∧ NoDup ["btn"]
  ∧ ∃ fm1 b1, @submit_begin sample_strings sample = Returned fm1
              ∧ button fm1 = Some b1
              ∧ look b1 = (["btn--loading"], true, Some "Submitting...").
Proof.
  assert (Hnd : NoDup ["btn"]).
  { apply (bool_decide_unpack _). vm_compute. exact I. }
  destruct (@submit_lifecycle sample_strings sample
              {| btn_classes := ["btn"]; disabled := false;
                 btn_text := Some "Submit Inquiry" |}
              "Submit Inquiry" (1 # 20) sample_form_valid eq_refl eq_refl Hnd)
    as (fm1 & fm2 & fm3 & b1 & b2 & b3 & Hbegin & Hb1 & Hl1 & _).
  split; [exact sample_form_valid |]. split; [reflexivity |]. split; [exact Hnd |].
  exists fm1, b1. by split_and!.
Defined.

Lemma invalid_form_not_submitted_witness :
  (@validateForm sample_strings sample_short).1 = false
  ∧ button (@validateForm sample_strings sample_short).2 = button sample_short.
Proof.
  destruct (@invalid_form_not_submitted sample_strings sample_short
              sample_short_invalid) as (_ & Hb & _).
  split; [exact sample_short_invalid | exact Hb].
Defined.

End FormWitnesses.

(** ** [throttle] and [debounce] *)

Section ThrottleFacts.
Import Timers Throttle.
Context {A : Type}.
Variable throws : A → bool.
Variable limit : Q.
Implicit Types (c : Closure A) (a : A).

Lemma throttle_engaged clock : engaged_invariant throws limit (throttle clock).
Proof. by split. Qed.

Lemma throttled_engaged a c :
  engaged_invariant throws limit c →
  engaged_invariant throws limit (store_of (throttled throws limit a c)).
Proof.
  intros H0. pose proof H0 as [Hs Hc]. unfold throttled.
  destruct (inThrottle c) eqn:Hin; [exact H0 |].
  destruct (throws a) eqn:Ha; cbn [store_of].
  - split; cbn [ran inThrottle pending now fst snd].
    + destruct (ran c) as [| [t a0] rest] eqn:Hr; [done |].
      cbn [spaced fst snd]. split; [| done].
      destruct Hc as (Ht & _ & Hdue). cbn [fst snd] in *.
      destruct (throws a0); [done | by apply Hdue].
    + split; [apply Qle_refl |].
      split; [| rewrite Ha; discriminate].
      destruct (ran c) as [| [t a0] rest]; [apply Hc |].
      by destruct Hc as (_ & ? & _).
  - split; cbn [ran inThrottle pending now fst snd].
    + destruct (ran c) as [| [t a0] rest] eqn:Hr; [done |].
      cbn [spaced fst snd]. split; [| done].
      destruct Hc as (Ht & _ & Hdue). cbn [fst snd] in *.
      destruct (throws a0); [done | by apply Hdue].
    + split; [apply Qle_refl |]. split; [done |].
      assert (Hp : pending c = []).
      { destruct (ran c) as [| [t a0] rest]; [apply Hc |].
        by destruct Hc as (_ & ? & _). }
      by rewrite Hp.
Qed.

Lemma fire_engaged c :
  engaged_invariant throws limit c → engaged_invariant throws limit (fire c).
Proof.
  intros H0. pose proof H0 as [Hs Hc]. unfold fire.
  destruct (pending c) as [| due rest] eqn:Hp; [exact H0 |].
  destruct (Qle_bool due (now c)) eqn:Hdue; [| exact H0].
  apply Qle_bool_iff in Hdue.
  split; cbn [ran inThrottle pending now]; [done |].
  destruct (ran c) as [| [t a0] rest0]; [by destruct Hc as [_ ?] |].
  destruct Hc as [Ht Hc]. split; [done |].
  destruct (inThrottle c); [| by destruct Hc as [? _]].
  destruct Hc as [Ha0 Hq].
  injection Hq as -> ->. by split.
Qed.

Lemma wait_engaged d c :
  (0 <= d)%Q →
  engaged_invariant throws limit c →
  engaged_invariant throws limit (step throws limit c (Wait d)).
Proof.
  intros Hd [Hs Hc]. split; cbn [step ran inThrottle pending now]; [done |].
  destruct (ran c) as [| [t a0] rest]; [done |].
  destruct Hc as [Ht Hc]. cbn [fst snd] in *. split; [lra |].
  destruct (inThrottle c); [done |].
  destruct Hc as [Hp Hdue]. split; [done |].
  intros Ha0. specialize (Hdue Ha0). lra.
Qed.

Lemma run_engaged tr c :
  clock_forward tr →
  engaged_invariant throws limit c →
  engaged_invariant throws limit (run throws limit tr c).
Proof.
  unfold run. revert c.
  induction tr as [| e tr IH]; intros c Htr Hc; [done |].
  apply Forall_cons in Htr as [He Htr]. cbn [foldl]. apply IH; [done |].
  destruct e as [a | | d]; cbn [step].
  - by apply throttled_engaged.
  - by apply fire_engaged.
  - by apply wait_engaged.
Qed.

(** X22: [throttle].  Whatever the calls, the timers and the waits, as
    long as the clock does not run backwards: a call that reached [func]
    and returned is followed by the next call that reaches [func] no
    earlier than [limit] later; the calls in between are dropped. *)
Theorem throttle_spacing (tr : list (event A)) (clock : Q) :
  clock_forward tr →
  spaced throws limit (ran (run throws limit tr (throttle clock))).
Proof.
  intros Htr. apply (run_engaged tr (throttle clock) Htr), throttle_engaged.
Qed.

(** X23: [throttle].  A call whose [func] throws does not engage the
    wrapper, so the very next call reaches [func] again; a call whose
    [func] returns engages it, and the very next call is dropped. *)
Theorem throttle_engages_on_return (a b : A) (c : Closure A) :
  inThrottle c = false →
  let first := throttled throws limit a c in
  let second := throttled throws limit b (store_of first) in
  threw first = throws a
  ∧ ran (store_of second)
    = if throws a then (now c, b) :: (now c, a) :: ran c
      else (now c, a) :: ran c.
Proof.
  intros Hin. cbv zeta. unfold throttled. rewrite Hin.
  destruct (throws a) eqn:Ha; cbn [store_of threw inThrottle ran now pending];
    (split; [done |]).
  - by destruct (throws b).
  - done.
Qed.

End ThrottleFacts.

Section ThrottleWitnesses.
Import Timers Throttle.

Lemma throttle_sample_forward : clock_forward sample_trace.
Proof. unfold sample_trace. repeat constructor; by vm_compute. Qed.

Lemma throttle_spacing_witness :
  clock_forward sample_trace
  ∧ spaced sample_throws 16 (ran (run sample_throws 16 sample_trace (throttle 0))).
Proof.
  split; [exact throttle_sample_forward |].
  exact (throttle_spacing sample_throws 16 sample_trace 0 throttle_sample_forward).
Defined.

Lemma throttle_engages_on_return_witness :
  inThrottle (throttle (A := nat) 0) = false
  ∧ threw (throttled sample_throws 16 0%nat (throttle 0)) = true.
Proof.
  split; [reflexivity |].
  exact (proj1 (throttle_engages_on_return sample_throws 16 0%nat 1%nat
                  (throttle 0) eq_refl)).
Defined.

End ThrottleWitnesses.

Section DebounceFacts.
Import Timers Debounce.
Context {A : Type}.
Variable delay : Q.
Implicit Types (c : Closure A) (a : A).

Lemma debounce_single clock : single_timer delay (debounce clock : Closure A).
Proof. split; [done | by left]. Qed.

Lemma clearTimeout_single c :
  single_timer delay c → clearTimeout (timeoutId c) (pending c) = [].
Proof.
  intros [_ [Hp | (id & t0 & a & rest & Hp & Hid & _)]]; rewrite Hp.
  - unfold clearTimeout. by destruct (timeoutId c).
  - rewrite Hid. unfold clearTimeout. rewrite filter_cons_False; [done |].
    cbn. by intros Hne.
Qed.

Lemma debounced_single a c :
  single_timer delay c → single_timer delay (debounced delay a c).
Proof.
  intros Hc. pose proof (clearTimeout_single c Hc) as Hclear.
  destruct Hc as [Hs _]. unfold debounced. cbv zeta. rewrite Hclear.
  split; cbn [log pending timeoutId]; [done |].
  right. by exists (S (made c)), (now c), a, (log c).
Qed.

Lemma fire_single c : single_timer delay c → single_timer delay (fire c).
Proof.
  intros Hc. unfold fire.
  destruct (pending c) as [| [[id due] a] rest] eqn:Hp; [done |].
  destruct (Qle_bool due (now c)) eqn:Hdue; [| done].
  apply Qle_bool_iff in Hdue.
  destruct Hc as [Hs [Hq | (id' & t0 & a' & rest' & Hq & Hid & Hlog)]];
    rewrite Hp in Hq; [done |].
  injection Hq as -> -> -> ->.
  split; cbn [log pending timeoutId]; [| by left].
  rewrite Hlog. cbn [settled_runs]. split; [by split |].
  rewrite Hlog in Hs. exact Hs.
Qed.

Lemma run_single tr c :
  single_timer delay c → single_timer delay (run delay tr c).
Proof.
  unfold run. revert c.
  induction tr as [| e tr IH]; intros c Hc; [done |].
  cbn [foldl]. apply IH.
  destruct e as [a | | d]; cbn [step].
  - by apply debounced_single.
  - by apply fire_single.
  - destruct Hc as [Hs Hp]. by split.
Qed.

(** X24: [debounce].  Whatever the calls, the timers and the waits:
    every run of [func] comes straight after a call, with no other call
    in between, has the arguments of that call and comes no earlier than
    [delay] after it; and the host never holds more than one timer of the
    closure. *)
Theorem debounce_runs_last_call (tr : list (event A)) (clock : Q) :
  let c := run delay tr (debounce clock) in
  settled_runs delay (log c) ∧ (length (pending c) ≤ 1)%nat.
Proof.
  cbv zeta.
  destruct (run_single tr (debounce clock) (debounce_single clock))
    as [Hs [Hp | (id & t0 & a & rest & Hp & _)]]; rewrite Hp;
    (split; [done | cbn [length]; lia]).
Qed.

End DebounceFacts.

(** ** Lazy images *)

Section LazyFacts.
Import ClassList Observer LazyImages.
Implicit Types (l : Loader) (el : elem) (page : gmap elem Image).

Lemma elem_of_observe_all el (els : list elem) :
  el ∈ foldr observe ∅ els ↔ el ∈ els.
Proof.
  induction els as [| x els IH]; cbn [foldr].
  - split; [by intros ?%elem_of_empty | by intros ?%elem_of_nil].
  - unfold observe at 1. rewrite elem_of_union, elem_of_singleton, elem_of_cons.
    by rewrite IH.
Qed.

Lemma setupLazyLoading_observed page el img :
  page !! el = Some img → is_Some (data_src img) →
  el ∈ observed (setupLazyLoading true page).
Proof.
  intros Hpage Hsrc. unfold setupLazyLoading. cbv zeta.
  set (selected := filter (λ kv, is_Some (data_src kv.2)) page).
  assert (Hsel : selected !! el = Some img).
  { unfold selected. by apply map_lookup_filter_Some. }
  destruct (Nat.eqb (size selected) 0) eqn:Hsize.
  - apply Nat.eqb_eq, map_size_empty_iff in Hsize.
    rewrite Hsize in Hsel. by rewrite lookup_empty in Hsel.
  - cbn [negb andb observed]. apply elem_of_observe_all.
    apply list_elem_of_fmap. exists (el, img). split; [done |].
    by apply elem_of_map_to_list.
Qed.

Lemma lazy_on_entry_loaded el img url l entry :
  (if bool_decide (el ∈ observed l) then images l !! el = Some img
   else ∃ img', images l !! el = Some img' ∧ loaded_from url img') →
  data_src img = Some url →
  if bool_decide (el ∈ observed (on_entry l entry))
  then images (on_entry l entry) !! el = Some img
  else ∃ img', images (on_entry l entry) !! el = Some img'
               ∧ loaded_from url img'.
Proof.
  intros Hl Hurl. unfold on_entry.
  destruct (isIntersecting entry); [| done].
  cbn [observed images]. unfold unobserve.
  destruct (decide (target entry = el)) as [-> | Hne].
  - rewrite bool_decide_eq_false_2
      by (intros [_ Hn]%elem_of_difference; apply Hn; by apply elem_of_singleton).
    assert (Hold : ∃ old, images l !! el = Some old ∧ data_src old = Some url).
    { destruct (bool_decide (el ∈ observed l)); [by exists img |].
      destruct Hl as (img' & ? & ? & _). by exists img'. }
    destruct Hold as (old & Hold & Hd).
    exists (load old). rewrite lookup_alter_eq, Hold. split; [done |].
    unfold loaded_from, load. cbn [src data_src img_classes].
    rewrite Hd. split_and!; [done | done |].
    apply contains_true, elem_of_add. by right.
  - rewrite lookup_alter_ne by done.
    assert (Hiff : el ∈ observed l ∖ {[target entry]} ↔ el ∈ observed l).
    { rewrite elem_of_difference, elem_of_singleton.
      split; [tauto | intros; split; [done | congruence]]. }
    by rewrite (bool_decide_ext _ _ Hiff).
Qed.

Lemma lazy_run_loaded el img url batches l :
  (if bool_decide (el ∈ observed l) then images l !! el = Some img
   else ∃ img', images l !! el = Some img' ∧ loaded_from url img') →
  data_src img = Some url →
  if bool_decide (el ∈ observed (run batches l))
  then images (run batches l) !! el = Some img
  else ∃ img', images (run batches l) !! el = Some img' ∧ loaded_from url img'.
Proof.
  intros Hl Hurl. unfold run. revert l Hl.
  induction batches as [| b batches IH]; intros l Hl; [done |].
  cbn [foldl]. apply IH. unfold callback. revert l Hl.
  induction b as [| entry b IHb]; intros l Hl; [done |].
  cbn [foldl]. apply IHb. by apply lazy_on_entry_loaded.
Qed.

Lemma lazy_on_entry_observed l entry : observed (on_entry l entry) ⊆ observed l.
Proof.
  unfold on_entry. destruct (isIntersecting entry); [| done].
  cbn [observed]. unfold unobserve. by apply subseteq_difference_l.
Qed.

Lemma lazy_run_observed batches l : observed (run batches l) ⊆ observed l.
Proof.
  unfold run. revert l.
  induction batches as [| b batches IH]; intros l; [done |].
  cbn [foldl]. etrans; [apply IH |]. unfold callback. revert l.
  induction b as [| entry b IHb]; intros l; [done |].
  cbn [foldl]. etrans; [apply IHb |]. apply lazy_on_entry_observed.
Qed.

(** X25: [setupLazyLoading].  An image of the page that carries
    [data-src] is, after any batches of entries, either still observed and
    untouched, or no longer observed, with its [src] set to its [data-src]
    and the class ['loaded']; and an image that is no longer observed is
    never observed again. *)
Theorem lazy_image_waits_or_is_loaded page (batches more : list (list Entry))
    el img url :
  page !! el = Some img →
  data_src img = Some url →
  let l := run batches (setupLazyLoading true page) in
  (if bool_decide (el ∈ observed l) then images l !! el = Some img
   else ∃ img', images l !! el = Some img' ∧ src img' = Some url
                ∧ contains "loaded" (img_classes img') = true)
  ∧ observed (run more l) ⊆ observed l.
Proof.
  intros Hpage Hurl. cbv zeta. split; [| apply lazy_run_observed].
  assert (Hrun := lazy_run_loaded el img url batches (setupLazyLoading true page)).
  assert (Hsetup : el ∈ observed (setupLazyLoading true page)).
  { apply (setupLazyLoading_observed page el img Hpage). by rewrite Hurl. }
  rewrite (bool_decide_eq_true_2 _ Hsetup) in Hrun.
  assert (Himg : images (setupLazyLoading true page) !! el = Some img).
  { unfold setupLazyLoading. cbv zeta.
    by destruct (negb (Nat.eqb (size _) 0) && true). }
  specialize (Hrun Himg Hurl).
  case_bool_decide; [done |].
  destruct Hrun as (img' & ? & _ & ? & ?). by exists img'.
Qed.

Lemma lazy_image_waits_or_is_loaded_witness :
  sample_page !! 0%nat
  = Some {| src := None; data_src := Some "hero.jpg"; img_classes := [] |}
  ∧ observed (run [] (run [[{| target := 0%nat; isIntersecting := true |}]]
                        (setupLazyLoading true sample_page)))
    ⊆ observed (run [[{| target := 0%nat; isIntersecting := true |}]]
                  (setupLazyLoading true sample_page)).
Proof.
  split; [reflexivity |].
  exact (proj2 (lazy_image_waits_or_is_loaded sample_page
                  [[{| target := 0%nat; isIntersecting := true |}]] [] 0%nat
                  {| src := None; data_src := Some "hero.jpg"; img_classes := [] |}
                  "hero.jpg" eq_refl eq_refl)).
Defined.

End LazyFacts.

(** ** The legacy count-up *)

Section LegacyFacts.
Import Legacy.
Local Open Scope Q_scope.




End LegacyFacts.

(** ** The version switch *)

Section GenderFacts.
Import Gender.
Context `{StringHost}.
Implicit Types (g : Toggle).

Lemma read_after_setState (key : string) (v : value) (st : gmap string value) :
  read (App.setState {[key := v]} st) key = v.
Proof.
  unfold read, App.setState.
  by rewrite (lookup_union_Some_l _ _ _ v) by apply lookup_singleton_eq.
Qed.

Lemma version_toggle g :
  version (toggleGenderVersion g)
  = VStr (if Animation.is_string (version g) "male" then "female" else "male").
Proof.
  unfold version, toggleGenderVersion. cbv zeta.
  cbn [set_player player animation].
  destruct (animation g); cbn [set_player set_analytics set_state player
    updateGenderVersion Animation.updateFrameContent Animation.set_frames
    Animation.state]; apply read_after_setState.
Qed.

(** X27: [toggleGenderVersion].  Whatever the state held before, after a
    toggle the version is ['female'] if it was ['male'] and ['male']
    otherwise; the switch, where it exists, is checked exactly for
    ['female']; with the animation module registered every frame text names
    the new version; and a second toggle gives the other version. *)
Theorem gender_toggle_in_step g :
  let g' := toggleGenderVersion g in
  let female := Animation.is_string (version g) "male" in
  version g' = VStr (if female then "female" else "male")
  ∧ toggleSwitch g' = (λ _, Some (bool_to_string female)) <$> toggleSwitch g
  ∧ (if animation g
     then Animation.placeholders (player g')
          = imap (λ index _,
                    Animation.frame_text (Animation.currentFrame (player g))
                      (VStr (if female then "female" else "male")) (index + 1))
                 (Animation.placeholders (player g))
     else Animation.placeholders (player g')
          = Animation.placeholders (player g))
  ∧ version (toggleGenderVersion g')
    = VStr (if female then "male" else "female").
Proof.
  cbv zeta. split; [apply version_toggle |].
  split.
  { unfold toggleGenderVersion. cbv zeta. cbn [set_player player animation].
    destruct (animation g); cbn [set_player toggleSwitch updateGenderVersion];
      by destruct (Animation.is_string _ "male"). }
  split.
  { unfold toggleGenderVersion. cbv zeta. cbn [set_player player animation].
    destruct (animation g); [| done].
    cbn [set_player set_analytics set_state player updateGenderVersion
         Animation.updateFrameContent Animation.set_frames Animation.state
         Animation.placeholders Animation.currentFrame].
    by rewrite read_after_setState. }
  rewrite !version_toggle.
  by destruct (Animation.is_string (version g) "male").
Qed.

End GenderFacts.
